(** * slice: call-graph reachability and the enrichment pipeline

    A shallow embedding of [pkg/codeql/callgraph.go] (call-graph
    construction and [AnalyzeReachability]), of the CodeQL enrichment
    pipeline ([QueryEnricher.EnrichResults]) and of the generic worker
    pool of package [llm] ([WorkerPool.ProcessItems]), together with the
    properties the specification states about them.

    Conventions.
    - Go [int] values are modelled as [Z].  The only arithmetic done on
      them is [len(x) - 1], sums of two such values and comparisons; all
      operands are bounded by slice lengths, so no 64-bit wrap-around can
      occur and none is written out.  The [atomic.Int32] counters of the
      pipeline do wrap and are modelled with [wrap32].
    - A Go [string] is a [string]; [[]T] is [list T] ([nil] and the empty
      slice are both [[]], the code only ever tests [len]).
    - [map[K]V] is a [gmap K V]; a missing key reads as the zero value.
    - Positions in a slice (the [index] of a work item) are [nat].
    - A run-time panic (index out of range) is [None] in an [option]
      result.
    - A Go [error] is modelled by its message.
    - What the scheduler decides in a concurrent run (the order in which
      results reach a channel, the order in which atomic updates take
      effect) is an argument of the model; the theorems quantify over it. *)

From Stdlib Require Import ZArith String Ascii List Lia.
From stdpp Require Import gmap strings list fin_maps pretty.

Open Scope string_scope.
Open Scope list_scope.
Open Scope Z_scope.

(** ** Go library primitives used by the code *)

(** [error]: only the message is observable. *)
Definition error := string.

(** A Go result pair [(T, error)]. *)
Inductive result (T : Type) :=
| Ok (value : T)
| Err (err : error).
Arguments Ok {T} value.
Arguments Err {T} err.

(** [strings.Split(s, sep)] for a one-character separator: the pieces of
    [s] between the occurrences of [sep]; always at least one piece. *)
Fixpoint strings_Split (s : string) (sep : ascii) : list string :=
  match s with
  | EmptyString => [EmptyString]
  | String c rest =>
      if decide (c = sep) then EmptyString :: strings_Split rest sep
      else match strings_Split rest sep with
           | [] => [String c EmptyString]
           | piece :: pieces => String c piece :: pieces
           end
  end.

(** [strings.Join(elems, sep)]. *)
Fixpoint strings_Join (elems : list string) (sep : string) : string :=
  match elems with
  | [] => ""
  | [x] => x
  | x :: rest => x +:+ sep +:+ strings_Join rest sep
  end.

(** [fmt.Sprintf("%d", n)]. *)
Definition itoa (n : Z) : string := pretty n.

(** [len(x)] of a slice, as a Go [int]. *)
Definition len {A} (l : list A) : Z := Z.of_nat (length l).

(** First element of [l] on which [f] succeeds. *)
Fixpoint firstSome {A B} (f : A → option B) (l : list A) : option B :=
  match l with
  | [] => None
  | x :: rest => match f x with
                 | Some y => Some y
                 | None => firstSome f rest
                 end
  end.

(** ** The graph library (github.com/dominikbraun/graph v0.23.0)

    The library is a dependency of the repository; its code is not among
    the sources.  It is modelled by what the specification (sections 4.1
    and 4.2) and the calling code rely on: a directed, unweighted graph
    over string hashes built by [AddVertex] and [AddEdge], and
    [ShortestPath], which returns a path with the fewest edges, or an error
    when the target cannot be reached.  Which of several equally short
    paths is returned is left open by the library (it ranges over Go maps);
    the model picks one, and the general theorems below do not depend on
    the choice: they use [ShortestPath] only through [ShortestPath_sound],
    [ShortestPath_minimal] and [ShortestPath_complete]. *)
Module graph.

(** Modelled from the spec: the library's [Graph[string, string]], as the
    vertices and the directed edges added so far ("a directed graph whose
    vertices are function identifiers and whose edges represent caller
    invokes callee"). *)
Record Graph := mkGraph {
  vertices : list string;
  edges : list (string * string)
}.

(** Modelled from the spec: [graph.New(graph.StringHash, graph.Directed())],
    the empty graph. *)
Definition New : Graph := mkGraph [] [].

(** Modelled from the spec: the library's [g.AddVertex(v)].  Adding a
    vertex again is [ErrVertexAlreadyExists] and leaves the graph as it is
    (the caller drops the error). *)
Definition AddVertex (g : Graph) (v : string) : Graph :=
  if decide (v ∈ vertices g) then g
  else mkGraph (vertices g ++ [v]) (edges g).

(** Modelled from the spec: the library's [g.AddEdge(src, tgt)].  It is
    refused, the graph unchanged, when an endpoint is not a vertex or the
    edge is already there (the caller drops the error). *)
Definition AddEdge (g : Graph) (src tgt : string) : Graph :=
  if decide (src ∈ vertices g ∧ tgt ∈ vertices g ∧ (src, tgt) ∉ edges g)
  then mkGraph (vertices g) (edges g ++ [(src, tgt)])
  else g.

Definition successors (g : Graph) (v : string) : list string :=
  (filter (λ e, e.1 = v) (edges g)).*2.

(** A path of exactly [n] edges from [from] to [to], if there is one. *)
Fixpoint pathOfLength (g : Graph) (n : nat) (from to : string)
  : option (list string) :=
  match n with
  | O => if decide (from = to) then Some [from] else None
  | S k => (λ p, from :: p) <$>
             firstSome (λ next, pathOfLength g k next to) (successors g from)
  end.

(** Modelled from the spec: the library's [graph.ShortestPath(g, from, to)]
    ("path existence is determined via a shortest-path computation",
    measured by "the shortest path's edge count").  [None] stands for
    [ErrTargetNotReachable].  A shortest path repeats no vertex, so the
    search stops at as many edges as the graph has vertices. *)
Definition ShortestPath (g : Graph) (from to : string) : option (list string) :=
  firstSome (λ n, pathOfLength g n from to) (seq 0 (S (length (vertices g)))).

(** [Path g a b p]: [p] lists the vertices of a path from [a] to [b]
    along edges of [g]; it has [length p - 1] edges. *)
Inductive Path (g : Graph) : string → string → list string → Prop :=
| Path_here v : Path g v v [v]
| Path_step u v w p :
    (u, v) ∈ edges g → Path g v w p → Path g u w (u :: p).

(** Modelled from the spec: the library's [g.AdjacencyMap()], which has
    an entry for every vertex of the graph, holding its outgoing edges (it
    cannot fail on the in-memory store the code uses). *)
Definition AdjacencyMap (g : Graph) : gmap string (list string) :=
  list_to_map ((λ v, (v, successors g v)) <$> vertices g).

(** Every edge joins two vertices: what [AddEdge] maintains. *)
Definition wf (g : Graph) : Prop :=
  Forall (λ e, e.1 ∈ vertices g ∧ e.2 ∈ vertices g) (edges g).

#[global] Instance wf_dec g : Decision (wf g).
Proof. unfold wf. apply _. Defined.

End graph.

(** ** The parser's function records ([pkg/parser/parser.go])

    Only the fields the call graph and the enricher read. *)
Module parser.

Record Callee := mkCallee {
  CalleeName : string;
  CalleeLine : Z
}.

Record Function := mkFunction {
  ID : string;
  Filename : string;
  Name : string;
  StartLine : Z;
  DefinitionWithLineNumbers : string;
  Callees : list Callee
}.

(** [fmt.Sprintf("%s:%d:%s", filename, function.StartLine, functionName)],
    the identifier [analyzeFunctionDefinition] gives a function. *)
Definition functionID (filename : string) (startLine : Z) (functionName : string)
  : string :=
  filename +:+ ":" +:+ itoa startLine +:+ ":" +:+ functionName.

(** A record as [analyzeFunctionDefinition] fills it in. *)
Definition parsed (filename : string) (startLine : Z) (functionName : string)
    (def : string) (callees : list Callee) : Function :=
  mkFunction (functionID filename startLine functionName)
             filename functionName startLine def callees.

End parser.

(** ** The call graph ([pkg/codeql/callgraph.go]) *)

(** [CallGraph]: the graph of function IDs and the index from a function
    name to the IDs that carry it.  The legacy [edges]/[reverseEdges] maps
    and the unused [pathCache] are written by [BuildCallGraph] only and read
    by nothing modelled here; they are left out. *)
Record CallGraph := mkCallGraph {
  g : graph.Graph;
  functions : gmap string (list string)
}.

(** [cg.functions[name]]: a missing key reads as the nil slice. *)
Definition lookupIDs (cg : CallGraph) (name : string) : list string :=
  default [] (functions cg !! name).

Record ReachabilityAnalysis := mkReachabilityAnalysis {
  IsValid : bool;
  Reason : string;
  CallChains : list (list string);
  CommonCallers : list string;
  Details : string;
  MinDepth : Z;
  MaxDepth : Z
}.

(** First loop of [BuildCallGraph]: one vertex and one index entry per
    function. *)
Definition addFunction (cg : CallGraph) (function : parser.Function) : CallGraph :=
  mkCallGraph
    (graph.AddVertex (g cg) (parser.ID function))
    (<[parser.Name function :=
         lookupIDs cg (parser.Name function) ++ [parser.ID function]]>
       (functions cg)).

(** Body of the callee loop: an edge to every function with that name. *)
Definition addCallEdges (caller : parser.Function) (cg : CallGraph)
    (callee : parser.Callee) : CallGraph :=
  match functions cg !! parser.CalleeName callee with
  | Some calleeIDs =>
      mkCallGraph
        (fold_left (λ gr calleeID, graph.AddEdge gr (parser.ID caller) calleeID)
                   calleeIDs (g cg))
        (functions cg)
  | None => cg
  end.

Definition BuildCallGraph (functions : list parser.Function) : CallGraph :=
  let cg := fold_left addFunction functions (mkCallGraph graph.New ∅) in
  fold_left (λ cg caller, fold_left (addCallEdges caller) (parser.Callees caller) cg)
            functions cg.

Inductive RelationshipType :=
| NoRelationship
| SameFunction
| ForwardReachable
| BackwardReachable
| CommonAncestor.

#[global] Instance RelationshipType_eq_dec : EqDecision RelationshipType.
Proof. solve_decision. Defined.

(** [reachabilityAnalyzer]: the graph, the query and the results
    accumulated so far.  [commonCallers] is a [map[string]bool] whose values
    are all [true], i.e. a set. *)
Record reachabilityAnalyzer := mkAnalyzer {
  ra_graph : graph.Graph;
  maxDepth : Z;
  sourceFuncName : string;
  targetFuncName : string;
  foundRelationship : bool;
  relationshipType : RelationshipType;
  allPaths : list (list string);
  commonCallers : gset string
}.

Definition extractFunctionName (funcID : string) : string :=
  let parts := strings_Split funcID ":" in
  if 3 <=? len parts then default funcID (parts !! 2%nat) else funcID.

Definition findPaths (ra : reachabilityAnalyzer) (from to : string)
  : list (list string) :=
  let searchDepth := if maxDepth ra >? 5 then 5 else maxDepth ra in
  match graph.ShortestPath (ra_graph ra) from to with
  | None => []
  | Some shortestPath =>
      if len shortestPath - 1 >? searchDepth then []
      else [extractFunctionName <$> shortestPath]
  end.

(** Disabled in the source: always the nil slice. *)
Definition findCommonAncestors (ra : reachabilityAnalyzer)
    (sourceID targetID : string) : list string :=
  [].

(** The loop of [addPaths]: stops at the global limit of 10 paths. *)
Fixpoint addPathsLoop (all paths : list (list string)) : list (list string) :=
  match paths with
  | [] => all
  | path :: rest =>
      if 10 <=? len all then all else addPathsLoop (all ++ [path]) rest
  end.

Definition setResult (ra : reachabilityAnalyzer) (found : bool)
    (kind : RelationshipType) (paths : list (list string))
    (callers : gset string) : reachabilityAnalyzer :=
  mkAnalyzer (ra_graph ra) (maxDepth ra) (sourceFuncName ra) (targetFuncName ra)
             found kind paths callers.

Definition addPaths (ra : reachabilityAnalyzer) (paths : list (list string))
  : reachabilityAnalyzer :=
  setResult ra (foundRelationship ra) (relationshipType ra)
            (addPathsLoop (allPaths ra) paths) (commonCallers ra).

Definition found (ra : reachabilityAnalyzer) (kind : RelationshipType)
  : reachabilityAnalyzer :=
  setResult ra true kind (allPaths ra) (commonCallers ra).

Definition analyzePair (ra : reachabilityAnalyzer) (sourceID targetID : string)
  : reachabilityAnalyzer :=
  (* Case 1: same function *)
  if decide (sourceID = targetID) then
    setResult ra true SameFunction
              (allPaths ra ++ [[extractFunctionName sourceID]]) (commonCallers ra)
  else
  (* Case 2: forward reachability *)
  let paths := findPaths ra sourceID targetID in
  if 0 <? len paths then addPaths (found ra ForwardReachable) paths
  else
  (* Case 3: backward reachability *)
  let paths := findPaths ra targetID sourceID in
  if 0 <? len paths then addPaths (found ra BackwardReachable) paths
  else
  (* Case 4: common ancestor *)
  let callers := findCommonAncestors ra sourceID targetID in
  if 0 <? len callers then
    let ra := found ra CommonAncestor in
    let ra :=
      match callers with
      | firstCaller :: _ =>
          let paths1 := findPaths ra firstCaller sourceID in
          let paths2 := findPaths ra firstCaller targetID in
          addPaths (addPaths ra paths1) paths2
      | [] => ra
      end in
    setResult ra (foundRelationship ra) (relationshipType ra) (allPaths ra)
              (list_to_set (extractFunctionName <$> callers) ∪ commonCallers ra)
  else ra.

(** The two main loops of [calculatePathDepths]. *)
Definition depthRange (acc : Z * Z) (path : list string) : Z * Z :=
  let depth := len path - 1 in
  (if depth <? acc.1 then depth else acc.1,
   if depth >? acc.2 then depth else acc.2).

(** The common-ancestor loop: [path[len(path)-1]] panics on an empty
    path. *)
Fixpoint sumDepths (first : list string) (lastFunc1 : string) (max : Z)
    (rest : list (list string)) : option Z :=
  match rest with
  | [] => Some max
  | path :: rest =>
      lastFunc2 ← last path;
      let max :=
        if decide (lastFunc1 ≠ lastFunc2) then
          let totalDepth := (len first - 1) + (len path - 1) in
          if totalDepth >? max then totalDepth else max
        else max in
      sumDepths first lastFunc1 max rest
  end.

Definition calculatePathDepths (paths : list (list string)) : option (Z * Z) :=
  match paths with
  | [] => Some (0, 0)
  | first :: rest =>
      let min := len first - 1 in
      let '(min, max) := fold_left depthRange rest (min, min) in
      if 2 <=? len paths then
        lastFunc1 ← last first;
        max ← sumDepths first lastFunc1 max rest;
        Some (min, max)
      else Some (min, max)
  end.

Fixpoint deduplicateLoop (seen : gset string) (paths : list (list string))
  : list (list string) :=
  match paths with
  | [] => []
  | path :: rest =>
      let key := strings_Join path "->" in
      if decide (key ∈ seen) then deduplicateLoop seen rest
      else path :: deduplicateLoop ({[key]} ∪ seen) rest
  end.

Definition deduplicatePaths (paths : list (list string)) : list (list string) :=
  deduplicateLoop ∅ paths.

(** ** The generic worker pool of package [llm] ([WorkerPool.ProcessItems])

    [processor] is [processor.Process(ctx, ·)], a function of the item
    since every item is processed at most once; [zero] is the zero value
    of [TOut], which [make([]TOut, numItems)] fills the result slice
    with. *)

Record WorkResult (TOut : Type) := mkPoolResult {
  Index : nat;
  Data : TOut;
  Error : option error
}.
Arguments mkPoolResult {TOut} Index Data Error.
Arguments Index {TOut}.
Arguments Data {TOut}.
Arguments Error {TOut}.

(** What a worker sends for the work item at position [i]. *)
Definition poolWorker {TIn TOut} (processor : TIn → TOut * option error)
    (i : nat) (item : TIn) : WorkResult TOut :=
  let '(data, err) := processor item in mkPoolResult i data err.

(** One turn of the collecting loop of [ProcessItems]. *)
Definition poolCollect {TOut} (numItems : nat)
    (acc : list TOut * option error) (r : WorkResult TOut)
  : list TOut * option error :=
  let '(results, firstErr) := acc in
  if decide (Index r < numItems)%nat then
    (<[Index r := Data r]> results,
     match Error r, firstErr with
     | Some err, None => Some err
     | _, _ => firstErr
     end)
  else (results, firstErr).

(** [ProcessItems]: [completion] lists the positions of the items whose
    results reach [resultChan], in the order they arrive (a worker that
    sees the context cancelled returns without sending). *)
Definition ProcessItems {TIn TOut} (zero : TOut)
    (processor : TIn → TOut * option error) (items : list TIn)
    (completion : list nat) : list TOut * option error :=
  let numItems := length items in
  if decide (numItems = 0)%nat then ([], None)
  else
    let arrived := omap (λ i, poolWorker processor i <$> items !! i) completion in
    fold_left (poolCollect numItems) arrived (replicate numItems zero, None).

(** The first error in the order in which results arrive. *)
Definition firstError {TIn TOut} (processor : TIn → TOut * option error)
    (items : list TIn) (completion : list nat) : option error :=
  firstSome (λ i, item ← items !! i; (processor item).2) completion.

(** [NewWorkerPool]: the pool's concurrency, which is the number of workers
    [ProcessItems] starts. *)
Definition NewWorkerPool (concurrency : Z) : Z :=
  if concurrency <=? 0 then 1 else concurrency.

(** ** The analysis pipeline of package [llm] ([pkg/llm/pipeline.go]) *)

(** [UnifiedOutput]; [processWithWorkerPool] does not look into the results
    it carries, whose type is left open here. *)
Record UnifiedOutput (R : Type) := mkUnifiedOutput {
  QueryFile : string;
  Database : string;
  SrcDir : string;
  Results : list R
}.
Arguments mkUnifiedOutput {R} QueryFile Database SrcDir Results.
Arguments QueryFile {R}.
Arguments Database {R}.
Arguments SrcDir {R}.
Arguments Results {R}.

(** [Pipeline.processWithWorkerPool]; [concurrency] is
    [p.config.Concurrency], which only sets the number of workers of the
    pool ([NewWorkerPool]); [completion] is the order in which the results
    arrive, as for [ProcessItems]. *)
Definition processWithWorkerPool {R} (zero : R) (concurrency : Z)
    (input : UnifiedOutput R) (operationName : string)
    (processor : R → R * option error) (completion : list nat)
  : result (UnifiedOutput R) :=
  let '(results, err) := ProcessItems zero processor (Results input) completion in
  match err with
  | Some err => Err (operationName +:+ " processing failed: " +:+ err)
  | None => Ok (mkUnifiedOutput (QueryFile input) (Database input) (SrcDir input)
                                results)
  end.

Section Engine.

#[local] Set Default Proof Using "Type".

(** Go leaves the order in which [range] visits the keys of a map
    unspecified.  [keyOrder m] is the order the run time happens to pick;
    nothing is assumed about it: [rangeKeys] visits the keys of [m] in
    that order (and any key it should have missed after them), so that it
    is an enumeration of the keys whatever [keyOrder] is, and every
    enumeration is [rangeKeys] for some [keyOrder]. *)
Variable keyOrder : gset string → list string.

Definition rangeKeys (m : gset string) : list string :=
  let proposed := remove_dups (filter (λ k, k ∈ m) (keyOrder m)) in
  proposed ++ filter (λ k, k ∉ proposed) (elements m).

(** The [switch] of [buildResult]: the [Reason] and [Details] texts. *)
Definition describe (ra : reachabilityAnalyzer) : string * string :=
  match relationshipType ra with
  | NoRelationship => ("", "")
  | SameFunction =>
      ("Functions are the same",
       "Both operations occur in the same function: " +:+ sourceFuncName ra)
  | ForwardReachable =>
      ("Source function can reach target function",
       if (0 <? len (allPaths ra)) && (len (default [] (head (allPaths ra))) =? 2)
       then "Direct call: " +:+ sourceFuncName ra +:+ " calls " +:+ targetFuncName ra
       else "Call chain: " +:+ sourceFuncName ra +:+ " → " +:+ targetFuncName ra)
  | BackwardReachable =>
      ("Target function can reach source function",
       if (0 <? len (allPaths ra)) && (len (default [] (head (allPaths ra))) =? 2)
       then "Reverse call: " +:+ targetFuncName ra +:+ " calls " +:+ sourceFuncName ra
       else "Reverse call chain: " +:+ targetFuncName ra +:+ " → " +:+ sourceFuncName ra)
  | CommonAncestor =>
      ("Functions have common caller",
       let callerCount := Z.of_nat (size (commonCallers ra)) in
       if callerCount =? 1 then
         let callerName := default "" (head (rangeKeys (commonCallers ra))) in
         "Common caller: " +:+ callerName +:+ " calls both " +:+
           sourceFuncName ra +:+ " and " +:+ targetFuncName ra
       else "Found " +:+ itoa callerCount +:+
              " common callers that reach both functions")
  end.

Definition buildResult (ra : reachabilityAnalyzer) : option ReachabilityAnalysis :=
  if negb (foundRelationship ra) then
    Some (mkReachabilityAnalysis false
      "No reachability relationship found between functions" [] []
      ("No direct calls, reverse calls, or common callers found between " +:+
         sourceFuncName ra +:+ " and " +:+ targetFuncName ra +:+
         " within depth " +:+ itoa (maxDepth ra))
      0 0)
  else
    let '(relationship, details) := describe ra in
    (* at most 10 common callers are listed *)
    let callerList := take 10 (rangeKeys (commonCallers ra)) in
    '(minDepth, maxDepth) ← calculatePathDepths (allPaths ra);
    let uniquePaths := deduplicatePaths (allPaths ra) in
    Some (mkReachabilityAnalysis true relationship uniquePaths callerList details
                                 minDepth maxDepth).

(** The inner loop of [AnalyzeReachability], over the target IDs, with its
    early exit. *)
Fixpoint targetLoop (analyzer : reachabilityAnalyzer) (sourceID : string)
    (targetIDs : list string) : reachabilityAnalyzer :=
  match targetIDs with
  | [] => analyzer
  | targetID :: rest =>
      let analyzer := analyzePair analyzer sourceID targetID in
      if foundRelationship analyzer then analyzer
      else targetLoop analyzer sourceID rest
  end.

(** The outer loop, over the source IDs. *)
Fixpoint sourceLoop (analyzer : reachabilityAnalyzer)
    (sourceIDs targetIDs : list string) : reachabilityAnalyzer :=
  match sourceIDs with
  | [] => analyzer
  | sourceID :: rest =>
      let analyzer := targetLoop analyzer sourceID targetIDs in
      if foundRelationship analyzer then analyzer
      else sourceLoop analyzer rest targetIDs
  end.

(** The analyzer [AnalyzeReachability] starts from. *)
Definition newAnalyzer (cg : CallGraph) (sourceFuncName targetFuncName : string)
    (maxDepth : Z) : reachabilityAnalyzer :=
  mkAnalyzer (g cg) maxDepth sourceFuncName targetFuncName
             false NoRelationship [] ∅.

(** The analyzer after all combinations have been tried. *)
Definition analyzeAll (cg : CallGraph) (sourceFuncName targetFuncName : string)
    (maxDepth : Z) : reachabilityAnalyzer :=
  sourceLoop (newAnalyzer cg sourceFuncName targetFuncName maxDepth)
             (lookupIDs cg sourceFuncName) (lookupIDs cg targetFuncName).

Definition AnalyzeReachability (cg : CallGraph)
    (sourceFuncName targetFuncName : string) (maxDepth : Z)
  : option ReachabilityAnalysis :=
  let sourceIDs := lookupIDs cg sourceFuncName in
  let targetIDs := lookupIDs cg targetFuncName in
  if len sourceIDs =? 0 then
    Some (mkReachabilityAnalysis false "Free function not found in call graph"
      [] []
      ("Function '" +:+ sourceFuncName +:+ "' was not found in the parsed codebase")
      0 0)
  else if len targetIDs =? 0 then
    Some (mkReachabilityAnalysis false "Use function not found in call graph"
      [] []
      ("Function '" +:+ targetFuncName +:+ "' was not found in the parsed codebase")
      0 0)
  else buildResult (analyzeAll cg sourceFuncName targetFuncName maxDepth).

(** [CallValidation] is an alias of [ReachabilityAnalysis]. *)
Definition ValidateCallRelationship (cg : CallGraph)
    (freeFuncName useFuncName : string) (maxDepth : Z)
  : option ReachabilityAnalysis :=
  AnalyzeReachability cg freeFuncName useFuncName maxDepth.

(** ** The legacy queries of [callgraph.go], on function IDs *)

Definition HasPath (cg : CallGraph) (from to : string) (maxDepth : Z) : bool :=
  if decide (from = to) then true
  else
    match graph.ShortestPath (g cg) from to with
    | None => false
    | Some path => len path - 1 <=? maxDepth
    end.

Definition FindCallChains (cg : CallGraph) (from to : string) (maxDepth : Z)
  : list (list string) :=
  if decide (from = to) then [[from]]
  else
    match graph.ShortestPath (g cg) from to with
    | None => []
    | Some shortestPath =>
        if len shortestPath >? maxDepth then [] else [shortestPath]
    end.

(** The loop over the vertices returns at the first vertex, other than the
    two functions, that reaches both. *)
Definition haveCommonCaller (cg : CallGraph) (func1 func2 : string)
    (maxDepth : Z) : bool :=
  let searchDepth := if maxDepth >? 3 then 3 else maxDepth in
  let adjMap := graph.AdjacencyMap (g cg) in
  existsb (λ vertex,
             if decide (vertex = func1 ∨ vertex = func2) then false
             else
               let canReachFunc1 := HasPath cg vertex func1 searchDepth in
               let canReachFunc2 := HasPath cg vertex func2 searchDepth in
               canReachFunc1 && canReachFunc2)
          (rangeKeys (dom adjMap)).

Definition AreConnected (cg : CallGraph) (func1 func2 : string) (maxDepth : Z)
  : bool :=
  if HasPath cg func1 func2 maxDepth then true
  else if HasPath cg func2 func1 maxDepth then true
  else haveCommonCaller cg func1 func2 maxDepth.

(** ** The enrichment pipeline ([QueryEnricher.EnrichResults]) *)

Record CodeQLResult := mkCodeQLResult {
  ObjName : string;
  FreeFunctionName : string;
  FreeFunctionFile : string;
  FreeFunctionDefLine : Z;
  FreeLine : Z;
  UseFunctionName : string;
  UseFunctionFile : string;
  UseFunctionDefLine : Z;
  UseLine : Z
}.

Record FunctionCode := mkFunctionCode {
  FunctionCodeDef : string;      (* DefinitionWithLineNumbers *)
  Snippet : string
}.

Record SourceCode := mkSourceCode {
  FreeFunction : FunctionCode;
  UseFunction : FunctionCode;
  IntermediateFunctions : list FunctionCode
}.

(** [Finding]; its fields carry the names of their types in the source
    ([CodeQLResult], [SourceCode], [CallValidation]). *)
Record Finding := mkFinding {
  FindingCodeQLResult : CodeQLResult;
  FindingSourceCode : SourceCode;
  FindingCallValidation : option ReachabilityAnalysis
}.

(** What lies outside the program: the parsed source tree behind
    [parser.GetCachedAnalysisResult], reading one line of a file
    ([getLineFromFile] is file I/O only), [filepath.Join] and
    [runtime.NumCPU()], which is at least 1. *)
Variable GetCachedAnalysisResult : string → result (list parser.Function).
Variable getLineFromFile : string → Z → result string.
Variable filepath_Join : string → string → string.
Variable NumCPU : positive.

(** The enricher's [sourceDir]. *)
Variable sourceDir : string.

(** [parser.FindFunctionByID]. *)
Definition FindFunctionByID (directory functionID : string)
  : result parser.Function :=
  match GetCachedAnalysisResult directory with
  | Err err => Err err
  | Ok fns =>
      match find (λ f, bool_decide (parser.ID f = functionID)) fns with
      | Some f => Ok f
      | None => Err ("function not found: " +:+ functionID)
      end
  end.

Definition emptyFunctionCode : FunctionCode := mkFunctionCode "" "".
Definition emptySourceCode : SourceCode :=
  mkSourceCode emptyFunctionCode emptyFunctionCode [].

Definition enrichWithSourceCode (r : CodeQLResult) : result Finding :=
  let freeID := filepath_Join sourceDir (FreeFunctionFile r) +:+ ":" +:+
                  itoa (FreeFunctionDefLine r) +:+ ":" +:+ FreeFunctionName r in
  let useID := filepath_Join sourceDir (UseFunctionFile r) +:+ ":" +:+
                 itoa (UseFunctionDefLine r) +:+ ":" +:+ UseFunctionName r in
  match FindFunctionByID sourceDir freeID with
  | Err err => Err ("failed to find free function " +:+ freeID +:+ ": " +:+ err)
  | Ok freeFunc =>
  match FindFunctionByID sourceDir useID with
  | Err err => Err ("failed to find use function " +:+ useID +:+ ": " +:+ err)
  | Ok useFunc =>
      let freeSnippet :=
        match getLineFromFile (filepath_Join sourceDir (FreeFunctionFile r)) (FreeLine r) with
        | Ok line => line
        | Err err => "// Could not retrieve line " +:+ itoa (FreeLine r) +:+ ": " +:+ err
        end in
      let useSnippet :=
        match getLineFromFile (filepath_Join sourceDir (UseFunctionFile r)) (UseLine r) with
        | Ok line => line
        | Err err => "// Could not retrieve line " +:+ itoa (UseLine r) +:+ ": " +:+ err
        end in
      Ok (mkFinding r
            (mkSourceCode
               (mkFunctionCode (parser.DefinitionWithLineNumbers freeFunc) freeSnippet)
               (mkFunctionCode (parser.DefinitionWithLineNumbers useFunc) useSnippet)
               [])
            None)
  end end.

(** The names on the chains other than the two endpoints, as the keys of
    [intermediateMap] in the order [range] yields them. *)
Definition extractIntermediateFunctions (callChains : list (list string))
    (freeFunc useFunc : string) : list string :=
  let intermediateMap : gset string :=
    list_to_set
      (filter (λ funcName, funcName ≠ freeFunc ∧ funcName ≠ useFunc)
              (concat callChains)) in
  rangeKeys intermediateMap.

Definition findFunctionByName (funcName : string) : result FunctionCode :=
  match GetCachedAnalysisResult sourceDir with
  | Err err => Err ("failed to get cached analysis: " +:+ err)
  | Ok fns =>
      match find (λ f, bool_decide (parser.Name f = funcName)) fns with
      | Some function =>
          match FindFunctionByID sourceDir (parser.ID function) with
          | Err _ => Ok (mkFunctionCode (parser.DefinitionWithLineNumbers function) "")
          | Ok fullFunc => Ok (mkFunctionCode (parser.DefinitionWithLineNumbers fullFunc) "")
          end
      | None => Err ("function " +:+ funcName +:+ " not found in codebase")
      end
  end.

(** The three [atomic.Int32] counters; [Add] wraps around. *)
Record validationStats := mkStats {
  total : Z;
  valid : Z;
  invalid : Z
}.

Definition wrap32 (z : Z) : Z := (z + 2^31) mod 2^32 - 2^31.

Inductive statOp := AddTotal | AddValid | AddInvalid.

#[global] Instance statOp_eq_dec : EqDecision statOp.
Proof. solve_decision. Defined.

(** One [Add(1)] taking effect. *)
Definition applyOp (st : validationStats) (op : statOp) : validationStats :=
  match op with
  | AddTotal => mkStats (wrap32 (total st + 1)) (valid st) (invalid st)
  | AddValid => mkStats (total st) (wrap32 (valid st + 1)) (invalid st)
  | AddInvalid => mkStats (total st) (valid st) (wrap32 (invalid st + 1))
  end.

(** Slice positions are modelled as [nat]. *)
Record workItem := mkWorkItem {
  index : nat;
  item_result : CodeQLResult
}.

Record workResult := mkWorkResult {
  wr_index : nat;
  wr_finding : option Finding;     (* nil if invalid/filtered *)
  wr_err : option error
}.

(** Appending one intermediate function to a finding. *)
Definition addIntermediate (finding : Finding) (funcName : string) : Finding :=
  let code :=
    match findFunctionByName funcName with
    | Err _ => mkFunctionCode ("// Function " +:+ funcName +:+ " not found") ""
    | Ok funcCode => funcCode
    end in
  let sc := FindingSourceCode finding in
  mkFinding (FindingCodeQLResult finding)
            (mkSourceCode (FreeFunction sc) (UseFunction sc)
                          (IntermediateFunctions sc ++ [code]))
            (FindingCallValidation finding).

(** The body of a worker's loop for one work item: the atomic counter
    updates it performs, in order, and the result it sends.  [None] is a
    panic inside the reachability analysis. *)
Definition processItem (callGraph : option CallGraph) (validateCalls : bool)
    (callDepth : Z) (item : workItem) : option (list statOp * workResult) :=
  let r := item_result item in
  let finding :=
    match enrichWithSourceCode r with
    | Ok finding => finding
    | Err _ => mkFinding r emptySourceCode None
    end in
  match validateCalls, callGraph with
  | true, Some cg =>
      let searchDepth := if callDepth <? 0 then 10 else callDepth in
      validation ← ValidateCallRelationship cg (FreeFunctionName r)
                                            (UseFunctionName r) searchDepth;
      let finding := mkFinding (FindingCodeQLResult finding)
                               (FindingSourceCode finding) (Some validation) in
      if IsValid validation then
        if (0 <=? callDepth) && (MaxDepth validation >? callDepth) then
          Some ([AddTotal; AddInvalid], mkWorkResult (index item) None None)
        else
          let intermediateFuncs :=
            extractIntermediateFunctions (CallChains validation)
              (FreeFunctionName r) (UseFunctionName r) in
          let finding := fold_left addIntermediate intermediateFuncs finding in
          Some ([AddTotal; AddValid], mkWorkResult (index item) (Some finding) None)
      else
        Some ([AddTotal; AddInvalid], mkWorkResult (index item) None None)
  | _, _ => Some ([], mkWorkResult (index item) (Some finding) None)
  end.

(** The number of workers started. *)
Definition numWorkers (concurrency : Z) : Z :=
  if concurrency <=? 0 then (if Z.pos NumCPU >? 16 then 16 else Z.pos NumCPU)
  else concurrency.

(** The collecting loop: [findingsMap], filled as results arrive. *)
Definition collect (arrived : list workResult) : gmap nat Finding :=
  fold_left (λ findingsMap r,
               match wr_finding r with
               | Some finding => <[wr_index r := finding]> findingsMap
               | None => findingsMap
               end)
            arrived ∅.

(** The final loop: positions [0 .. n-1], keeping those in the map. *)
Definition buildOrdered (n : nat) (findingsMap : gmap nat Finding) : list Finding :=
  omap (λ i, findingsMap !! i) (seq 0 n).

(** What the scheduler decides in a run: the order in which the items'
    results reach [resultChan], and the order in which the atomic counter
    updates of all workers take effect. *)
Record schedule := mkSchedule {
  completion : list nat;
  atomics : list statOp
}.

(** The work items, as sent on [workChan]. *)
Definition workItems (results : list CodeQLResult) : list workItem :=
  imap mkWorkItem results.

(** [EnrichResults]: the enriched findings, the error, and the statistics
    read for the log ([None] unless [validateCalls]).  The outer [None]
    is a panic in a worker.  [concurrency] only sets the number of workers,
    of which there is at least one ([numWorkers_positive]); which worker
    takes which item, and when, is the schedule's. *)
Definition EnrichResults (results : list CodeQLResult)
    (callGraph : option CallGraph) (validateCalls : bool) (callDepth : Z)
    (concurrency : Z) (sched : schedule)
  : option (list Finding * option error * option validationStats) :=
  outcomes ← mapM (processItem callGraph validateCalls callDepth) (workItems results);
  let arrived := omap (λ i, snd <$> outcomes !! i) (completion sched) in
  let findingsMap := collect arrived in
  let enrichedResults := buildOrdered (length results) findingsMap in
  let stats := fold_left applyOp (atomics sched) (mkStats 0 0 0) in
  Some (enrichedResults, None, if validateCalls then Some stats else None).

(** ** Decoding the query output ([Executor.parseCSVOutput])

    What lies outside the program: [csv.NewReader(...).ReadAll()] and
    [strconv.Atoi] of the Go library. *)
Variable csv_ReadAll : string → result (list (list string)).
Variable strconv_Atoi : string → result Z.

(** The loop filling [headerMap]: a column name met again overwrites its
    position. *)
Definition headerMap (header : list string) : gmap string nat :=
  fold_left (λ m ic, <[ic.2 := ic.1]> m) (imap pair header) ∅.

Definition requiredFields : list string :=
  ["object"; "free_func"; "free_file"; "free_func_def_ln"; "free_ln";
   "use_func"; "use_file"; "use_func_def_ln"; "use_ln"].

(** [record[headerMap[name]]]: a missing key reads as position 0, and a
    position outside the record panics ([None]). *)
Definition field (hm : gmap string nat) (record : list string) (name : string)
  : option string :=
  record !! default 0%nat (hm !! name).

(** The body of the loop over the data records: [None] is a panic,
    [Some (Err _)] the error returned. *)
Definition parseRecord (hm : gmap string nat) (record : list string)
  : option (result CodeQLResult) :=
  s ← field hm record "free_func_def_ln";
  match strconv_Atoi s with
  | Err _ => Some (Err ("invalid ffDefLine value: " +:+ s))
  | Ok ffDefLine =>
  s ← field hm record "free_ln";
  match strconv_Atoi s with
  | Err _ => Some (Err ("invalid freeLine value: " +:+ s))
  | Ok freeLine =>
  s ← field hm record "use_func_def_ln";
  match strconv_Atoi s with
  | Err _ => Some (Err ("invalid fuDefLine value: " +:+ s))
  | Ok fuDefLine =>
  s ← field hm record "use_ln";
  match strconv_Atoi s with
  | Err _ => Some (Err ("invalid use_ln value: " +:+ s))
  | Ok useLine =>
  object ← field hm record "object";
  free_func ← field hm record "free_func";
  free_file ← field hm record "free_file";
  use_func ← field hm record "use_func";
  use_file ← field hm record "use_file";
  Some (Ok (mkCodeQLResult object free_func free_file ffDefLine freeLine
                           use_func use_file fuDefLine useLine))
  end end end end.

Fixpoint parseRecords (hm : gmap string nat) (records : list (list string))
    (results : list CodeQLResult) : option (result (list CodeQLResult)) :=
  match records with
  | [] => Some (Ok results)
  | record :: rest =>
      r ← parseRecord hm record;
      match r with
      | Err err => Some (Err err)
      | Ok result => parseRecords hm rest (results ++ [result])
      end
  end.

Definition parseCSVOutput (csvData : string)
  : option (result (list CodeQLResult)) :=
  match csv_ReadAll csvData with
  | Err err => Some (Err ("failed to parse CSV: " +:+ err))
  | Ok [] => Some (Ok [])
  | Ok (header :: rows) =>
      let headerMap := headerMap header in
      match find (λ field, bool_decide (headerMap !! field = None)) requiredFields with
      | Some field =>
          Some (Err ("required field '" +:+ field +:+ "' not found in CSV header"))
      | None => parseRecords headerMap rows []
      end
  end.

(** ** From findings to analysis requests *)

(** [llm.UnifiedResult], with the fields the query command fills and
    [createCodeQLRequest] reads ([Rank] and [DynamicResults] are written by
    later stages only). *)
Record UnifiedResult := mkUnifiedResult {
  UnifiedCodeQLResult : CodeQLResult;
  UnifiedSourceCode : SourceCode;
  UnifiedCallValidation : option ReachabilityAnalysis
}.

(** [llm.CodeQLRequest]. *)
Record CodeQLRequest := mkCodeQLRequest {
  RequestCodeQLResult : CodeQLResult;
  RequestSourceCode : SourceCode;
  RequestCallValidation : option ReachabilityAnalysis;
  FreeFuncDef : string;
  UseFuncDef : string;
  IntermediateFuncDefs : list string;
  RequestCallChains : list (list string);
  FreeSnippet : string;
  UseSnippet : string
}.

(** [Pipeline.createCodeQLRequest]. *)
Definition createCodeQLRequest (result : UnifiedResult) : CodeQLRequest :=
  let callChains :=
    match UnifiedCallValidation result with
    | Some validation =>
        if 0 <? len (CallChains validation) then CallChains validation
        else [[FreeFunctionName (UnifiedCodeQLResult result);
               UseFunctionName (UnifiedCodeQLResult result)]]
    | None => [[FreeFunctionName (UnifiedCodeQLResult result);
                UseFunctionName (UnifiedCodeQLResult result)]]
    end in
  let intermediateFuncDefs :=
    FunctionCodeDef <$> IntermediateFunctions (UnifiedSourceCode result) in
  mkCodeQLRequest (UnifiedCodeQLResult result) (UnifiedSourceCode result)
                  (UnifiedCallValidation result)
                  (FunctionCodeDef (FreeFunction (UnifiedSourceCode result)))
                  (FunctionCodeDef (UseFunction (UnifiedSourceCode result)))
                  intermediateFuncDefs callChains
                  (Snippet (FreeFunction (UnifiedSourceCode result)))
                  (Snippet (UseFunction (UnifiedSourceCode result))).

(** ** The query command ([cmd/slice/cmd_query.go])

    What lies outside the program: the CodeQL executor, which looks for
    the binary and runs it ([NewExecutor], [CheckCodeQLAvailable],
    [RunQuery]). *)
Variable NewExecutor : string → result string.
Variable CheckCodeQLAvailable : string → option error.
Variable RunQuery : string → string → string → result (list CodeQLResult).

(** The [RunE] function of [queryCmd], with the flags as arguments
    ([sourceDir] is the enricher's): the value whose JSON text it prints.
    The outer [None] is a panic in a worker. *)
Definition queryCmd_RunE (database queryFile codeqlBin : string)
    (noValidate : bool) (callDepth queryConcurrency : Z) (sched : schedule)
  : option (result (UnifiedOutput UnifiedResult)) :=
  if decide (database = "") then
    Some (Err "database path is required (use --database)")
  else if decide (queryFile = "") then
    Some (Err "query file is required (use --query)")
  else if decide (sourceDir = "") then
    Some (Err "source directory is required (use --source)")
  else
  match NewExecutor codeqlBin with
  | Err err => Some (Err ("failed to initialize CodeQL executor: " +:+ err))
  | Ok executor =>
  match CheckCodeQLAvailable executor with
  | Some err => Some (Err ("CodeQL not available: " +:+ err))
  | None =>
  match RunQuery executor database queryFile with
  | Err err => Some (Err ("failed to run CodeQL query: " +:+ err))
  | Ok codeqlResults =>
      let validateCalls := negb noValidate in
      let callGraph :=
        if validateCalls then
          match GetCachedAnalysisResult sourceDir with
          | Err err => Err ("failed to parse source code for call graph: " +:+ err)
          | Ok fns => Ok (Some (BuildCallGraph fns))
          end
        else Ok None in
      match callGraph with
      | Err err => Some (Err err)
      | Ok callGraph =>
          '(findings, err, _) ← EnrichResults codeqlResults callGraph validateCalls
                                              callDepth queryConcurrency sched;
          match err with
          | Some err => Some (Err ("failed to enrich query results: " +:+ err))
          | None =>
              let results :=
                (λ finding, mkUnifiedResult (FindingCodeQLResult finding)
                                            (FindingSourceCode finding)
                                            (FindingCallValidation finding))
                  <$> findings in
              Some (Ok (mkUnifiedOutput queryFile database sourceDir results))
          end
      end
  end end end.

(** ** Reading the analyzer

    What one call of [analyzePair] decides for a pair of IDs, as a value:
    the relationship found and its chain of names.  [analyzePair_fresh]
    shows that [analyzePair] stores exactly this. *)
Definition pairResult (ra : reachabilityAnalyzer) (sourceID targetID : string)
  : option (RelationshipType * list string) :=
  if decide (sourceID = targetID) then
    Some (SameFunction, [extractFunctionName sourceID])
  else
    match findPaths ra sourceID targetID with
    | chain :: _ => Some (ForwardReachable, chain)
    | [] =>
        match findPaths ra targetID sourceID with
        | chain :: _ => Some (BackwardReachable, chain)
        | [] => None
        end
    end.

(** An analyzer that has found nothing yet. *)
Definition fresh (ra : reachabilityAnalyzer) : Prop :=
  foundRelationship ra = false ∧ relationshipType ra = NoRelationship ∧
  allPaths ra = [] ∧ commonCallers ra = ∅.

(** The first relationship found over all combinations, in the order the
    loops of [AnalyzeReachability] try them. *)
Definition firstRelationship (ra : reachabilityAnalyzer)
    (sourceIDs targetIDs : list string) : option (RelationshipType * list string) :=
  firstSome (λ sourceID, firstSome (pairResult ra sourceID) targetIDs) sourceIDs.

(** The analyzer once a relationship has been stored. *)
Definition settled (ra : reachabilityAnalyzer)
    (r : option (RelationshipType * list string)) : reachabilityAnalyzer :=
  match r with
  | Some (kind, chain) => setResult ra true kind [chain] ∅
  | None => ra
  end.

(** A string without [":"]. *)
Fixpoint colonFree (s : string) : bool :=
  match s with
  | EmptyString => true
  | String c rest => negb (bool_decide (c = ":"%char)) && colonFree rest
  end.

(** ** Reading the pipeline *)

(** Whether reachability validation runs at all. *)
Definition validating (callGraph : option CallGraph) (validateCalls : bool) : bool :=
  validateCalls && bool_decide (is_Some callGraph).

(** A finding passes validation and depth filtering: validation does not
    run, or the free and use functions are related and, when a depth budget
    is set ([callDepth >= 0]), the maximum depth is within it. *)
Definition accepted (callGraph : option CallGraph) (validateCalls : bool)
    (callDepth : Z) (r : CodeQLResult) : bool :=
  match validateCalls, callGraph with
  | true, Some cg =>
      match ValidateCallRelationship cg (FreeFunctionName r) (UseFunctionName r)
                                     (if callDepth <? 0 then 10 else callDepth) with
      | Some validation =>
          IsValid validation &&
          negb ((0 <=? callDepth) && (MaxDepth validation >? callDepth))
      | None => false
      end
  | _, _ => true
  end.

(** The finding a worker sends for a result, if it sends one. *)
Definition findingOf (callGraph : option CallGraph) (validateCalls : bool)
    (callDepth : Z) (item : workItem) : option Finding :=
  outcome ← processItem callGraph validateCalls callDepth item;
  wr_finding outcome.2.

(** The counter updates a worker performs for a result. *)
Definition opsOf (callGraph : option CallGraph) (validateCalls : bool)
    (callDepth : Z) (r : CodeQLResult) : list statOp :=
  if validating callGraph validateCalls
  then [AddTotal;
        if accepted callGraph validateCalls callDepth r then AddValid else AddInvalid]
  else [].

(** A schedule of a complete run: the result of every item arrives once,
    and every counter update of every item takes effect once, in any
    order (this covers every interleaving of the workers). *)
Definition complete_run (callGraph : option CallGraph) (validateCalls : bool)
    (callDepth : Z) (results : list CodeQLResult) (sched : schedule) : Prop :=
  completion sched ≡ₚ seq 0 (length results) ∧
  atomics sched ≡ₚ concat (opsOf callGraph validateCalls callDepth <$> results).

(** How often a counter is incremented in a trace of updates. *)
Definition countOp (op : statOp) (trace : list statOp) : Z :=
  len (filter (λ o, o = op) trace).

(** ** Example programs *)

(** A chain of eight functions in one file, [f0] calling [f1] calling ...
    [f7]: the shortest path from [f0] to [f7] has 7 edges. *)
Definition chainFunctions : list parser.Function :=
  [ parser.parsed "src/chain.c" 1 "f0" "void f0() { f1(); }" [parser.mkCallee "f1" 1];
    parser.parsed "src/chain.c" 2 "f1" "void f1() { f2(); }" [parser.mkCallee "f2" 2];
    parser.parsed "src/chain.c" 3 "f2" "void f2() { f3(); }" [parser.mkCallee "f3" 3];
    parser.parsed "src/chain.c" 4 "f3" "void f3() { f4(); }" [parser.mkCallee "f4" 4];
    parser.parsed "src/chain.c" 5 "f4" "void f4() { f5(); }" [parser.mkCallee "f5" 5];
    parser.parsed "src/chain.c" 6 "f5" "void f5() { f6(); }" [parser.mkCallee "f6" 6];
    parser.parsed "src/chain.c" 7 "f6" "void f6() { f7(); }" [parser.mkCallee "f7" 7];
    parser.parsed "src/chain.c" 8 "f7" "void f7() { }" [] ].

Definition chainGraph : CallGraph := BuildCallGraph chainFunctions.

(** The same two-function program parsed from a directory whose path
    holds a [":"] (a Windows drive letter). *)
Definition driveFunctions : list parser.Function :=
  [ parser.parsed "C:/src/a.c" 3 "release" "void release() { touch(); }"
                  [parser.mkCallee "touch" 3];
    parser.parsed "C:/src/a.c" 9 "touch" "void touch() { }" [] ].

Definition driveGraph : CallGraph := BuildCallGraph driveFunctions.

(** Three candidate findings over the chain: a direct call, a pair seven
    calls apart, and a free and a use in the same function. *)
Definition finding01 : CodeQLResult :=
  mkCodeQLResult "p" "f0" "chain.c" 1 1 "f1" "chain.c" 2 2.
Definition finding07 : CodeQLResult :=
  mkCodeQLResult "q" "f0" "chain.c" 1 1 "f7" "chain.c" 8 8.
Definition finding33 : CodeQLResult :=
  mkCodeQLResult "r" "f3" "chain.c" 4 4 "f3" "chain.c" 4 4.
Definition chainResults : list CodeQLResult := [finding01; finding07; finding33].

(** A source tree holding the chain, and one that cannot be read. *)
Definition chainTree (directory : string) : result (list parser.Function) :=
  Ok chainFunctions.
Definition noTree (directory : string) : result (list parser.Function) :=
  Err "no such directory".
Definition oneLine (filePath : string) (lineNum : Z) : result string :=
  Ok "free(p);".
Definition joinPath (dir file : string) : string := dir +:+ "/" +:+ file.

(** A run in which the third item completes first, and the counter
    updates of the three workers interleave. *)
Definition lateFirst : schedule :=
  mkSchedule [2; 0; 1]%nat
             [AddTotal; AddTotal; AddValid; AddTotal; AddInvalid; AddValid].

(** A processor failing on odd inputs. *)
Definition halve (n : Z) : Z * option error :=
  (n / 2, if Z.odd n then Some ("odd input " +:+ itoa n) else None).

(** A program in which [main] calls both [release] and [touch], which do
    not call each other. *)
Definition forkFunctions : list parser.Function :=
  [ parser.parsed "src/fork.c" 1 "main" "void main() { release(); touch(); }"
                  [parser.mkCallee "release" 1; parser.mkCallee "touch" 1];
    parser.parsed "src/fork.c" 5 "release" "void release() { }" [];
    parser.parsed "src/fork.c" 9 "touch" "void touch() { }" [] ].

Definition forkGraph : CallGraph := BuildCallGraph forkFunctions.

(** The result of the analyzer for the direct call from [f0] to [f1]. *)
Definition direct01 : ReachabilityAnalysis :=
  mkReachabilityAnalysis true "Source function can reach target function"
    [["f0"; "f1"]] [] "Direct call: f0 calls f1" 1 1.

(** The query output for [finding01], as the CSV reader returns it, and
    an integer parser that knows the line numbers of the chain. *)
Definition chainHeader : list string :=
  ["object"; "free_func"; "free_file"; "free_func_def_ln"; "free_ln";
   "use_func"; "use_file"; "use_func_def_ln"; "use_ln"].
Definition chainRecord : list string :=
  ["p"; "f0"; "chain.c"; "1"; "1"; "f1"; "chain.c"; "2"; "2"].
Definition smallAtoi (s : string) : result Z :=
  match find (λ n, bool_decide (itoa n = s)) [1; 2; 3; 4; 5; 6; 7; 8] with
  | Some n => Ok n
  | None => Err ("strconv.Atoi: parsing " +:+ s +:+ ": invalid syntax")
  end.

(** An executor that is found and available, and whose query returns the
    three findings over the chain. *)
Definition foundExecutor (codeqlBin : string) : result string := Ok codeqlBin.
Definition availableCodeQL (executor : string) : option error := None.
Definition chainQuery (executor database query : string)
  : result (list CodeQLResult) :=
  Ok chainResults.

(** Four numbers to halve, as the results of a pipeline run. *)
Definition fourNumbers : UnifiedOutput Z :=
  mkUnifiedOutput "uaf.ql" "db" "src" [4; 7; 10; 5].

(** * Properties *)

(** ** The shortest-path contract of the graph model *)

Lemma firstSome_Some {A B} (f : A → option B) l y :
  firstSome f l = Some y → ∃ x, x ∈ l ∧ f x = Some y.
Proof.
  induction l as [|x l IH]; simpl; [done|].
  destruct (f x) eqn:E.
  - intros [= <-]. exists x. split; [left | done].
  - intros H. destruct (IH H) as (x' & ? & ?). exists x'. split; [by right | done].
Qed.

Lemma firstSome_is_Some {A B} (f : A → option B) l x :
  x ∈ l → is_Some (f x) → is_Some (firstSome f l).
Proof.
  induction l as [|x' l IH]; simpl; intros Hin Hx.
  - by apply elem_of_nil in Hin.
  - destruct (f x') eqn:E; [by eexists|].
    apply elem_of_cons in Hin as [->|Hin]; [|by apply IH].
    rewrite E in Hx. by destruct Hx.
Qed.

Lemma firstSome_all_None {A B} (f : A → option B) l :
  (∀ x, x ∈ l → f x = None) → firstSome f l = None.
Proof.
  induction l as [|x l IH]; intros H; simpl; [done|].
  rewrite (H x) by left. apply IH. intros y Hy. apply H. by right.
Qed.

Lemma firstSome_None {A B} (f : A → option B) l :
  firstSome f l = None → ∀ x, x ∈ l → f x = None.
Proof.
  induction l as [|x' l IH]; simpl; intros H x Hin.
  - by apply elem_of_nil in Hin.
  - destruct (f x') eqn:E; [done|].
    apply elem_of_cons in Hin as [->|Hin]; [done | by apply IH].
Qed.

(** The first success over [seq]: nothing before it succeeds. *)
Lemma firstSome_seq_least {B} (f : nat → option B) start n y :
  firstSome f (seq start n) = Some y →
  ∃ k, (start ≤ k < start + n)%nat ∧ f k = Some y ∧
       ∀ j, (start ≤ j < k)%nat → f j = None.
Proof.
  revert start. induction n as [|n IH]; intros start; simpl; [done|].
  destruct (f start) eqn:E.
  - intros [= <-]. exists start. split; [lia|]. split; [done|]. intros; lia.
  - intros H. destruct (IH _ H) as (k & Hk & Hf & Hleast).
    exists k. split; [lia|]. split; [done|].
    intros j Hj. destruct (decide (j = start)) as [->|]; [done|].
    apply Hleast. lia.
Qed.

Lemma elem_of_successors gr u v :
  v ∈ graph.successors gr u ↔ (u, v) ∈ graph.edges gr.
Proof.
  unfold graph.successors. rewrite list_elem_of_fmap. split.
  - intros ([u' v'] & -> & Hin). apply list_elem_of_filter in Hin as [Heq Hin].
    simpl in Heq. by subst.
  - intros Hin. exists (u, v). split; [done|].
    apply list_elem_of_filter. by split.
Qed.

Lemma pathOfLength_sound gr n a b p :
  graph.pathOfLength gr n a b = Some p →
  graph.Path gr a b p ∧ length p = S n.
Proof.
  revert a p. induction n as [|n IH]; intros a p; simpl.
  - case_decide; [|done]. intros [= <-]. subst. split; [constructor | done].
  - destruct (firstSome _ _) as [q|] eqn:E; [|done]. simpl. intros [= <-].
    apply firstSome_Some in E as (v & Hv & Hq).
    apply IH in Hq as [Hpath Hlen]. split.
    + econstructor; [|done]. by apply elem_of_successors.
    + simpl. by rewrite Hlen.
Qed.

Lemma pathOfLength_complete gr a b p :
  graph.Path gr a b p →
  is_Some (graph.pathOfLength gr (length p - 1) a b).
Proof.
  induction 1 as [v | u v w p Hedge Hpath IH]; simpl.
  - rewrite decide_True by done. by eexists.
  - assert (length p ≠ O) as Hne by (destruct Hpath; simpl; lia).
    replace (length p - 0)%nat with (S (length p - 1)) by lia. simpl.
    apply fmap_is_Some.
    eapply firstSome_is_Some; [|exact IH]. by apply elem_of_successors.
Qed.

(** A path never is the empty list. *)
Lemma Path_length gr a b p : graph.Path gr a b p → (1 ≤ length p)%nat.
Proof. destruct 1; simpl; lia. Qed.

Lemma Path_head gr a b p : graph.Path gr a b p → head p = Some a.
Proof. by destruct 1. Qed.

Lemma Path_last gr a b p : graph.Path gr a b p → last p = Some b.
Proof.
  induction 1 as [v | u v w p Hedge Hpath IH]; [done|].
  destruct p as [|x p]; [by inversion Hpath|]. by rewrite last_cons_cons.
Qed.

(** The part of a path after one of its vertices is a path. *)
Lemma Path_suffix gr a b l1 u l2 :
  graph.Path gr a b (l1 ++ u :: l2) → graph.Path gr u b (u :: l2).
Proof.
  revert a. induction l1 as [|x l1 IH]; intros a Hp; simpl in Hp.
  - pose proof (Path_head _ _ _ _ Hp) as Hh. simpl in Hh. by injection Hh as ->.
  - inversion Hp as [v Hv | ? v ? p' Hedge Hp']; subst.
    + by destruct l1.
    + by eapply IH.
Qed.

(** Cutting the cycles out of a path. *)
Lemma Path_simple gr a b p :
  graph.Path gr a b p →
  ∃ q, graph.Path gr a b q ∧ NoDup q ∧ q ⊆ p ∧ (length q ≤ length p)%nat.
Proof.
  induction 1 as [v | u v w p Hedge Hpath (q & Hq & Hnd & Hsub & Hlen)].
  - exists [v]. split; [constructor|]. split; [apply NoDup_singleton|]. done.
  - destruct (decide (u ∈ q)) as [Hin|Hout].
    + apply list_elem_of_split in Hin as (l1 & l2 & ->).
      exists (u :: l2). split; [by eapply Path_suffix|].
      split; [by apply NoDup_app in Hnd as (_ & _ & ?)|].
      split.
      * intros x Hx. apply elem_of_cons in Hx as [->|Hx]; [left|].
        right. apply Hsub. apply elem_of_app. right. by right.
      * rewrite length_app in Hlen. simpl in *. lia.
    + exists (u :: q). split; [by econstructor|].
      split; [by constructor|]. split.
      * intros x Hx. apply elem_of_cons in Hx as [->|Hx]; [left | right; auto].
      * simpl. lia.
Qed.

(** In a well-formed graph a path with an edge stays among the vertices. *)
Lemma Path_vertices gr a b p :
  graph.wf gr → graph.Path gr a b p → (2 ≤ length p)%nat →
  p ⊆ graph.vertices gr.
Proof.
  intros Hwf. induction 1 as [v | u v w p Hedge Hpath IH]; simpl; [lia|].
  intros _ x Hx.
  unfold graph.wf in Hwf. rewrite Forall_forall in Hwf.
  pose proof (Hwf _ Hedge) as [Hu Hv]. simpl in *.
  apply elem_of_cons in Hx as [->|Hx]; [done|].
  destruct Hpath as [v | v v' w p Hedge' Hpath].
  - apply list_elem_of_singleton in Hx. by subst.
  - apply IH; [simpl; pose proof (Path_length _ _ _ _ Hpath); lia | done].
Qed.

(** The path returned is a path of the graph. *)
Lemma ShortestPath_sound gr a b p :
  graph.ShortestPath gr a b = Some p → graph.Path gr a b p.
Proof.
  intros H. apply firstSome_Some in H as (n & _ & H).
  by apply pathOfLength_sound in H as [? _].
Qed.

(** No path of the graph has fewer edges. *)
Lemma ShortestPath_minimal gr a b p q :
  graph.ShortestPath gr a b = Some p → graph.Path gr a b q →
  (length p ≤ length q)%nat.
Proof.
  intros H Hq. apply firstSome_seq_least in H as (n & _ & Hn & Hleast).
  apply pathOfLength_sound in Hn as [_ Hlen].
  destruct (decide (length p ≤ length q)%nat) as [|Hlt]; [done|].
  pose proof (pathOfLength_complete _ _ _ _ Hq) as [r Hr].
  rewrite Hleast in Hr; [done|]. pose proof (Path_length _ _ _ _ Hq). lia.
Qed.

(** A reachable target is found. *)
Lemma ShortestPath_complete gr a b q :
  graph.wf gr → graph.Path gr a b q → is_Some (graph.ShortestPath gr a b).
Proof.
  intros Hwf Hq.
  destruct (Path_simple _ _ _ _ Hq) as (s & Hs & Hnd & _ & _).
  eapply (firstSome_is_Some _ _ (length s - 1)%nat);
    [|by apply pathOfLength_complete].
  apply elem_of_seq. split; [lia|]. simpl.
  destruct (decide (2 ≤ length s)%nat) as [Hlen|]; [|lia].
  pose proof (Path_vertices _ _ _ _ Hwf Hs Hlen) as Hsub.
  pose proof (NoDup_submseteq _ _ Hnd (λ x Hx, Hsub x Hx)) as Hle.
  apply submseteq_length in Hle. lia.
Qed.

(** ** The analyzer *)

(** [findPaths] returns at most one chain, and only one the shortest path
    and the search cap allow. *)
Lemma findPaths_cases ra from to :
  findPaths ra from to = [] ∨
  ∃ p, graph.ShortestPath (ra_graph ra) from to = Some p ∧
       len p - 1 ≤ 5 ∧ len p - 1 ≤ maxDepth ra ∧
       findPaths ra from to = [extractFunctionName <$> p].
Proof.
  unfold findPaths. destruct (graph.ShortestPath _ _ _) as [p|]; [|by left].
  destruct (len p - 1 >? _) eqn:E; [by left|]. right. exists p.
  rewrite Z.gtb_ltb in E. apply Z.ltb_ge in E.
  destruct (maxDepth ra >? 5) eqn:E'; rewrite Z.gtb_ltb in E';
    [apply Z.ltb_lt in E' | apply Z.ltb_ge in E']; repeat split; try done; lia.
Qed.

Lemma fresh_eta ra :
  fresh ra →
  ra = mkAnalyzer (ra_graph ra) (maxDepth ra) (sourceFuncName ra)
                  (targetFuncName ra) false NoRelationship [] ∅.
Proof. destruct ra; intros (? & ? & ? & ?); simpl in *; by subst. Qed.

(** [analyzePair] on a fresh analyzer stores what [pairResult] computes. *)
Lemma analyzePair_fresh ra sourceID targetID :
  fresh ra →
  analyzePair ra sourceID targetID = settled ra (pairResult ra sourceID targetID).
Proof.
  intros Hfresh. pose proof Hfresh as (Hf & Hk & Hp & Hc).
  unfold analyzePair, pairResult.
  case_decide as Heq.
  { simpl. by rewrite Hp, Hc. }
  assert (∀ kind a b, findPaths (found ra kind) a b = findPaths ra a b) as Hfound
    by done.
  destruct (findPaths_cases ra sourceID targetID) as [E | (p & _ & _ & _ & E)];
    rewrite E; simpl.
  - destruct (findPaths_cases ra targetID sourceID) as [E' | (p' & _ & _ & _ & E')];
      rewrite E'; simpl.
    + done.
    + unfold addPaths, found, setResult; simpl. by rewrite Hp, Hc.
  - unfold addPaths, found, setResult; simpl. by rewrite Hp, Hc.
Qed.

Lemma settled_found ra r :
  fresh ra → foundRelationship (settled ra r) = bool_decide (is_Some r).
Proof.
  intros (Hf & _). destruct r as [[kind chain]|]; simpl; [done|]. by rewrite Hf.
Qed.

Lemma targetLoop_fresh ra sourceID targetIDs :
  fresh ra →
  targetLoop ra sourceID targetIDs
  = settled ra (firstSome (pairResult ra sourceID) targetIDs).
Proof.
  intros Hfresh. induction targetIDs as [|targetID rest IH]; simpl; [done|].
  rewrite analyzePair_fresh by done.
  destruct (pairResult ra sourceID targetID) as [[kind chain]|] eqn:E; simpl; [done|].
  destruct Hfresh as (-> & _). exact IH.
Qed.

Lemma sourceLoop_fresh ra sourceIDs targetIDs :
  fresh ra →
  sourceLoop ra sourceIDs targetIDs
  = settled ra (firstRelationship ra sourceIDs targetIDs).
Proof.
  intros Hfresh. unfold firstRelationship.
  induction sourceIDs as [|sourceID rest IH]; simpl; [done|].
  rewrite targetLoop_fresh by done.
  destruct (firstSome (pairResult ra sourceID) targetIDs) as [[kind chain]|] eqn:E;
    simpl; [done|].
  destruct Hfresh as (-> & _). exact IH.
Qed.

Lemma newAnalyzer_fresh cg a b d : fresh (newAnalyzer cg a b d).
Proof. by repeat split. Qed.

(** The analyzer [AnalyzeReachability] hands to [buildResult]. *)
Lemma analyzeAll_settled cg a b d :
  analyzeAll cg a b d
  = settled (newAnalyzer cg a b d)
            (firstRelationship (newAnalyzer cg a b d) (lookupIDs cg a) (lookupIDs cg b)).
Proof. apply sourceLoop_fresh, newAnalyzer_fresh. Qed.

(** What [pairResult] can find. *)
Lemma pairResult_Some ra s t kind chain :
  pairResult ra s t = Some (kind, chain) →
  (s = t ∧ kind = SameFunction ∧ chain = [extractFunctionName s]) ∨
  (s ≠ t ∧ kind = ForwardReachable ∧ findPaths ra s t = [chain]) ∨
  (s ≠ t ∧ kind = BackwardReachable ∧ findPaths ra s t = [] ∧
   findPaths ra t s = [chain]).
Proof.
  unfold pairResult. case_decide as Heq.
  { intros [= <- <-]. by left. }
  intros H. right. revert H.
  destruct (findPaths_cases ra s t) as [E | (p & _ & _ & _ & E)]; rewrite E.
  - destruct (findPaths_cases ra t s) as [E' | (p' & _ & _ & _ & E')]; rewrite E'.
    + intros [=].
    + intros [= <- <-]. by right.
  - intros [= <- <-]. by left.
Qed.

Lemma firstRelationship_Some ra ss ts kind chain :
  firstRelationship ra ss ts = Some (kind, chain) →
  ∃ s t, s ∈ ss ∧ t ∈ ts ∧ pairResult ra s t = Some (kind, chain).
Proof.
  intros H. apply firstSome_Some in H as (s & Hs & H).
  apply firstSome_Some in H as (t & Ht & H). eauto.
Qed.

Lemma rangeKeys_empty : rangeKeys ∅ = [].
Proof.
  assert (∀ (m : gset string) (l : list string),
            m = ∅ → filter (λ k, k ∈ m) l = []) as Hnone.
  { intros m l ->. induction l as [|k l IH]; [done|].
    rewrite filter_cons_False by set_solver. exact IH. }
  unfold rangeKeys. by rewrite (Hnone ∅ _ eq_refl), elements_empty.
Qed.

(** One chain: both depths are its number of edges, and the
    common-ancestor sum is not computed. *)
Lemma calculatePathDepths_single chain :
  calculatePathDepths [chain] = Some (len chain - 1, len chain - 1).
Proof. done. Qed.

Lemma deduplicatePaths_single chain : deduplicatePaths [chain] = [chain].
Proof.
  unfold deduplicatePaths. simpl. by rewrite decide_False by set_solver.
Qed.

(** The result built once a relationship has been found. *)
Lemma buildResult_found ra kind chain :
  let ra' := setResult ra true kind [chain] ∅ in
  buildResult ra'
  = Some (mkReachabilityAnalysis true (describe ra').1 [chain] []
                                 (describe ra').2 (len chain - 1) (len chain - 1)).
Proof.
  intros ra'. unfold buildResult.
  change (foundRelationship ra') with true. simpl negb. cbv iota.
  destruct (describe ra') as [relationship details] eqn:E.
  change (allPaths ra') with [chain]. change (commonCallers ra') with (∅ : gset string).
  rewrite calculatePathDepths_single. simpl.
  by rewrite rangeKeys_empty, deduplicatePaths_single.
Qed.

(** The result built when nothing has been found. *)
Lemma buildResult_none ra :
  foundRelationship ra = false →
  buildResult ra
  = Some (mkReachabilityAnalysis false
      "No reachability relationship found between functions" [] []
      ("No direct calls, reverse calls, or common callers found between " +:+
         sourceFuncName ra +:+ " and " +:+ targetFuncName ra +:+
         " within depth " +:+ itoa (maxDepth ra))
      0 0).
Proof. intros H. unfold buildResult. by rewrite H. Qed.

Lemma len_eq_0 {A} (l : list A) : (len l =? 0) = bool_decide (l = []).
Proof. destruct l; done. Qed.

(** [AnalyzeReachability] never panics. *)
Lemma AnalyzeReachability_total cg a b d :
  is_Some (AnalyzeReachability cg a b d).
Proof.
  unfold AnalyzeReachability.
  destruct (len (lookupIDs cg a) =? 0); [by eexists|].
  destruct (len (lookupIDs cg b) =? 0); [by eexists|].
  rewrite analyzeAll_settled.
  destruct (firstRelationship _ _ _) as [[kind chain]|]; simpl.
  - rewrite buildResult_found. by eexists.
  - by eexists.
Qed.

Lemma firstRelationship_kind ra ss ts kind chain :
  firstRelationship ra ss ts = Some (kind, chain) →
  kind = SameFunction ∨ kind = ForwardReachable ∨ kind = BackwardReachable.
Proof.
  intros H. apply firstRelationship_Some in H as (s & t & _ & _ & H).
  apply pairResult_Some in H as [(_ & -> & _) | [(_ & -> & _) | (_ & -> & _)]]; auto.
Qed.

(** The complete behaviour of [AnalyzeReachability]. *)
Lemma AnalyzeReachability_cases cg a b d :
  let ra := newAnalyzer cg a b d in
  AnalyzeReachability cg a b d =
    if bool_decide (lookupIDs cg a = []) then
      Some (mkReachabilityAnalysis false "Free function not found in call graph"
        [] [] ("Function '" +:+ a +:+ "' was not found in the parsed codebase") 0 0)
    else if bool_decide (lookupIDs cg b = []) then
      Some (mkReachabilityAnalysis false "Use function not found in call graph"
        [] [] ("Function '" +:+ b +:+ "' was not found in the parsed codebase") 0 0)
    else
      match firstRelationship ra (lookupIDs cg a) (lookupIDs cg b) with
      | Some (kind, chain) =>
          let ra' := setResult ra true kind [chain] ∅ in
          Some (mkReachabilityAnalysis true (describe ra').1 [chain] []
                  (describe ra').2 (len chain - 1) (len chain - 1))
      | None =>
          Some (mkReachabilityAnalysis false
            "No reachability relationship found between functions" [] []
            ("No direct calls, reverse calls, or common callers found between " +:+
               a +:+ " and " +:+ b +:+ " within depth " +:+ itoa d)
            0 0)
      end.
Proof.
  intros ra. unfold AnalyzeReachability. rewrite !len_eq_0.
  do 2 (case_bool_decide; [done|]).
  rewrite analyzeAll_settled. fold ra.
  destruct (firstRelationship _ _ _) as [[kind chain]|]; simpl.
  - by rewrite buildResult_found.
  - done.
Qed.

(** C5. When the source (free) name or the target (use) name is absent
    from the call graph's name index, [AnalyzeReachability] does not panic
    and returns a result with [IsValid = false] whose reason names the
    missing side: the free function if it is missing, otherwise the use
    function. *)
Theorem missing_name_gives_negative_result cg sourceFuncName targetFuncName d :
  lookupIDs cg sourceFuncName = [] ∨ lookupIDs cg targetFuncName = [] →
  ∃ r, AnalyzeReachability cg sourceFuncName targetFuncName d = Some r ∧
       IsValid r = false ∧ CallChains r = [] ∧
       ((lookupIDs cg sourceFuncName = [] ∧
         Reason r = "Free function not found in call graph") ∨
        (lookupIDs cg sourceFuncName ≠ [] ∧ lookupIDs cg targetFuncName = [] ∧
         Reason r = "Use function not found in call graph")).
Proof.
  intros Hmissing. rewrite AnalyzeReachability_cases.
  case_bool_decide as Hs.
  - eexists. split; [done|]. repeat split. by left.
  - destruct Hmissing as [?|Ht]; [done|].
    rewrite bool_decide_eq_true_2 by done.
    eexists. split; [done|]. repeat split. by right.
Qed.

(** C3. The common-ancestor case is disabled: whatever the query, the
    analyzer never classifies a pair as [CommonAncestor], the result
    returned lists no common callers and its reason is never the
    common-caller one; a valid result is a same-function, forward or
    backward one. *)
Theorem common_ancestor_never_reported cg sourceFuncName targetFuncName d :
  relationshipType (analyzeAll cg sourceFuncName targetFuncName d) ≠ CommonAncestor ∧
  commonCallers (analyzeAll cg sourceFuncName targetFuncName d) = ∅ ∧
  ∃ r, AnalyzeReachability cg sourceFuncName targetFuncName d = Some r ∧
       CommonCallers r = [] ∧
       Reason r ≠ "Functions have common caller" ∧
       (IsValid r = false ∨
        IsValid r = true ∧
        (Reason r = "Functions are the same" ∨
         Reason r = "Source function can reach target function" ∨
         Reason r = "Target function can reach source function")).
Proof.
  rewrite analyzeAll_settled, AnalyzeReachability_cases.
  destruct (firstRelationship _ _ _) as [[kind chain]|] eqn:E; simpl.
  - pose proof (firstRelationship_kind _ _ _ _ _ E) as Hkind.
    split; [by destruct Hkind as [-> | [-> | ->]]|]. split; [done|].
    repeat case_bool_decide; eexists; (split; [done|]); simpl;
      (split; [done|]); try (split; [done | by left]).
    destruct Hkind as [-> | [-> | ->]]; simpl; (split; [done|]); right; auto.
  - split; [done|]. split; [done|].
    repeat case_bool_decide; eexists; (split; [done|]); simpl;
      (split; [done|]); (split; [done | by left]).
Qed.

(** C10. A result of [AnalyzeReachability] holds at most one call chain;
    a valid result holds exactly one, and its minimum and maximum depth
    both equal the number of edges of that chain.  The analyzer never
    accumulates two chains, so the sum of branch depths of
    [calculatePathDepths] is never taken. *)
Theorem at_most_one_chain cg sourceFuncName targetFuncName d :
  (length (allPaths (analyzeAll cg sourceFuncName targetFuncName d)) ≤ 1)%nat ∧
  ∃ r, AnalyzeReachability cg sourceFuncName targetFuncName d = Some r ∧
       (length (CallChains r) ≤ 1)%nat ∧
       (IsValid r = true →
        ∃ chain, CallChains r = [chain] ∧
                 MinDepth r = len chain - 1 ∧ MaxDepth r = len chain - 1 ∧
                 MinDepth r = MaxDepth r).
Proof.
  rewrite analyzeAll_settled, AnalyzeReachability_cases.
  destruct (firstRelationship _ _ _) as [[kind chain]|] eqn:E; simpl.
  - split; [lia|].
    repeat case_bool_decide; eexists; (split; [done|]); simpl;
      (split; [lia|]); try done.
    intros _. by exists chain.
  - split; [lia|].
    repeat case_bool_decide; eexists; (split; [done|]); simpl;
      (split; [lia|]); done.
Qed.

(** [findPaths] reports nothing when every path is longer than the search
    depth, the smaller of [maxDepth] and 5. *)
Lemma findPaths_too_far ra from to :
  (∀ p, graph.Path (ra_graph ra) from to p → Z.min (maxDepth ra) 5 < len p - 1) →
  findPaths ra from to = [].
Proof.
  intros Hlong.
  destruct (findPaths_cases ra from to) as [E | (p & Hsp & Hcap & Hmax & _)]; [done|].
  apply ShortestPath_sound in Hsp. apply Hlong in Hsp. lia.
Qed.

Lemma findPaths_capped ra from to :
  (∀ p, graph.Path (ra_graph ra) from to p → 5 < len p - 1) →
  findPaths ra from to = [].
Proof.
  intros Hlong. apply findPaths_too_far. intros p Hp. apply Hlong in Hp. lia.
Qed.

(** In a well-formed graph [findPaths] reports a chain exactly when some
    path has at most [min(maxDepth, 5)] edges. *)
Lemma findPaths_reports_iff ra from to :
  graph.wf (ra_graph ra) →
  findPaths ra from to ≠ [] ↔
  ∃ p, graph.Path (ra_graph ra) from to p ∧ len p - 1 ≤ Z.min (maxDepth ra) 5.
Proof.
  intros Hwf. split.
  - intros Hsome.
    destruct (findPaths_cases ra from to) as [E | (p & Hsp & Hcap & Hmax & _)];
      [done|].
    exists p. split; [by apply ShortestPath_sound | lia].
  - intros (p & Hp & Hlen) Hnone.
    destruct (ShortestPath_complete _ _ _ _ Hwf Hp) as [q Hq].
    pose proof (ShortestPath_minimal _ _ _ _ _ Hq Hp) as Hmin.
    unfold findPaths in Hnone. rewrite Hq in Hnone.
    destruct (len q - 1 >? _) eqn:E; [|done].
    rewrite Z.gtb_ltb in E. apply Z.ltb_lt in E.
    unfold len in *. destruct (maxDepth ra >? 5) eqn:E';
      rewrite Z.gtb_ltb in E'; [apply Z.ltb_lt in E' | apply Z.ltb_ge in E']; lia.
Qed.

(** C1. Whatever [maxDepth] the query carries, when every path of the
    call graph from one identifier to another has more than 5 edges (that
    is, when the shortest one has), [findPaths] reports no path for the
    pair, and [analyzePair] does not find the pair forward reachable. *)
Theorem search_cap_truncates cg sourceFuncName targetFuncName d from to :
  (∀ p, graph.Path (g cg) from to p → 5 < len p - 1) →
  findPaths (newAnalyzer cg sourceFuncName targetFuncName d) from to = [] ∧
  relationshipType
    (analyzePair (newAnalyzer cg sourceFuncName targetFuncName d) from to)
  ≠ ForwardReachable.
Proof.
  intros Hlong.
  assert (findPaths (newAnalyzer cg sourceFuncName targetFuncName d) from to = [])
    as Hnone by (by apply findPaths_capped).
  split; [done|].
  rewrite analyzePair_fresh by apply newAnalyzer_fresh.
  destruct (pairResult _ from to) as [[kind chain]|] eqn:E; simpl; [|done].
  apply pairResult_Some in E as [(_ & -> & _) | [(_ & _ & E) | (_ & -> & _)]];
    try done.
  by rewrite Hnone in E.
Qed.

(** The common-ancestor loop only ever raises the maximum, and raises it
    to the sum of depths for every chain that ends elsewhere than the first. *)
Lemma sumDepths_bounds first lastFunc1 max rest max' :
  sumDepths first lastFunc1 max rest = Some max' →
  max ≤ max' ∧
  ∀ path, path ∈ rest → last path ≠ Some lastFunc1 →
          (len first - 1) + (len path - 1) ≤ max'.
Proof.
  revert max. induction rest as [|path rest IH]; intros max; simpl.
  - intros [= <-]. split; [lia|]. intros path Hin. by apply elem_of_nil in Hin.
  - destruct (last path) as [lastFunc2|] eqn:El; simpl; [|done].
    intros H. apply IH in H as [Hle Hrest].
    case_decide as Hdiff.
    + assert (max ≤ max' ∧ len first - 1 + (len path - 1) ≤ max') as [? ?].
      { destruct (len first - 1 + (len path - 1) >? max) eqn:E;
          rewrite Z.gtb_ltb in E;
          [apply Z.ltb_lt in E | apply Z.ltb_ge in E]; lia. }
      split; [done|].
      intros path' Hin Hlast. apply elem_of_cons in Hin as [Heq|Hin].
      * by subst path'.
      * by apply Hrest.
    + split; [done|].
      intros path' Hin Hlast. apply elem_of_cons in Hin as [Heq|Hin];
        [|by apply Hrest].
      subst path'. by rewrite El, Hdiff in Hlast.
Qed.

(** For any list of chains, the maximum depth reported is at least the sum
    of the depths of the first chain and of any chain that ends at another
    function. *)
Lemma calculatePathDepths_sum_bound first rest min max path :
  calculatePathDepths (first :: rest) = Some (min, max) →
  path ∈ rest → last path ≠ last first →
  (len first - 1) + (len path - 1) ≤ max.
Proof.
  unfold calculatePathDepths. intros H Hin Hlast.
  destruct (fold_left depthRange rest _) as [mn mx].
  destruct (2 <=? len (first :: rest)) eqn:E.
  - destruct (last first) as [lastFunc1|]; simpl in H; [|done].
    destruct (sumDepths first lastFunc1 mx rest) as [mx'|] eqn:Es; simpl in H; [|done].
    injection H as <- <-.
    by apply (sumDepths_bounds _ _ _ _ _ Es).
  - apply Z.leb_gt in E. destruct rest; [by apply elem_of_nil in Hin|].
    unfold len in E. simpl in E. lia.
Qed.

(** C6. For two chains that end at different functions (the
    common-ancestor shape: one chain per branch), the maximum depth
    [calculatePathDepths] reports is the sum of the two branch depths, each
    the chain's length minus one, not the larger of the two; the minimum
    depth is the smaller of the two. *)
Theorem common_ancestor_depth_is_sum (branch1 branch2 : list string) :
  branch1 ≠ [] → branch2 ≠ [] → last branch1 ≠ last branch2 →
  calculatePathDepths [branch1; branch2]
  = Some (Z.min (len branch1 - 1) (len branch2 - 1),
          (len branch1 - 1) + (len branch2 - 1)).
Proof.
  intros H1 H2 Hlast. unfold calculatePathDepths. simpl fold_left.
  destruct (last branch1) as [lastFunc1|] eqn:E1;
    [|by apply last_None in E1].
  destruct (last branch2) as [lastFunc2|] eqn:E2;
    [|by apply last_None in E2].
  assert (1 ≤ len branch1) by (destruct branch1; [done | unfold len; simpl; lia]).
  assert (1 ≤ len branch2) by (destruct branch2; [done | unfold len; simpl; lia]).
  unfold depthRange. simpl. rewrite E2. simpl.
  rewrite decide_True by congruence.
  f_equal. f_equal.
  - destruct (_ <? _) eqn:E; [apply Z.ltb_lt in E | apply Z.ltb_ge in E]; lia.
  - rewrite !Z.gtb_ltb.
    destruct (Z.ltb_spec (len branch1 - 1) (len branch2 - 1));
      match goal with |- context [?a <? ?b] => destruct (Z.ltb_spec a b) end;
      lia.
Qed.

(** No relationship: when every source ID differs from every target ID and
    every path between them, in either direction, has more edges than the
    search depth [min(maxDepth, 5)] (in particular when there is no path at
    all), the result is the negative one, whatever [maxDepth] is. *)
Lemma unrelated_gives_negative_result cg a b d :
  lookupIDs cg a ≠ [] → lookupIDs cg b ≠ [] →
  (∀ s t, s ∈ lookupIDs cg a → t ∈ lookupIDs cg b →
     s ≠ t ∧
     (∀ p, graph.Path (g cg) s t p → Z.min d 5 < len p - 1) ∧
     (∀ p, graph.Path (g cg) t s p → Z.min d 5 < len p - 1)) →
  AnalyzeReachability cg a b d
  = Some (mkReachabilityAnalysis false
      "No reachability relationship found between functions" [] []
      ("No direct calls, reverse calls, or common callers found between " +:+
         a +:+ " and " +:+ b +:+ " within depth " +:+ itoa d)
      0 0).
Proof.
  intros Ha Hb Hfar. rewrite AnalyzeReachability_cases.
  rewrite !bool_decide_eq_false_2 by done.
  assert (firstRelationship (newAnalyzer cg a b d) (lookupIDs cg a) (lookupIDs cg b)
          = None) as ->; [|done].
  apply firstSome_all_None. intros s Hs.
  apply firstSome_all_None. intros t Ht.
  destruct (Hfar s t Hs Ht) as (Hne & Hfwd & Hbwd).
  unfold pairResult. rewrite decide_False by done.
  by rewrite !findPaths_too_far.
Qed.

(** ** Function IDs and [extractFunctionName] *)

Lemma strings_Split_colonFree s :
  colonFree s = true → strings_Split s ":" = [s].
Proof.
  induction s as [|c s IH]; simpl; [done|].
  intros [Hc Hs]%andb_prop. apply negb_true_iff, bool_decide_eq_false in Hc.
  rewrite decide_False by done. by rewrite IH.
Qed.

Lemma strings_Split_app a b :
  colonFree a = true →
  strings_Split (a +:+ ":" +:+ b) ":" = a :: strings_Split b ":".
Proof.
  induction a as [|c a IH]; simpl.
  - done.
  - intros [Hc Ha]%andb_prop. apply negb_true_iff, bool_decide_eq_false in Hc.
    rewrite decide_False by done. by rewrite IH.
Qed.

Lemma colonFree_pretty_N_go x s :
  colonFree s = true → colonFree (pretty_N_go x s) = true.
Proof.
  revert s. induction (N.lt_wf_0 x) as [x _ IH]; intros s Hs.
  assert (x = 0 ∨ 0 < x)%N as [->|?] by lia.
  - by rewrite pretty_N_go_0.
  - rewrite pretty_N_go_step by done. apply IH; [by apply N.div_lt|].
    simpl. rewrite Hs, andb_true_r.
    unfold pretty_N_char. by repeat case_match.
Qed.

Lemma colonFree_itoa n : colonFree (itoa n) = true.
Proof.
  unfold itoa, pretty, pretty_Z.
  assert (∀ p : positive, colonFree (pretty p) = true) as Hpos.
  { intros p. unfold pretty, pretty_positive, pretty, pretty_N.
    case_decide; [done|]. by apply colonFree_pretty_N_go. }
  destruct n as [|p|p]; [done | apply Hpos |]. simpl. apply Hpos.
Qed.

(** On an ID whose file name and function name hold no [":"],
    [extractFunctionName] returns the function name. *)
Lemma extractFunctionName_functionID filename startLine functionName :
  colonFree filename = true → colonFree functionName = true →
  extractFunctionName (parser.functionID filename startLine functionName)
  = functionName.
Proof.
  intros Hfile Hname. unfold extractFunctionName, parser.functionID.
  rewrite strings_Split_app by done.
  rewrite strings_Split_app by apply colonFree_itoa.
  by rewrite strings_Split_colonFree.
Qed.

(** ** Same function *)

(** [analyze(X, X, d)] for a registered name: a valid same-function result
    whose single chain holds what [extractFunctionName] makes of the first
    ID registered under [X]. *)
Lemma same_name_result cg X d id ids :
  lookupIDs cg X = id :: ids →
  AnalyzeReachability cg X X d
  = Some (mkReachabilityAnalysis true "Functions are the same"
            [[extractFunctionName id]] []
            ("Both operations occur in the same function: " +:+ X) 0 0).
Proof.
  intros Hids. rewrite AnalyzeReachability_cases, Hids. simpl.
  unfold firstRelationship. simpl. unfold pairResult at 1.
  by rewrite decide_True by done.
Qed.

(** With IDs of the documented form [file:line:name] whose file name holds
    no [":"], the chain is [[X]]. *)
Lemma same_function_chain cg X d filename startLine ids :
  colonFree filename = true → colonFree X = true →
  lookupIDs cg X = parser.functionID filename startLine X :: ids →
  AnalyzeReachability cg X X d
  = Some (mkReachabilityAnalysis true "Functions are the same" [[X]] []
            ("Both operations occur in the same function: " +:+ X) 0 0).
Proof.
  intros Hfile Hname Hids. rewrite (same_name_result _ _ _ _ _ Hids).
  by rewrite extractFunctionName_functionID.
Qed.

(** ** Direct calls *)

Lemma AddVertex_wf gr v : graph.wf gr → graph.wf (graph.AddVertex gr v).
Proof.
  unfold graph.AddVertex, graph.wf. case_decide; [done|]. simpl.
  intros Hwf. eapply Forall_impl; [exact Hwf|].
  intros e [? ?]. split; apply elem_of_app; by left.
Qed.

Lemma AddEdge_wf gr src tgt : graph.wf gr → graph.wf (graph.AddEdge gr src tgt).
Proof.
  unfold graph.AddEdge, graph.wf. case_decide as H; [|done]. simpl.
  intros Hwf. apply Forall_app. split; [done|].
  apply Forall_singleton. simpl. by destruct H as (? & ? & _).
Qed.

Lemma addFunction_wf cg function :
  graph.wf (g cg) → graph.wf (g (addFunction cg function)).
Proof. apply AddVertex_wf. Qed.

(** A loop whose every turn keeps the graph well formed. *)
Lemma fold_left_wf {A S} (graphOf : S → graph.Graph) (step : S → A → S) :
  (∀ st x, graph.wf (graphOf st) → graph.wf (graphOf (step st x))) →
  ∀ l st, graph.wf (graphOf st) → graph.wf (graphOf (fold_left step l st)).
Proof.
  intros Hstep l. induction l as [|x l IH]; intros st Hwf; simpl; [done|].
  by apply IH, Hstep.
Qed.

Lemma addCallEdges_wf caller cg callee :
  graph.wf (g cg) → graph.wf (g (addCallEdges caller cg callee)).
Proof.
  unfold addCallEdges. destruct (functions cg !! _) as [calleeIDs|]; [|done].
  simpl. apply (fold_left_wf id). intros gr id. apply AddEdge_wf.
Qed.

(** Every graph [BuildCallGraph] builds has its edges between vertices. *)
Lemma BuildCallGraph_wf fns : graph.wf (g (BuildCallGraph fns)).
Proof.
  unfold BuildCallGraph.
  apply (fold_left_wf g).
  - intros cg caller. apply (fold_left_wf g). apply addCallEdges_wf.
  - apply (fold_left_wf g); [apply addFunction_wf|]. by apply Forall_nil.
Qed.

(** Along an edge between two different vertices the shortest path is the
    edge itself. *)
Lemma ShortestPath_edge gr a b :
  graph.wf gr → (a, b) ∈ graph.edges gr → a ≠ b →
  graph.ShortestPath gr a b = Some [a; b].
Proof.
  intros Hwf Hedge Hne.
  assert (graph.Path gr a b [a; b]) as Hab
    by (econstructor; [done | constructor]).
  destruct (ShortestPath_complete _ _ _ _ Hwf Hab) as [p Hp].
  pose proof (ShortestPath_minimal _ _ _ _ _ Hp Hab) as Hlen.
  pose proof (ShortestPath_sound _ _ _ _ Hp) as Hpath.
  rewrite Hp. f_equal.
  inversion Hpath as [v | u v w q Hedge' Hq]; subst; [done|].
  inversion Hq as [v' | u' v' w' q' ? Hq']; subst; [done|].
  apply Path_length in Hq'. simpl in Hlen. lia.
Qed.

(** [analyze(A, B, d)], [d ≥ 1], when [A] and [B] each name one function and
    [A]'s function calls [B]'s: a forward result, of depth 1, whose chain
    holds what [extractFunctionName] makes of the two IDs. *)
Lemma direct_call_result cg A B d idA idB :
  graph.wf (g cg) →
  lookupIDs cg A = [idA] → lookupIDs cg B = [idB] → idA ≠ idB →
  (idA, idB) ∈ graph.edges (g cg) → 1 ≤ d →
  AnalyzeReachability cg A B d
  = Some (mkReachabilityAnalysis true "Source function can reach target function"
            [[extractFunctionName idA; extractFunctionName idB]] []
            ("Direct call: " +:+ A +:+ " calls " +:+ B) 1 1).
Proof.
  intros Hwf HA HB Hne Hedge Hd.
  rewrite AnalyzeReachability_cases, HA, HB. simpl.
  unfold firstRelationship. simpl. unfold pairResult at 1.
  rewrite decide_False by done.
  unfold findPaths at 1. simpl ra_graph. simpl maxDepth.
  rewrite (ShortestPath_edge _ _ _ Hwf Hedge Hne).
  assert ((len [idA; idB] - 1 >? (if d >? 5 then 5 else d)) = false) as ->.
  { rewrite !Z.gtb_ltb. destruct (Z.ltb_spec 5 d); apply Z.ltb_ge;
      unfold len; simpl; lia. }
  done.
Qed.

(** With IDs of the documented form whose file names hold no [":"], the
    chain is [[A; B]]. *)
Lemma direct_call_chain cg A B d fileA lineA fileB lineB :
  let idA := parser.functionID fileA lineA A in
  let idB := parser.functionID fileB lineB B in
  colonFree fileA = true → colonFree A = true →
  colonFree fileB = true → colonFree B = true →
  graph.wf (g cg) →
  lookupIDs cg A = [idA] → lookupIDs cg B = [idB] → A ≠ B →
  (idA, idB) ∈ graph.edges (g cg) → 1 ≤ d →
  AnalyzeReachability cg A B d
  = Some (mkReachabilityAnalysis true "Source function can reach target function"
            [[A; B]] [] ("Direct call: " +:+ A +:+ " calls " +:+ B) 1 1).
Proof.
  intros idA idB HfA HnA HfB HnB Hwf HA HB Hne Hedge Hd.
  assert (idA ≠ idB) as Hid.
  { intros Heq. apply Hne.
    rewrite <-(extractFunctionName_functionID fileA lineA A) by done.
    rewrite <-(extractFunctionName_functionID fileB lineB B) by done.
    by f_equal. }
  rewrite (direct_call_result _ _ _ _ _ _ Hwf HA HB Hid Hedge Hd).
  unfold idA, idB. by rewrite !extractFunctionName_functionID.
Qed.

(** ** The enrichment pipeline *)

(** At least one worker is started, so every item is taken. *)
Lemma numWorkers_positive concurrency : 1 ≤ numWorkers concurrency.
Proof.
  unfold numWorkers.
  destruct (Z.leb_spec concurrency 0); [|lia].
  rewrite Z.gtb_ltb. destruct (Z.ltb_spec 16 (Z.pos NumCPU)); lia.
Qed.

Lemma addIntermediate_result finding names :
  FindingCodeQLResult (fold_left addIntermediate names finding)
  = FindingCodeQLResult finding.
Proof.
  revert finding. induction names as [|n names IH]; intros finding; simpl; [done|].
  by rewrite IH.
Qed.

(** What a worker does with one item: it never panics, never reports an
    error, counts the item once in [total] and once in [valid] or
    [invalid] when validation runs, and sends a finding for the item's own
    result exactly when the item is accepted. *)
Lemma processItem_spec callGraph validateCalls callDepth item :
  ∃ finding,
    processItem callGraph validateCalls callDepth item
    = Some (if validating callGraph validateCalls
            then [AddTotal;
                  if accepted callGraph validateCalls callDepth (item_result item)
                  then AddValid else AddInvalid]
            else [],
            mkWorkResult (index item)
              (if accepted callGraph validateCalls callDepth (item_result item)
               then Some finding else None)
              None) ∧
    FindingCodeQLResult finding = item_result item.
Proof.
  unfold processItem, accepted, validating.
  set (r := item_result item).
  set (finding := match enrichWithSourceCode r with
                  | Ok finding => finding
                  | Err _ => mkFinding r emptySourceCode None
                  end).
  assert (FindingCodeQLResult finding = r) as Hr.
  { unfold finding, enrichWithSourceCode.
    repeat (destruct (FindFunctionByID _ _); simpl; try done). }
  destruct validateCalls, callGraph as [cg|]; simpl; try by exists finding.
  destruct (AnalyzeReachability_total cg (FreeFunctionName r) (UseFunctionName r)
              (if callDepth <? 0 then 10 else callDepth)) as [v Hv].
  unfold ValidateCallRelationship. rewrite Hv. simpl.
  destruct (IsValid v); simpl; [|by exists finding].
  destruct ((0 <=? callDepth) && (MaxDepth v >? callDepth)); simpl;
    [by exists finding|].
  eexists. split; [done|]. by rewrite addIntermediate_result.
Qed.

(** Reading a list back position by position. *)
Lemma omap_lookup_seq {A B} (f : A → option B) (l : list A) :
  omap (λ i, l !! i ≫= f) (seq 0 (length l)) = omap f l.
Proof.
  induction l as [|x l IH] using rev_ind; [done|].
  rewrite length_app. simpl. rewrite Nat.add_1_r, seq_S, !omap_app. simpl.
  f_equal.
  - rewrite <-IH. apply list_omap_ext, Forall2_same_length_lookup_2; [done|].
    intros i a b Ha Hb. rewrite Ha in Hb. injection Hb as <-.
    apply lookup_seq in Ha as [-> Hlt]. simpl.
    by rewrite lookup_app_l by done.
  - rewrite list_lookup_middle by done. simpl. by destruct (f x).
Qed.

Lemma omap_lookup_id {A} (l : list A) :
  omap (λ i, l !! i) (seq 0 (length l)) = l.
Proof.
  rewrite (list_omap_ext _ (λ j, l !! j ≫= Some) _ (seq 0 (length l))).
  - rewrite omap_lookup_seq. induction l; simpl; [done | by f_equal].
  - apply Forall2_same_length_lookup_2; [done|].
    intros j a b Ha Hb. rewrite Ha in Hb. injection Hb as <-.
    by destruct (l !! a).
Qed.

(** The collecting loop, started from any map. *)
Lemma collect_fold_lookup arrived (m : gmap nat Finding) i f :
  NoDup (wr_index <$> arrived) →
  fold_left (λ findingsMap r,
               match wr_finding r with
               | Some finding => <[wr_index r := finding]> findingsMap
               | None => findingsMap
               end) arrived m !! i = Some f ↔
  (∃ r, r ∈ arrived ∧ wr_index r = i ∧ wr_finding r = Some f) ∨
  ((∀ r, r ∈ arrived → wr_index r = i → wr_finding r = None) ∧ m !! i = Some f).
Proof.
  revert m. induction arrived as [|r arrived IH]; intros m Hnd; simpl.
  - split; [intros H; right; split; [|done] | intros [(r & Hr & _)|[_ H]]; [|done]].
    + intros r Hr. by apply elem_of_nil in Hr.
    + by apply elem_of_nil in Hr.
  - apply NoDup_cons in Hnd as [Hr Hnd]. rewrite (IH _ Hnd). clear IH.
    assert (∀ r', r' ∈ arrived → wr_index r' ≠ wr_index r) as Hother.
    { intros r' Hin Heq. apply Hr. rewrite <-Heq. apply list_elem_of_fmap. eauto. }
    split.
    + intros [(r' & Hin & Hi & Hf) | [Hnone Hm]].
      * left. exists r'. split; [by right | done].
      * destruct (wr_finding r) as [f'|] eqn:Ef.
        -- destruct (decide (wr_index r = i)) as [Heq|Hne].
           ++ rewrite Heq, lookup_insert_eq in Hm. injection Hm as ->.
              left. exists r. split; [left | done].
           ++ rewrite lookup_insert_ne in Hm by done. right. split; [|done].
              intros r' [->|Hin]%elem_of_cons Hi; [done | by apply Hnone].
        -- right. split; [|done].
           intros r' [->|Hin]%elem_of_cons Hi; [done | by apply Hnone].
    + intros [(r' & [->|Hin]%elem_of_cons & Hi & Hf) | [Hnone Hm]].
      * right. split.
        -- intros r' Hin Hi'. subst i. by destruct (Hother r' Hin).
        -- rewrite Hf. subst i. apply lookup_insert_eq.
      * left. eauto.
      * right. split; [intros r' Hin; apply Hnone; by right|].
        destruct (wr_finding r) as [f'|] eqn:Ef; [|done].
        destruct (decide (wr_index r = i)) as [Heq|Hne].
        -- rewrite (Hnone r) in Ef; [done | left | done].
        -- by rewrite lookup_insert_ne.
Qed.

(** When the results of all items arrive, in whatever order, and each
    carries its own position, position [i] of [findingsMap] holds the
    finding of item [i], if it sent one. *)
Lemma collect_lookup (outs : list workResult) completion i :
  (∀ j r, outs !! j = Some r → wr_index r = j) →
  completion ≡ₚ seq 0 (length outs) →
  collect (omap (λ j, outs !! j) completion) !! i = outs !! i ≫= wr_finding.
Proof.
  intros Hidx Hperm.
  assert (omap (λ j, outs !! j) completion ≡ₚ outs) as Harr.
  { by rewrite Hperm, omap_lookup_id. }
  assert (NoDup (wr_index <$> outs)) as Hnd.
  { apply NoDup_alt. intros j1 j2 x H1 H2.
    apply list_lookup_fmap_Some in H1 as (r1 & -> & H1).
    apply list_lookup_fmap_Some in H2 as (r2 & Heq & H2).
    apply Hidx in H1, H2. congruence. }
  apply option_eq. intros f. unfold collect.
  rewrite collect_fold_lookup by (by rewrite Harr).
  rewrite lookup_empty. split.
  - intros [(r & Hr & Hi & Hf) | [_ ?]]; [|done].
    rewrite Harr in Hr. apply list_elem_of_lookup in Hr as [j Hj].
    pose proof (Hidx _ _ Hj) as Hji. rewrite Hi in Hji. subst j.
    by rewrite Hj.
  - intros H. destruct (outs !! i) as [r|] eqn:E; [|done]. simpl in H.
    left. exists r. split; [|split; [by eapply Hidx | done]].
    rewrite Harr. by eapply list_elem_of_lookup_2.
Qed.

(** Putting the findings back in input order. *)
Lemma buildOrdered_collect (outs : list workResult) completion :
  (∀ j r, outs !! j = Some r → wr_index r = j) →
  completion ≡ₚ seq 0 (length outs) →
  buildOrdered (length outs) (collect (omap (λ j, outs !! j) completion))
  = omap wr_finding outs.
Proof.
  intros Hidx Hperm. unfold buildOrdered.
  rewrite <-(omap_lookup_seq wr_finding outs). apply list_omap_ext.
  apply Forall2_same_length_lookup_2; [done|].
  intros j a b Ha Hb. rewrite Ha in Hb. injection Hb as <-.
  by apply collect_lookup.
Qed.

Lemma findingOf_spec callGraph validateCalls callDepth item :
  ∃ finding,
    findingOf callGraph validateCalls callDepth item
    = (if accepted callGraph validateCalls callDepth (item_result item)
       then Some finding else None) ∧
    FindingCodeQLResult finding = item_result item.
Proof.
  destruct (processItem_spec callGraph validateCalls callDepth item)
    as (finding & Hp & Hr).
  exists finding. split; [|done]. unfold findingOf. by rewrite Hp.
Qed.

(** The findings sent, read in input order, are the accepted results. *)
Lemma accepted_findings callGraph validateCalls callDepth results :
  FindingCodeQLResult <$>
    omap (findingOf callGraph validateCalls callDepth) (workItems results)
  = filter (λ r, accepted callGraph validateCalls callDepth r = true) results.
Proof.
  unfold workItems.
  assert (∀ k, FindingCodeQLResult <$>
                 omap (findingOf callGraph validateCalls callDepth)
                      (imap (λ i, mkWorkItem (k + i)) results)
               = filter (λ r, accepted callGraph validateCalls callDepth r = true)
                        results) as H; [|exact (H O)].
  induction results as [|r results IH]; intros k; [done|].
  rewrite imap_cons.
  rewrite (imap_ext _ (λ i, mkWorkItem (S k + i)))
    by (intros; simpl; f_equal; lia).
  pose proof (IH (S k)) as IHk.
  remember (omap (findingOf callGraph validateCalls callDepth)
                 (imap (λ i, mkWorkItem (S k + i)) results)) as tail.
  simpl omap.
  destruct (findingOf_spec callGraph validateCalls callDepth (mkWorkItem (k + 0) r))
    as (finding & -> & Hr). simpl in Hr. simpl item_result.
  destruct (accepted callGraph validateCalls callDepth r) eqn:E.
  - rewrite filter_cons_True by done. rewrite fmap_cons, Hr. subst tail.
    f_equal. exact IHk.
  - rewrite filter_cons_False by (by rewrite E). subst tail. exact IHk.
Qed.

(** Every worker completes every item it takes: the outcomes of all items,
    by position. *)
Lemma workers_outcomes callGraph validateCalls callDepth results :
  ∃ outcomes,
    mapM (processItem callGraph validateCalls callDepth) (workItems results)
    = Some outcomes ∧
    length outcomes = length results ∧
    (∀ j r, outcomes.*2 !! j = Some r → wr_index r = j ∧ wr_err r = None) ∧
    omap wr_finding (outcomes.*2)
    = omap (findingOf callGraph validateCalls callDepth) (workItems results) ∧
    outcomes.*1 = opsOf callGraph validateCalls callDepth <$> results.
Proof.
  destruct (mapM (processItem callGraph validateCalls callDepth) (workItems results))
    as [outcomes|] eqn:E.
  2: { apply mapM_None_1, Exists_exists in E as (item & _ & E).
       destruct (processItem_spec callGraph validateCalls callDepth item)
         as (? & Hp & _). by rewrite Hp in E. }
  exists outcomes. split; [done|].
  apply mapM_Some in E.
  assert (length outcomes = length results) as Hlen.
  { apply Forall2_length in E. unfold workItems in E. by rewrite length_imap in E. }
  split; [done|]. split; [|split].
  - intros j r Hj. apply list_lookup_fmap_Some in Hj as ([ops r'] & -> & Hj).
    destruct (Forall2_lookup_r _ _ _ _ _ E Hj) as (item & Hitem & Hp).
    unfold workItems in Hitem. apply list_lookup_imap_Some in Hitem as (x & _ & ->).
    destruct (processItem_spec callGraph validateCalls callDepth (mkWorkItem j x))
      as (? & Hp' & _). rewrite Hp' in Hp. by injection Hp as <- <-.
  - clear Hlen. induction E as [|item o items os Hp _ IH]; simpl; [done|].
    unfold findingOf at 1. rewrite Hp. simpl.
    destruct (wr_finding o.2); [f_equal|]; exact IH.
  - clear Hlen. unfold workItems in E.
    assert (∀ k (outs : list (list statOp * workResult)),
              Forall2 (λ x y, processItem callGraph validateCalls callDepth x = Some y)
                      (imap (λ i, mkWorkItem (k + i)) results) outs →
              outs.*1 = opsOf callGraph validateCalls callDepth <$> results) as H;
      [|exact (H O _ E)].
    clear E outcomes. induction results as [|r results IH]; intros k outs HF.
    + by inversion HF.
    + rewrite imap_cons in HF. inversion HF as [|item o items os Hp HF']; subst.
      destruct (processItem_spec callGraph validateCalls callDepth (mkWorkItem (k + 0) r))
        as (? & Hp' & _). rewrite Hp' in Hp. injection Hp as <-.
      simpl. f_equal.
      apply (IH (S k)).
      by rewrite (imap_ext _ (λ i, mkWorkItem (k + S i)))
        by (intros; simpl; f_equal; lia).
Qed.

(** C2. Whatever the number of workers and whatever the order in which
    the items complete, [EnrichResults] returns, in input order, the
    findings of exactly the results that pass validation and depth
    filtering; the others leave no entry.  It does not panic and its error
    is nil. *)
Theorem enriched_results_keep_input_order results callGraph validateCalls
    callDepth concurrency sched :
  completion sched ≡ₚ seq 0 (length results) →
  ∃ enrichedResults stats,
    EnrichResults results callGraph validateCalls callDepth concurrency sched
    = Some (enrichedResults, None, stats) ∧
    enrichedResults
    = omap (findingOf callGraph validateCalls callDepth) (workItems results) ∧
    FindingCodeQLResult <$> enrichedResults
    = filter (λ r, accepted callGraph validateCalls callDepth r = true) results.
Proof.
  intros Hperm. unfold EnrichResults.
  destruct (workers_outcomes callGraph validateCalls callDepth results)
    as (outcomes & -> & Hlen & Hidx & Hfind & _).
  simpl. eexists _, _. split; [done|].
  assert (buildOrdered (length results)
            (collect (omap (λ i, snd <$> outcomes !! i) (completion sched)))
          = omap (findingOf callGraph validateCalls callDepth) (workItems results))
    as ->; [|split; [done | apply accepted_findings]].
  rewrite <-Hfind, <-Hlen, <-(length_fmap snd outcomes).
  rewrite <-buildOrdered_collect with (completion := completion sched).
  - do 2 f_equal. apply list_omap_ext, Forall2_same_length_lookup_2; [done|].
    intros j a b Ha Hb. rewrite Ha in Hb. injection Hb as <-.
    by rewrite list_lookup_fmap.
  - intros j r Hj. by apply Hidx.
  - by rewrite length_fmap, Hlen.
Qed.

(** ** The statistics counters *)

Lemma wrap32_add a b : wrap32 (wrap32 a + b) = wrap32 (a + b).
Proof.
  unfold wrap32. f_equal.
  replace ((a + 2 ^ 31) mod 2 ^ 32 - 2 ^ 31 + b + 2 ^ 31)
    with ((a + 2 ^ 31) mod 2 ^ 32 + b) by lia.
  rewrite Zplus_mod_idemp_l. f_equal. lia.
Qed.

Lemma wrap32_add_r a b : wrap32 (a + wrap32 b) = wrap32 (a + b).
Proof. by rewrite Z.add_comm, wrap32_add, Z.add_comm. Qed.

Lemma wrap32_small a : -2^31 ≤ a < 2^31 → wrap32 a = a.
Proof. intros H. unfold wrap32. rewrite Z.mod_small; lia. Qed.

Lemma countOp_cons op o trace :
  countOp op (o :: trace) = (if decide (o = op) then 1 else 0) + countOp op trace.
Proof.
  unfold countOp, len. case_decide.
  - rewrite filter_cons_True by done. simpl length. lia.
  - rewrite filter_cons_False by done. lia.
Qed.

Lemma countOp_app op t1 t2 : countOp op (t1 ++ t2) = countOp op t1 + countOp op t2.
Proof. unfold countOp, len. rewrite filter_app, length_app. lia. Qed.

Lemma countOp_Permutation op t1 t2 : t1 ≡ₚ t2 → countOp op t1 = countOp op t2.
Proof. intros H. unfold countOp, len. by rewrite H. Qed.

(** The counters after a trace of atomic updates: each holds, modulo
    2^32, the number of its increments, whatever their order. *)
Lemma stats_after trace a b c :
  fold_left applyOp trace (mkStats (wrap32 a) (wrap32 b) (wrap32 c))
  = mkStats (wrap32 (a + countOp AddTotal trace))
            (wrap32 (b + countOp AddValid trace))
            (wrap32 (c + countOp AddInvalid trace)).
Proof.
  revert a b c. induction trace as [|op trace IH]; intros a b c.
  - simpl. unfold countOp, len. simpl. by rewrite !Z.add_0_r.
  - simpl fold_left. rewrite !countOp_cons.
    destruct op; unfold applyOp; simpl total; simpl valid; simpl invalid;
      rewrite wrap32_add, IH; repeat case_decide; try done;
      f_equal; f_equal; lia.
Qed.

(** What all workers together add to the counters. *)
Lemma countOp_run callGraph validateCalls callDepth results :
  let n := if validating callGraph validateCalls then len results else 0 in
  let ok := if validating callGraph validateCalls
            then len (filter (λ r, accepted callGraph validateCalls callDepth r = true)
                             results)
            else 0 in
  let trace := concat (opsOf callGraph validateCalls callDepth <$> results) in
  countOp AddTotal trace = n ∧ countOp AddValid trace = ok ∧
  countOp AddInvalid trace = n - ok ∧ 0 ≤ ok ≤ n ∧ n ≤ len results.
Proof.
  cbv zeta. unfold opsOf. destruct (validating callGraph validateCalls).
  - induction results as [|r results IH]; [by compute|].
    destruct IH as (HT & HV & HI & Hle & _).
    rewrite fmap_cons. cbn [concat]. rewrite !countOp_app, HT, HV, HI.
    assert (len (r :: results) = 1 + len results) as -> by (unfold len; simpl; lia).
    destruct (accepted callGraph validateCalls callDepth r) eqn:E.
    + rewrite filter_cons_True by done.
      assert (∀ x l, len (x :: l) = 1 + len l :> Z) as ->
        by (intros; unfold len; simpl; lia).
      change (countOp AddTotal [AddTotal; AddValid]) with 1.
      change (countOp AddValid [AddTotal; AddValid]) with 1.
      change (countOp AddInvalid [AddTotal; AddValid]) with 0. lia.
    + rewrite filter_cons_False by (by rewrite E).
      change (countOp AddTotal [AddTotal; AddInvalid]) with 1.
      change (countOp AddValid [AddTotal; AddInvalid]) with 0.
      change (countOp AddInvalid [AddTotal; AddInvalid]) with 1. lia.
  - assert (concat ((λ _ : CodeQLResult, @nil statOp) <$> results) = []) as ->.
    { induction results as [|r results IH]; [done|].
      rewrite fmap_cons. cbn [concat]. by rewrite IH. }
    change (countOp _ []) with 0. unfold len. lia.
Qed.

(** C9. After a complete run with validation enabled, whatever the order
    in which the workers' atomic updates took effect, the counters read for
    the log satisfy [total == valid + invalid] (in [int32] arithmetic, and
    exactly so for fewer than 2^31 findings): [total] is the number of
    findings submitted to validation, [valid] the number of those accepted,
    [invalid] the number of the others. *)
Theorem statistics_add_up results callGraph callDepth concurrency sched :
  complete_run callGraph true callDepth results sched →
  ∃ enrichedResults stats,
    EnrichResults results callGraph true callDepth concurrency sched
    = Some (enrichedResults, None, Some stats) ∧
    total stats = wrap32 (valid stats + invalid stats) ∧
    (len results < 2^31 →
     total stats = valid stats + invalid stats ∧
     total stats = (if validating callGraph true then len results else 0) ∧
     valid stats = (if validating callGraph true
                    then len (filter (λ r, accepted callGraph true callDepth r = true)
                                     results)
                    else 0)).
Proof.
  intros [Hcomp Hatom]. unfold EnrichResults.
  destruct (workers_outcomes callGraph true callDepth results)
    as (outcomes & -> & _). simpl. eexists _, _. split; [done|].
  change (mkStats 0 0 0) with (mkStats (wrap32 0) (wrap32 0) (wrap32 0)).
  rewrite stats_after. simpl.
  rewrite !(countOp_Permutation _ _ _ Hatom).
  destruct (countOp_run callGraph true callDepth results)
    as (-> & -> & -> & Hok & Hn).
  split.
  - rewrite wrap32_add, wrap32_add_r. f_equal. lia.
  - intros Hsmall. rewrite !wrap32_small by lia. repeat split; lia.
Qed.

(** ** The worker pool *)

Section Pool.
Context {TIn TOut : Type}.
Variable zero : TOut.
Variable processor : TIn → TOut * option error.
Variable items : list TIn.

Let arrivedOf (completion : list nat) : list (WorkResult TOut) :=
  omap (λ i, poolWorker processor i <$> items !! i) completion.

Lemma poolWorker_Index i item : Index (poolWorker processor i item) = i.
Proof. unfold poolWorker. by destruct (processor item). Qed.

Lemma poolWorker_Data i item : Data (poolWorker processor i item) = (processor item).1.
Proof. unfold poolWorker. by destruct (processor item). Qed.

Lemma poolWorker_Error i item : Error (poolWorker processor i item) = (processor item).2.
Proof. unfold poolWorker. by destruct (processor item). Qed.

Lemma arrivedOf_cons i completion :
  arrivedOf (i :: completion)
  = match items !! i with
    | Some item => poolWorker processor i item :: arrivedOf completion
    | None => arrivedOf completion
    end.
Proof. unfold arrivedOf. simpl. by destruct (items !! i). Qed.

Lemma poolCollect_step results firstErr i item :
  items !! i = Some item →
  poolCollect (length items) (results, firstErr) (poolWorker processor i item)
  = (<[i := (processor item).1]> results,
     match (processor item).2, firstErr with
     | Some err, None => Some err
     | _, _ => firstErr
     end).
Proof.
  intros Hi. unfold poolCollect.
  rewrite poolWorker_Index, poolWorker_Data, poolWorker_Error.
  by rewrite decide_True by (by eapply lookup_lt_Some).
Qed.

(** The error kept by the collecting loop: the one already held, or else
    the first one to arrive. *)
Lemma pool_error completion results firstErr :
  (fold_left (poolCollect (length items)) (arrivedOf completion) (results, firstErr)).2
  = match firstErr with
    | Some err => Some err
    | None => firstError processor items completion
    end.
Proof.
  revert results firstErr.
  induction completion as [|i completion IH]; intros results firstErr.
  { by destruct firstErr. }
  rewrite arrivedOf_cons. unfold firstError. cbn [firstSome].
  fold (firstError processor items completion).
  destruct (items !! i) as [item|] eqn:Ei; cbn [mbind option_bind]; [|apply IH].
  cbn [fold_left]. rewrite (poolCollect_step _ _ _ _ Ei), IH.
  by destruct firstErr, (processor item).2.
Qed.

Lemma pool_results_length completion results firstErr :
  length (fold_left (poolCollect (length items)) (arrivedOf completion)
                    (results, firstErr)).1
  = length results.
Proof.
  revert results firstErr.
  induction completion as [|i completion IH]; intros results firstErr; [done|].
  rewrite arrivedOf_cons.
  destruct (items !! i) as [item|] eqn:Ei; [|apply IH].
  cbn [fold_left]. rewrite (poolCollect_step _ _ _ _ Ei), IH.
  apply length_insert.
Qed.

(** A slot no arriving result is addressed to keeps its value. *)
Lemma pool_results_other completion results firstErr j :
  j ∉ completion →
  (fold_left (poolCollect (length items)) (arrivedOf completion)
             (results, firstErr)).1 !! j
  = results !! j.
Proof.
  revert results firstErr.
  induction completion as [|i completion IH]; intros results firstErr Hj; [done|].
  apply not_elem_of_cons in Hj as [Hne Hj].
  rewrite arrivedOf_cons.
  destruct (items !! i) as [item|] eqn:Ei; [|by apply IH].
  cbn [fold_left]. rewrite (poolCollect_step _ _ _ _ Ei), IH by done.
  by apply list_lookup_insert_ne.
Qed.

(** The slot of an item whose result arrived holds that result. *)
Lemma pool_results_slot completion results firstErr j :
  length results = length items → j ∈ completion →
  (fold_left (poolCollect (length items)) (arrivedOf completion)
             (results, firstErr)).1 !! j
  = (λ item, (processor item).1) <$> items !! j.
Proof.
  revert results firstErr.
  induction completion as [|i completion IH]; intros results firstErr Hlen Hj.
  { by apply elem_of_nil in Hj. }
  rewrite arrivedOf_cons.
  destruct (decide (j ∈ completion)) as [Hin|Hout].
  - destruct (items !! i) as [item|] eqn:Ei; [|by apply IH].
    cbn [fold_left]. rewrite (poolCollect_step _ _ _ _ Ei).
    apply IH; [by rewrite length_insert | done].
  - apply elem_of_cons in Hj as [->|?]; [|done].
    destruct (items !! i) as [item|] eqn:Ei.
    + cbn [fold_left]. rewrite (poolCollect_step _ _ _ _ Ei).
      rewrite (pool_results_other completion _ _ i Hout). simpl.
      apply list_lookup_insert_eq. rewrite Hlen. by eapply lookup_lt_Some.
    + rewrite (pool_results_other completion _ _ i Hout). simpl.
      apply lookup_ge_None. rewrite Hlen. by apply lookup_ge_None.
Qed.

(** When the results of all items arrive, [ProcessItems] returns every
    item's result at its input position and the first error to arrive. *)
Lemma ProcessItems_complete completion :
  completion ≡ₚ seq 0 (length items) →
  ProcessItems zero processor items completion
  = ((λ item, (processor item).1) <$> items,
     firstError processor items completion).
Proof.
  intros Hperm. unfold ProcessItems. case_decide as Hn.
  - destruct items; [|done]. simpl in Hperm.
    apply Permutation_nil_r in Hperm. by subst.
  - fold (arrivedOf completion).
    set (init := replicate (length items) zero).
    rewrite (surjective_pairing (fold_left _ _ _)). f_equal.
    + apply list_eq. intros j.
      destruct (decide (j < length items)%nat) as [Hlt|Hge].
      * rewrite list_lookup_fmap.
        apply pool_results_slot; [apply length_replicate|].
        rewrite Hperm. apply elem_of_seq. lia.
      * rewrite list_lookup_fmap.
        rewrite (proj2 (lookup_ge_None items j)) by lia. simpl.
        apply lookup_ge_None. rewrite pool_results_length.
        unfold init. rewrite length_replicate. lia.
    + by rewrite pool_error.
Qed.

(** When only some results arrive (the context was cancelled), the slice
    returned still has one slot per item: the slots of the items that
    completed hold their results, the others the zero value, and the error
    is still the first to arrive. *)
Lemma ProcessItems_partial completion :
  items ≠ [] →
  let out := ProcessItems zero processor items completion in
  length out.1 = length items ∧
  out.2 = firstError processor items completion ∧
  (∀ j, j ∈ completion →
        out.1 !! j = (λ item, (processor item).1) <$> items !! j) ∧
  (∀ j, j ∉ completion → (j < length items)%nat → out.1 !! j = Some zero).
Proof.
  intros Hne. unfold ProcessItems.
  rewrite decide_False by (by destruct items).
  fold (arrivedOf completion). cbv zeta.
  split; [by rewrite pool_results_length, length_replicate|].
  split; [by rewrite pool_error|].
  split.
  - intros j Hj. apply pool_results_slot; [apply length_replicate | done].
  - intros j Hj Hlt. rewrite pool_results_other by done.
    by apply lookup_replicate_2.
Qed.

End Pool.

(** [EnrichResults] always returns, and its error is always nil. *)
Lemma EnrichResults_no_error results callGraph validateCalls callDepth
    concurrency sched :
  ∃ enrichedResults stats,
    EnrichResults results callGraph validateCalls callDepth concurrency sched
    = Some (enrichedResults, None, stats).
Proof.
  unfold EnrichResults.
  destruct (workers_outcomes callGraph validateCalls callDepth results)
    as (outcomes & -> & _). simpl. by eexists _, _.
Qed.

(** A result whose source code cannot be found is kept, with empty source
    code (shown here with validation off, where nothing else is added). *)
Lemma enrichment_failure_recovered callGraph callDepth i r err :
  enrichWithSourceCode r = Err err →
  findingOf callGraph false callDepth (mkWorkItem i r)
  = Some (mkFinding r emptySourceCode None).
Proof. intros H. unfold findingOf, processItem. simpl. by rewrite H. Qed.

(** C4, as the code has it.  The first error is remembered and returned by
    the generic worker pool [ProcessItems] (package [llm]): when the results
    of all items arrive, it returns every item's result at the item's input
    position, together with the first error to arrive on the result channel
    (nil when no item failed).  The enrichment pipeline [EnrichResults]
    never returns an error: its workers send none, and a result whose
    source code cannot be found is kept with empty source code. *)
Theorem first_error_returned_by_pool {TIn TOut} (zero : TOut)
    (processor : TIn → TOut * option error) (items : list TIn)
    (completion : list nat)
    results callGraph validateCalls callDepth concurrency sched :
  completion ≡ₚ seq 0 (length items) →
  ProcessItems zero processor items completion
  = ((λ item, (processor item).1) <$> items,
     firstError processor items completion) ∧
  (∃ enrichedResults stats,
     EnrichResults results callGraph validateCalls callDepth concurrency sched
     = Some (enrichedResults, None, stats)) ∧
  (∀ i r err,
     enrichWithSourceCode r = Err err →
     findingOf callGraph false callDepth (mkWorkItem i r)
     = Some (mkFinding r emptySourceCode None)).
Proof.
  intros Hperm. split; [by apply ProcessItems_complete|].
  split; [apply EnrichResults_no_error|].
  intros i r err. apply enrichment_failure_recovered.
Qed.

(** ** Function IDs whose file path holds a [":"] *)

(** C7 on a source tree under [C:/src]: for the registered function
    [release], [analyze(release, release, 3)] is a valid same-function
    result, but its single chain holds ["3"], the line-number field of the
    ID, not the name [release]: [extractFunctionName] splits
    ["C:/src/a.c:3:release"] at every [":"] and takes the third piece. *)
Theorem same_function_chain_on_drive_path :
  lookupIDs driveGraph "release" = ["C:/src/a.c:3:release"] ∧
  extractFunctionName "C:/src/a.c:3:release" = "3" ∧
  AnalyzeReachability driveGraph "release" "release" 3
  = Some (mkReachabilityAnalysis true "Functions are the same" [["3"]] []
            "Both operations occur in the same function: release" 0 0).
Proof.
  split; [by vm_compute|]. split; [by vm_compute|].
  by rewrite (same_name_result driveGraph "release" 3 "C:/src/a.c:3:release" []).
Qed.

(** C8 on the same tree: [release] calls [touch] directly, and
    [analyze(release, touch, 3)] is a forward result of depth 1, but its
    chain is [["3"; "9"]], the line numbers of the two functions, not
    [[release; touch]]. *)
Theorem direct_call_chain_on_drive_path :
  ("C:/src/a.c:3:release", "C:/src/a.c:9:touch") ∈ graph.edges (g driveGraph) ∧
  AnalyzeReachability driveGraph "release" "touch" 3
  = Some (mkReachabilityAnalysis true "Source function can reach target function"
            [["3"; "9"]] [] "Direct call: release calls touch" 1 1).
Proof.
  split; [vm_compute; left|].
  by rewrite (direct_call_result driveGraph "release" "touch" 3
                "C:/src/a.c:3:release" "C:/src/a.c:9:touch");
    [| apply BuildCallGraph_wf | | | | vm_compute; left |].
Qed.

(** The analyzer never raises: every query, resolvable or not, yields a
    structured result, and the same query always yields the same one. *)
Theorem analysis_always_returns cg sourceFuncName targetFuncName d :
  ∃ r, AnalyzeReachability cg sourceFuncName targetFuncName d = Some r ∧
       (IsValid r = false → CallChains r = [] ∧ MinDepth r = 0 ∧ MaxDepth r = 0).
Proof.
  rewrite AnalyzeReachability_cases.
  repeat case_bool_decide; try by eexists.
  destruct (firstRelationship _ _ _) as [[kind chain]|]; by eexists.
Qed.

(** ** Ranging over a map *)

(** Whatever order the run time picks, [range] visits every key once. *)
Lemma elem_of_rangeKeys m x : x ∈ rangeKeys m ↔ x ∈ m.
Proof.
  unfold rangeKeys. rewrite elem_of_app. split.
  - intros [H|H].
    + by apply elem_of_remove_dups, list_elem_of_filter in H as [H _].
    + apply list_elem_of_filter in H as [_ H]. by apply elem_of_elements in H.
  - intros Hx. destruct (decide (x ∈ keyOrder m)); [left|right].
    + by apply elem_of_remove_dups, list_elem_of_filter.
    + apply list_elem_of_filter. split; [|by apply elem_of_elements].
      rewrite elem_of_remove_dups, list_elem_of_filter. by intros [_ ?].
Qed.

Lemma NoDup_rangeKeys m : NoDup (rangeKeys m).
Proof.
  unfold rangeKeys. apply NoDup_app. split; [apply NoDup_remove_dups|].
  split; [|apply NoDup_filter, NoDup_elements].
  intros x Hx Hx'. apply list_elem_of_filter in Hx' as [Hx' _]. done.
Qed.

(** ** The legacy queries on function IDs *)

Lemma HasPath_refl cg a d : HasPath cg a a d = true.
Proof. unfold HasPath. by rewrite decide_True. Qed.

Lemma HasPath_Some cg a b d :
  a ≠ b →
  HasPath cg a b d = true ↔
  ∃ p, graph.ShortestPath (g cg) a b = Some p ∧ len p - 1 ≤ d.
Proof.
  intros Hne. unfold HasPath. rewrite decide_False by done.
  destruct (graph.ShortestPath _ _ _) as [p|].
  - rewrite Z.leb_le. split; [by exists p|]. by intros (? & [= <-] & ?).
  - split; [done|]. by intros (? & ? & ?).
Qed.

Lemma HasPath_sound cg a b d :
  HasPath cg a b d = true →
  ∃ p, graph.Path (g cg) a b p ∧ (a = b ∨ len p - 1 ≤ d).
Proof.
  destruct (decide (a = b)) as [->|Hne].
  - intros _. exists [b]. split; [constructor|by left].
  - rewrite HasPath_Some by done. intros (p & Hp & Hd).
    exists p. split; [by apply ShortestPath_sound|by right].
Qed.

Lemma HasPath_complete cg a b d p :
  graph.wf (g cg) → graph.Path (g cg) a b p → len p - 1 ≤ d →
  HasPath cg a b d = true.
Proof.
  intros Hwf Hp Hd. destruct (decide (a = b)) as [->|Hne];
    [apply HasPath_refl|].
  apply HasPath_Some; [done|].
  destruct (ShortestPath_complete _ _ _ _ Hwf Hp) as [q Hq].
  exists q. split; [done|].
  pose proof (ShortestPath_minimal _ _ _ _ _ Hq Hp). unfold len in *. lia.
Qed.

Lemma HasPath_mono cg a b d d' :
  d ≤ d' → HasPath cg a b d = true → HasPath cg a b d' = true.
Proof.
  intros Hle. destruct (decide (a = b)) as [->|Hne];
    [by rewrite !HasPath_refl|].
  rewrite !HasPath_Some by done. intros (p & Hp & Hd). exists p.
  split; [done|lia].
Qed.

(** [HasPath] decides reachability within [maxDepth] calls: it holds
    exactly when some path of at most [maxDepth] edges leads from [from] to
    [to], with no cap on the depth; a function always has a path to
    itself, whatever the depth. *)
Theorem HasPath_iff_path_within_depth cg from to d :
  graph.wf (g cg) → 0 ≤ d →
  HasPath cg from from (- d - 1) = true ∧
  (HasPath cg from to d = true ↔
   ∃ p, graph.Path (g cg) from to p ∧ len p - 1 ≤ d).
Proof.
  intros Hwf Hd. split; [apply HasPath_refl|]. split.
  - intros H. destruct (HasPath_sound _ _ _ _ H) as (p & Hp & [->|Hlen]).
    + exists [to]. split; [constructor|]. unfold len. simpl. lia.
    + by exists p.
  - intros (p & Hp & Hlen). by eapply HasPath_complete.
Qed.

(** [FindCallChains] measures the shortest path by its vertices, where
    [HasPath] counts its edges: between two different functions it returns
    a chain for [maxDepth] exactly when [HasPath] holds for
    [maxDepth - 1].  The chain it returns is a shortest path of function
    IDs from [from] to [to], never more than one. *)
Theorem FindCallChains_one_short_of_HasPath cg from to d :
  from ≠ to →
  (FindCallChains cg from to d ≠ [] ↔ HasPath cg from to (d - 1) = true) ∧
  (∀ chain, chain ∈ FindCallChains cg from to d →
     FindCallChains cg from to d = [chain] ∧
     graph.ShortestPath (g cg) from to = Some chain ∧
     graph.Path (g cg) from to chain ∧ len chain ≤ d).
Proof.
  intros Hne. rewrite HasPath_Some by done.
  unfold FindCallChains. rewrite decide_False by done.
  destruct (graph.ShortestPath _ _ _) as [p|] eqn:E.
  - destruct (len p >? d) eqn:E'; rewrite Z.gtb_ltb in E';
      [apply Z.ltb_lt in E' | apply Z.ltb_ge in E'].
    + split; [|by intros ? ?%elem_of_nil].
      split; [done|]. intros (? & [= <-] & ?). lia.
    + split.
      * split; [|done]. intros _. exists p. split; [done|lia].
      * intros chain ->%list_elem_of_singleton.
        repeat split; try done. by apply ShortestPath_sound.
  - split; [|by intros ? ?%elem_of_nil].
    split; [done|]. by intros (? & ? & ?).
Qed.

Lemma haveCommonCaller_iff cg f1 f2 d :
  haveCommonCaller cg f1 f2 d = true ↔
  ∃ v, v ∈ graph.vertices (g cg) ∧ v ≠ f1 ∧ v ≠ f2 ∧
       HasPath cg v f1 (Z.min d 3) = true ∧ HasPath cg v f2 (Z.min d 3) = true.
Proof.
  unfold haveCommonCaller. cbv zeta.
  replace (if d >? 3 then 3 else d) with (Z.min d 3)
    by (destruct (d >? 3) eqn:E; rewrite Z.gtb_ltb in E;
        [apply Z.ltb_lt in E | apply Z.ltb_ge in E]; lia).
  rewrite existsb_exists. setoid_rewrite <-list_elem_of_In.
  setoid_rewrite elem_of_rangeKeys. unfold graph.AdjacencyMap.
  setoid_rewrite dom_list_to_map_L. setoid_rewrite elem_of_list_to_set.
  rewrite <-list_fmap_compose.
  assert (∀ v, v ∈ (fst ∘ (λ v, (v, graph.successors (g cg) v)))
                     <$> graph.vertices (g cg)
               ↔ v ∈ graph.vertices (g cg)) as Hdom.
  { intros v. rewrite list_elem_of_fmap. simpl. split.
    - by intros (? & -> & ?).
    - intros ?. by exists v. }
  setoid_rewrite Hdom.
  split.
  - intros (v & Hv & H). case_decide; [done|].
    apply andb_true_iff in H as [H1 H2]. exists v.
    repeat split; try done; intros ->; auto.
  - intros (v & Hv & Hn1 & Hn2 & H1 & H2). exists v. split; [done|].
    rewrite decide_False by (by intros [?|?]). by rewrite H1, H2.
Qed.

(** [AreConnected] does not depend on the order of its two functions, and
    a function is connected to itself at every depth. *)
Theorem AreConnected_symmetric cg func1 func2 d :
  AreConnected cg func1 func2 d = AreConnected cg func2 func1 d ∧
  AreConnected cg func1 func1 d = true.
Proof.
  split; [|by unfold AreConnected; rewrite HasPath_refl].
  assert (haveCommonCaller cg func1 func2 d = haveCommonCaller cg func2 func1 d)
    as Hcc.
  { apply eq_true_iff_eq. rewrite !haveCommonCaller_iff.
    split; intros (v & ? & ? & ? & ? & ?); by exists v. }
  unfold AreConnected. rewrite Hcc.
  by destruct (HasPath cg func1 func2 d), (HasPath cg func2 func1 d).
Qed.

(** The legacy check still looks for a common caller, which the analyzer
    no longer does: two functions called directly by a third one are
    connected at any depth of at least 1. *)
Theorem AreConnected_by_common_caller cg caller func1 func2 d :
  graph.wf (g cg) → 1 ≤ d →
  caller ≠ func1 → caller ≠ func2 →
  (caller, func1) ∈ graph.edges (g cg) →
  (caller, func2) ∈ graph.edges (g cg) →
  AreConnected cg func1 func2 d = true.
Proof.
  intros Hwf Hd Hn1 Hn2 He1 He2. unfold AreConnected.
  destruct (HasPath cg func1 func2 d); [done|].
  destruct (HasPath cg func2 func1 d); [done|].
  apply haveCommonCaller_iff. exists caller.
  pose proof Hwf as Hall. unfold graph.wf in Hall.
  rewrite Forall_forall in Hall. destruct (Hall _ He1) as [Hv _].
  repeat split; try done.
  - apply HasPath_Some; [done|]. exists [caller; func1].
    split; [by apply ShortestPath_edge|]. unfold len. simpl. lia.
  - apply HasPath_Some; [done|]. exists [caller; func2].
    split; [by apply ShortestPath_edge|]. unfold len. simpl. lia.
Qed.

(** ** The analyzer's verdict, read off the pairs of IDs *)

Lemma firstSome_ext {A B} (f f' : A → option B) l :
  (∀ x, x ∈ l → f x = f' x) → firstSome f l = firstSome f' l.
Proof.
  induction l as [|x l IH]; intros H; [done|]. simpl.
  rewrite (H x) by left. rewrite IH; [done|]. intros y Hy. apply H. by right.
Qed.

Lemma firstRelationship_is_Some ra ss ts :
  is_Some (firstRelationship ra ss ts) ↔
  ∃ s t, s ∈ ss ∧ t ∈ ts ∧ is_Some (pairResult ra s t).
Proof.
  split.
  - intros [[kind chain] H].
    destruct (firstRelationship_Some _ _ _ _ _ H) as (s & t & ? & ? & E).
    exists s, t. by rewrite E.
  - intros (s & t & Hs & Ht & H). unfold firstRelationship.
    apply (firstSome_is_Some _ _ s); [done|].
    by apply (firstSome_is_Some _ _ t).
Qed.

Lemma findPaths_nonempty ra s t :
  findPaths ra s t ≠ [] ↔
  ∃ p, graph.ShortestPath (ra_graph ra) s t = Some p ∧
       len p - 1 ≤ Z.min (maxDepth ra) 5.
Proof.
  unfold findPaths. destruct (graph.ShortestPath _ _ _) as [p|].
  - replace (if maxDepth ra >? 5 then 5 else maxDepth ra)
      with (Z.min (maxDepth ra) 5)
      by (destruct (maxDepth ra >? 5) eqn:E; rewrite Z.gtb_ltb in E;
          [apply Z.ltb_lt in E | apply Z.ltb_ge in E]; lia).
    destruct (len p - 1 >? _) eqn:E; rewrite Z.gtb_ltb in E.
    + apply Z.ltb_lt in E. split; [done|]. intros (? & [= <-] & ?). lia.
    + apply Z.ltb_ge in E. split; [|done]. intros _. by exists p.
  - split; [done|]. by intros (? & ? & ?).
Qed.

Lemma pairResult_is_Some ra s t :
  is_Some (pairResult ra s t) ↔
  s = t ∨ findPaths ra s t ≠ [] ∨ findPaths ra t s ≠ [].
Proof.
  unfold pairResult. case_decide as Hst.
  - split; [by left|by eexists].
  - destruct (findPaths ra s t); [destruct (findPaths ra t s)|].
    + split; [by intros [? ?]|]. by intros [?|[?|?]].
    + split; [by right; right|by eexists].
    + split; [by right; left|by eexists].
Qed.

(** [findPaths] reads the analyzer's graph and depth only. *)
Lemma findPaths_depth cg a b d a' b' d' s t :
  Z.min d 5 = Z.min d' 5 →
  findPaths (newAnalyzer cg a b d) s t = findPaths (newAnalyzer cg a' b' d') s t.
Proof.
  intros Hd. unfold findPaths. simpl.
  replace (if d >? 5 then 5 else d) with (Z.min d 5)
    by (destruct (d >? 5) eqn:E; rewrite Z.gtb_ltb in E;
        [apply Z.ltb_lt in E | apply Z.ltb_ge in E]; lia).
  replace (if d' >? 5 then 5 else d') with (Z.min d' 5)
    by (destruct (d' >? 5) eqn:E; rewrite Z.gtb_ltb in E;
        [apply Z.ltb_lt in E | apply Z.ltb_ge in E]; lia).
  by rewrite Hd.
Qed.

Lemma pairResult_depth_indep cg a b d a' b' d' s t :
  Z.min d 5 = Z.min d' 5 →
  pairResult (newAnalyzer cg a b d) s t = pairResult (newAnalyzer cg a' b' d') s t.
Proof.
  intros Hd. unfold pairResult.
  by rewrite (findPaths_depth cg a b d a' b' d' s t Hd),
             (findPaths_depth cg a b d a' b' d' t s Hd).
Qed.

Lemma IsValid_AnalyzeReachability cg a b d :
  IsValid <$> AnalyzeReachability cg a b d
  = Some (bool_decide
            (is_Some (firstRelationship (newAnalyzer cg a b d)
                        (lookupIDs cg a) (lookupIDs cg b)))).
Proof.
  rewrite AnalyzeReachability_cases. cbv zeta.
  case_bool_decide as Ha.
  { simpl. rewrite bool_decide_eq_false_2; [done|].
    intros (s & t & Hs & _)%firstRelationship_is_Some.
    rewrite Ha in Hs. by apply elem_of_nil in Hs. }
  case_bool_decide as Hb.
  { simpl. rewrite bool_decide_eq_false_2; [done|].
    intros (s & t & _ & Ht & _)%firstRelationship_is_Some.
    rewrite Hb in Ht. by apply elem_of_nil in Ht. }
  by destruct (firstRelationship _ _ _) as [[kind chain]|].
Qed.

(** What a valid result holds: the first pair of IDs, in the order of the
    loops, that is related, and the chain found for it. *)
Lemma AnalyzeReachability_valid cg a b d r :
  AnalyzeReachability cg a b d = Some r → IsValid r = true →
  ∃ s t kind chain,
    s ∈ lookupIDs cg a ∧ t ∈ lookupIDs cg b ∧
    pairResult (newAnalyzer cg a b d) s t = Some (kind, chain) ∧
    r = mkReachabilityAnalysis true
          (describe (setResult (newAnalyzer cg a b d) true kind [chain] ∅)).1
          [chain] []
          (describe (setResult (newAnalyzer cg a b d) true kind [chain] ∅)).2
          (len chain - 1) (len chain - 1).
Proof.
  rewrite AnalyzeReachability_cases. cbv zeta.
  repeat case_bool_decide; try by intros [= <-].
  destruct (firstRelationship _ _ _) as [[kind chain]|] eqn:E;
    [|by intros [= <-]].
  intros [= <-] _.
  destruct (firstRelationship_Some _ _ _ _ _ E) as (s & t & ? & ? & ?).
  by exists s, t, kind, chain.
Qed.

Lemma pairResult_depth ra s t kind chain :
  pairResult ra s t = Some (kind, chain) →
  (kind = SameFunction ∧ len chain - 1 = 0) ∨
  (kind ≠ SameFunction ∧ 1 ≤ len chain - 1 ≤ Z.min (maxDepth ra) 5).
Proof.
  assert (∀ u v, u ≠ v → findPaths ra u v = [chain] →
                 1 ≤ len chain - 1 ≤ Z.min (maxDepth ra) 5) as Hfp.
  { intros u v Hne Hfp.
    destruct (findPaths_cases ra u v) as [E|(p & Hp & H5 & Hd & E)];
      rewrite E in Hfp; [done|]. injection Hfp as <-.
    apply ShortestPath_sound in Hp.
    pose proof (Path_head _ _ _ _ Hp) as Hh.
    pose proof (Path_last _ _ _ _ Hp) as Hl.
    unfold len in *. rewrite length_fmap.
    destruct p as [|x [|y p]]; simpl in *; [done| |lia].
    congruence. }
  intros H. destruct (pairResult_Some _ _ _ _ _ H)
    as [(_ & -> & ->)|[(Hne & -> & E)|(Hne & -> & _ & E)]].
  - by left.
  - right. split; [done|]. by eapply Hfp.
  - right. split; [done|]. eapply (Hfp t s); [|done]. by intros ->.
Qed.

(** When the analyzer finds the two functions related, the legacy check
    [AreConnected] holds, at the same depth, for some pair of their IDs. *)
Theorem valid_result_is_connected cg sourceFuncName targetFuncName d r :
  AnalyzeReachability cg sourceFuncName targetFuncName d = Some r →
  IsValid r = true →
  ∃ sourceID targetID,
    sourceID ∈ lookupIDs cg sourceFuncName ∧
    targetID ∈ lookupIDs cg targetFuncName ∧
    AreConnected cg sourceID targetID d = true.
Proof.
  intros Hr Hv.
  destruct (AnalyzeReachability_valid _ _ _ _ _ Hr Hv)
    as (s & t & kind & chain & Hs & Ht & Hp & _).
  exists s, t. split; [done|]. split; [done|].
  assert (∀ u v, u ≠ v →
            findPaths (newAnalyzer cg sourceFuncName targetFuncName d) u v = [chain] →
            HasPath cg u v d = true) as Hfp.
  { intros u v Hne Hfp. apply HasPath_Some; [done|].
    destruct (findPaths_cases (newAnalyzer cg sourceFuncName targetFuncName d) u v)
      as [E|(p & Hsp & H5 & Hd & E)]; rewrite E in Hfp; [done|].
    by exists p. }
  unfold AreConnected.
  destruct (pairResult_Some _ _ _ _ _ Hp)
    as [(-> & _)|[(Hne & _ & E)|(Hne & _ & _ & E)]].
  - by rewrite HasPath_refl.
  - by rewrite (Hfp _ _ Hne E).
  - rewrite (Hfp t s) by (done || by intros ->).
    by destruct (HasPath cg s t d).
Qed.

(** Whether two functions are related does not depend on which of them is
    given as the free and which as the use function. *)
Theorem validity_is_symmetric cg sourceFuncName targetFuncName d :
  IsValid <$> AnalyzeReachability cg sourceFuncName targetFuncName d
  = IsValid <$> AnalyzeReachability cg targetFuncName sourceFuncName d.
Proof.
  rewrite !IsValid_AnalyzeReachability. f_equal. apply bool_decide_ext.
  rewrite !firstRelationship_is_Some.
  assert (∀ u v,
            findPaths (newAnalyzer cg sourceFuncName targetFuncName d) u v
            = findPaths (newAnalyzer cg targetFuncName sourceFuncName d) u v)
    as Hfp by done.
  split; intros (s & t & Hs & Ht & H); exists t, s;
    (split; [done|]; split; [done|]);
    apply pairResult_is_Some; apply pairResult_is_Some in H;
    rewrite ?Hfp in H; rewrite ?Hfp;
    (destruct H as [->|[H|H]]; [by left|right; right|right; left]); done.
Qed.

Lemma IsValid_monotone cg sourceFuncName targetFuncName d d' :
  d ≤ d' →
  IsValid <$> AnalyzeReachability cg sourceFuncName targetFuncName d = Some true →
  IsValid <$> AnalyzeReachability cg sourceFuncName targetFuncName d' = Some true.
Proof.
  intros Hle. rewrite !IsValid_AnalyzeReachability.
  intros [= H]. f_equal. apply bool_decide_eq_true in H.
  apply bool_decide_eq_true.
  apply firstRelationship_is_Some in H. apply firstRelationship_is_Some.
  destruct H as (s & t & Hs & Ht & H). exists s, t.
  split; [done|]. split; [done|].
  apply pairResult_is_Some. apply pairResult_is_Some in H.
  assert (∀ u v,
            findPaths (newAnalyzer cg sourceFuncName targetFuncName d) u v ≠ [] →
            findPaths (newAnalyzer cg sourceFuncName targetFuncName d') u v ≠ [])
    as Hmono.
  { intros u v. rewrite !findPaths_nonempty. simpl.
    intros (p & ? & ?). exists p. split; [done|lia]. }
  destruct H as [->|[H|H]]; [by left|right; left|right; right]; by apply Hmono.
Qed.

Lemma AnalyzeReachability_beyond_cap cg sourceFuncName targetFuncName d d' :
  5 ≤ d → 5 ≤ d' →
  ∃ r r',
    AnalyzeReachability cg sourceFuncName targetFuncName d = Some r ∧
    AnalyzeReachability cg sourceFuncName targetFuncName d' = Some r' ∧
    IsValid r = IsValid r' ∧ Reason r = Reason r' ∧
    CallChains r = CallChains r' ∧ CommonCallers r = CommonCallers r' ∧
    MinDepth r = MinDepth r' ∧ MaxDepth r = MaxDepth r' ∧
    (IsValid r = true → r = r').
Proof.
  intros Hd Hd'. rewrite !AnalyzeReachability_cases. cbv zeta.
  repeat case_bool_decide; try by eexists _, _.
  assert (firstRelationship (newAnalyzer cg sourceFuncName targetFuncName d)
            (lookupIDs cg sourceFuncName) (lookupIDs cg targetFuncName)
          = firstRelationship (newAnalyzer cg sourceFuncName targetFuncName d')
              (lookupIDs cg sourceFuncName) (lookupIDs cg targetFuncName)) as ->.
  { unfold firstRelationship. apply firstSome_ext. intros s _.
    apply firstSome_ext. intros t _. apply pairResult_depth_indep. lia. }
  destruct (firstRelationship _ _ _) as [[kind chain]|]; [|by eexists _, _].
  eexists _, _. split; [done|]. split; [done|].
  by destruct kind.
Qed.

(** The depth of a valid result: 0 when the two operations are in the
    same function, and otherwise between 1 and the smaller of [maxDepth]
    and 5; minimum and maximum always agree. *)
Theorem valid_result_depth cg sourceFuncName targetFuncName d r :
  AnalyzeReachability cg sourceFuncName targetFuncName d = Some r →
  IsValid r = true →
  MinDepth r = MaxDepth r ∧
  ((Reason r = "Functions are the same" ∧ MaxDepth r = 0) ∨
   (Reason r ≠ "Functions are the same" ∧ 1 ≤ MaxDepth r ≤ Z.min d 5)).
Proof.
  intros Hr Hv.
  destruct (AnalyzeReachability_valid _ _ _ _ _ Hr Hv)
    as (s & t & kind & chain & _ & _ & Hp & ->).
  split; [done|]. simpl.
  destruct (pairResult_depth _ _ _ _ _ Hp) as [[-> H]|[Hk H]].
  - by left.
  - right. split; [|done].
    destruct (pairResult_Some _ _ _ _ _ Hp)
      as [(_ & -> & _)|[(_ & -> & _)|(_ & -> & _)]]; done.
Qed.

(** ** What [BuildCallGraph] builds *)

Lemma vertices_AddVertex gr v x :
  x ∈ graph.vertices (graph.AddVertex gr v) ↔ x ∈ graph.vertices gr ∨ x = v.
Proof.
  unfold graph.AddVertex. case_decide as Hv; simpl.
  - split; [by left|]. by intros [?| ->].
  - rewrite elem_of_app, list_elem_of_singleton. done.
Qed.

Lemma NoDup_AddVertex gr v :
  NoDup (graph.vertices gr) → NoDup (graph.vertices (graph.AddVertex gr v)).
Proof.
  intros Hnd. unfold graph.AddVertex. case_decide as Hv; simpl; [done|].
  apply NoDup_app. split; [done|]. split; [|apply NoDup_singleton].
  by intros x Hx ->%list_elem_of_singleton.
Qed.

Lemma edges_AddVertex gr v :
  graph.edges (graph.AddVertex gr v) = graph.edges gr.
Proof. unfold graph.AddVertex. by case_decide. Qed.

Lemma vertices_AddEdge gr s t :
  graph.vertices (graph.AddEdge gr s t) = graph.vertices gr.
Proof. unfold graph.AddEdge. by case_decide. Qed.

Lemma edges_AddEdge gr s t e :
  e ∈ graph.edges (graph.AddEdge gr s t) ↔
  e ∈ graph.edges gr ∨
  (e = (s, t) ∧ s ∈ graph.vertices gr ∧ t ∈ graph.vertices gr).
Proof.
  unfold graph.AddEdge. case_decide as H; simpl.
  - destruct H as (Hs & Ht & _).
    rewrite elem_of_app, list_elem_of_singleton.
    split; (intros [?|?]; [by left|right]); [done|]. by destruct_and!.
  - split; [by left|]. intros [?|(-> & Hs & Ht)]; [done|].
    destruct (decide ((s, t) ∈ graph.edges gr)) as [|Hn]; [done|].
    by destruct H.
Qed.

Lemma NoDup_AddEdge gr s t :
  NoDup (graph.edges gr) → NoDup (graph.edges (graph.AddEdge gr s t)).
Proof.
  intros Hnd. unfold graph.AddEdge. case_decide as H; simpl; [|done].
  destruct H as (_ & _ & Hn).
  apply NoDup_app. split; [done|]. split; [|apply NoDup_singleton].
  by intros x Hx ->%list_elem_of_singleton.
Qed.

Lemma lookupIDs_addFunction cg f name :
  lookupIDs (addFunction cg f) name
  = lookupIDs cg name ++ (if decide (parser.Name f = name) then [parser.ID f] else []).
Proof.
  unfold lookupIDs at 1. simpl. case_decide as Hn.
  - subst name. by rewrite lookup_insert_eq.
  - rewrite lookup_insert_ne by done. by rewrite app_nil_r.
Qed.

(** The first loop: one vertex per ID, and the IDs of every name in the
    order of the functions. *)
Lemma addFunction_fold fns cg :
  (∀ x, x ∈ graph.vertices (g (fold_left addFunction fns cg)) ↔
        x ∈ graph.vertices (g cg) ∨ x ∈ parser.ID <$> fns) ∧
  graph.edges (g (fold_left addFunction fns cg)) = graph.edges (g cg) ∧
  (∀ name, lookupIDs (fold_left addFunction fns cg) name
           = lookupIDs cg name ++
             (parser.ID <$> filter (λ f, parser.Name f = name) fns)) ∧
  (NoDup (graph.vertices (g cg)) →
   NoDup (graph.vertices (g (fold_left addFunction fns cg)))).
Proof.
  revert cg. induction fns as [|f fns IH]; intros cg; simpl.
  - split; [|split; [done|split; [|done]]].
    + intros x. split; [by left|]. by intros [?|?%elem_of_nil].
    + intros name. by rewrite app_nil_r.
  - destruct (IH (addFunction cg f)) as (Hv & He & Hl & Hnd).
    split; [|split; [|split]].
    + intros x. rewrite Hv. simpl. rewrite vertices_AddVertex, elem_of_cons.
      split; [intros [[?| ->]|?]|intros [?|[->|?]]]; auto.
    + rewrite He. simpl. apply edges_AddVertex.
    + intros name. rewrite Hl, lookupIDs_addFunction, <-app_assoc. f_equal.
      rewrite filter_cons. by case_decide.
    + intros H. apply Hnd. simpl. by apply NoDup_AddVertex.
Qed.

(** The innermost loop: the edges from one caller to a list of IDs. *)
Lemma addEdges_fold caller ids gr :
  let gr' := fold_left (λ gr calleeID, graph.AddEdge gr caller calleeID) ids gr in
  graph.vertices gr' = graph.vertices gr ∧
  (∀ e, e ∈ graph.edges gr' ↔
        e ∈ graph.edges gr ∨
        (e.1 = caller ∧ e.2 ∈ ids ∧
         caller ∈ graph.vertices gr ∧ e.2 ∈ graph.vertices gr)) ∧
  (NoDup (graph.edges gr) → NoDup (graph.edges gr')).
Proof.
  cbv zeta. revert gr. induction ids as [|id ids IH]; intros gr; simpl.
  - split; [done|]. split; [|done]. intros e. split; [by left|].
    by intros [?|(_ & ?%elem_of_nil & _)].
  - destruct (IH (graph.AddEdge gr caller id)) as (Hv & He & Hnd).
    rewrite vertices_AddEdge in Hv, He.
    split; [done|]. split; [|by intros H; apply Hnd, NoDup_AddEdge].
    intros e. rewrite He, edges_AddEdge, elem_of_cons.
    split.
    + intros [[?|(-> & ? & ?)]|(? & ? & ? & ?)]; [by left|right..]; simpl; auto.
    + intros [?|(? & [E|?] & ? & ?)]; [by left; left| |by right].
      left. right. destruct e as [a b]. simpl in *. by subst.
Qed.

Lemma addCallEdges_spec caller cg callee :
  let cg' := addCallEdges caller cg callee in
  functions cg' = functions cg ∧
  graph.vertices (g cg') = graph.vertices (g cg) ∧
  (∀ e, e ∈ graph.edges (g cg') ↔
        e ∈ graph.edges (g cg) ∨
        (e.1 = parser.ID caller ∧ e.2 ∈ lookupIDs cg (parser.CalleeName callee) ∧
         parser.ID caller ∈ graph.vertices (g cg) ∧ e.2 ∈ graph.vertices (g cg))) ∧
  (NoDup (graph.edges (g cg)) → NoDup (graph.edges (g cg'))).
Proof.
  cbv zeta. unfold addCallEdges, lookupIDs.
  destruct (functions cg !! parser.CalleeName callee) as [ids|]; simpl.
  - destruct (addEdges_fold (parser.ID caller) ids (g cg)) as (Hv & He & Hnd).
    done.
  - split; [done|]. split; [done|]. split; [|done]. intros e.
    split; [by left|]. by intros [?|(_ & ?%elem_of_nil & _)].
Qed.

(** The second loop, started from any call graph. *)
Lemma addCalls_fold fns cg :
  let cg' := fold_left (λ cg caller,
                          fold_left (addCallEdges caller) (parser.Callees caller) cg)
                       fns cg in
  functions cg' = functions cg ∧
  graph.vertices (g cg') = graph.vertices (g cg) ∧
  (∀ e, e ∈ graph.edges (g cg') ↔
        e ∈ graph.edges (g cg) ∨
        ∃ caller callee,
          caller ∈ fns ∧ callee ∈ parser.Callees caller ∧
          e.1 = parser.ID caller ∧ e.2 ∈ lookupIDs cg (parser.CalleeName callee) ∧
          e.1 ∈ graph.vertices (g cg) ∧ e.2 ∈ graph.vertices (g cg)) ∧
  (NoDup (graph.edges (g cg)) → NoDup (graph.edges (g cg'))).
Proof.
  cbv zeta.
  assert (∀ caller callees cg,
    let cg' := fold_left (addCallEdges caller) callees cg in
    functions cg' = functions cg ∧
    graph.vertices (g cg') = graph.vertices (g cg) ∧
    (∀ e, e ∈ graph.edges (g cg') ↔
          e ∈ graph.edges (g cg) ∨
          ∃ callee, callee ∈ callees ∧
            e.1 = parser.ID caller ∧
            e.2 ∈ lookupIDs cg (parser.CalleeName callee) ∧
            e.1 ∈ graph.vertices (g cg) ∧ e.2 ∈ graph.vertices (g cg)) ∧
    (NoDup (graph.edges (g cg)) → NoDup (graph.edges (g cg')))) as Hinner.
  { intros caller callees. cbv zeta.
    induction callees as [|callee callees IH]; intros cg0; simpl.
    - split; [done|]. split; [done|]. split; [|done]. intros e.
      split; [by left|]. by intros [?|(? & ?%elem_of_nil & _)].
    - destruct (IH (addCallEdges caller cg0 callee)) as (Hf & Hv & He & Hnd).
      destruct (addCallEdges_spec caller cg0 callee) as (Hf0 & Hv0 & He0 & Hnd0).
      cbv zeta in *. unfold lookupIDs in *.
      rewrite Hf0 in Hf, He. rewrite Hv0 in Hv, He.
      split; [done|]. split; [done|]. split; [|by intros H; apply Hnd, Hnd0].
      intros e. rewrite He, He0. split.
      + intros [[?|(E & ? & ? & ?)]|(c & ? & ? & ? & ? & ?)]; [by left|right..].
        * exists callee. rewrite E. repeat split; try done. by left.
        * exists c. repeat split; try done. by right.
      + intros [?|(c & [->|?]%elem_of_cons & E & ? & ? & ?)];
          [by left; left|left; right|right].
        * by rewrite <-E.
        * by exists c. }
  revert cg. induction fns as [|caller fns IH]; intros cg; simpl.
  - split; [done|]. split; [done|]. split; [|done]. intros e.
    split; [by left|]. by intros [?|(? & ? & ?%elem_of_nil & _)].
  - destruct (IH (fold_left (addCallEdges caller) (parser.Callees caller) cg))
      as (Hf & Hv & He & Hnd).
    destruct (Hinner caller (parser.Callees caller) cg) as (Hf0 & Hv0 & He0 & Hnd0).
    unfold lookupIDs in *.
    rewrite Hf0 in Hf, He. rewrite Hv0 in Hv, He.
    split; [done|]. split; [done|]. split; [|by intros H; apply Hnd, Hnd0].
    intros e. rewrite He, He0. split.
    + intros [[?|(c & ? & ? & ? & ? & ?)]|(f & c & ? & ? & ? & ? & ? & ?)];
        [by left|right..].
      * exists caller, c. repeat split; try done. by left.
      * exists f, c. repeat split; try done. by right.
    + intros [?|(f & c & [->|?]%elem_of_cons & ? & ? & ? & ? & ?)];
        [by left; left|left; right|right].
      * by exists c.
      * by exists f, c.
Qed.

Lemma lookupIDs_BuildCallGraph fns name :
  lookupIDs (BuildCallGraph fns) name
  = parser.ID <$> filter (λ f, parser.Name f = name) fns.
Proof.
  unfold BuildCallGraph. cbv zeta.
  destruct (addCalls_fold fns (fold_left addFunction fns (mkCallGraph graph.New ∅)))
    as (Hf & _).
  destruct (addFunction_fold fns (mkCallGraph graph.New ∅)) as (_ & _ & Hl & _).
  unfold lookupIDs in *. rewrite Hf, Hl. simpl. by rewrite lookup_empty.
Qed.

(** The index of a call graph lists, under each name, the IDs of the
    functions of that name, in the order the parser reported them: none for
    a name no function has, several for a name defined more than once. *)
Theorem index_lists_functions_by_name fns name :
  lookupIDs (BuildCallGraph fns) name
  = parser.ID <$> filter (λ f, parser.Name f = name) fns ∧
  (lookupIDs (BuildCallGraph fns) name = [] ↔
   ∀ f, f ∈ fns → parser.Name f ≠ name).
Proof.
  rewrite lookupIDs_BuildCallGraph. split; [done|].
  split.
  - intros H%fmap_nil_inv f Hf Hn.
    assert (f ∈ filter (λ f, parser.Name f = name) fns) as Hin
      by (by apply list_elem_of_filter).
    rewrite H in Hin. by apply elem_of_nil in Hin.
  - intros H. destruct (filter _ fns) as [|f l] eqn:E; [done|]. exfalso.
    assert (f ∈ filter (λ f, parser.Name f = name) fns) as Hin
      by (rewrite E; left).
    apply list_elem_of_filter in Hin as [Hn Hf]. by apply (H f).
Qed.

Lemma BuildCallGraph_graph fns :
  let cg := BuildCallGraph fns in
  (∀ v, v ∈ graph.vertices (g cg) ↔ ∃ f, f ∈ fns ∧ parser.ID f = v) ∧
  (∀ a b, (a, b) ∈ graph.edges (g cg) ↔
     ∃ caller callee target,
       caller ∈ fns ∧ parser.ID caller = a ∧
       callee ∈ parser.Callees caller ∧
       target ∈ fns ∧ parser.Name target = parser.CalleeName callee ∧
       parser.ID target = b) ∧
  NoDup (graph.vertices (g cg)) ∧ NoDup (graph.edges (g cg)).
Proof.
  cbv zeta. unfold BuildCallGraph. cbv zeta.
  destruct (addCalls_fold fns (fold_left addFunction fns (mkCallGraph graph.New ∅)))
    as (Hf & Hv & He & Hnd).
  destruct (addFunction_fold fns (mkCallGraph graph.New ∅))
    as (Hv1 & He1 & Hl1 & Hnd1).
  cbv zeta in *. simpl in Hv1, He1, Hnd1.
  assert (∀ v, v ∈ graph.vertices
                     (g (fold_left addFunction fns (mkCallGraph graph.New ∅)))
               ↔ ∃ f, f ∈ fns ∧ parser.ID f = v) as Hvert.
  { intros v. rewrite Hv1, list_elem_of_fmap. split.
    - intros [?%elem_of_nil|(f & -> & ?)]; [done|]. by exists f.
    - intros (f & ? & <-). right. by exists f. }
  split; [by intros v; rewrite Hv|].
  split; [|split].
  - intros a b. rewrite He, He1. simpl. split.
    + intros [?%elem_of_nil|(caller & callee & Hc & Hce & -> & Hb & _ & _)];
        [done|].
      rewrite Hl1 in Hb. unfold lookupIDs in Hb. simpl in Hb.
      rewrite lookup_empty in Hb. simpl in Hb.
      apply list_elem_of_fmap in Hb as (target & -> & Ht).
      apply list_elem_of_filter in Ht as [Hn Ht].
      by exists caller, callee, target.
    + intros (caller & callee & target & Hc & <- & Hce & Ht & Hn & <-).
      right. exists caller, callee. repeat split; try done.
      * rewrite Hl1. unfold lookupIDs. simpl. rewrite lookup_empty. simpl.
        apply list_elem_of_fmap. exists target. split; [done|].
        by apply list_elem_of_filter.
      * apply Hvert. by exists caller.
      * apply Hvert. by exists target.
  - rewrite Hv. apply Hnd1. constructor.
  - apply Hnd. rewrite He1. constructor.
Qed.

(** The graph of a call graph: its vertices are the IDs of the parsed
    functions, and it has an edge from [a] to [b] exactly when a function
    with ID [a] has a callee whose name is the name of a function with ID
    [b]: a call is resolved by name alone, to every function of that name,
    and a callee no function is named after adds nothing.  No vertex and
    no edge occurs twice. *)
Theorem graph_has_call_edges_by_name fns :
  let cg := BuildCallGraph fns in
  (∀ v, v ∈ graph.vertices (g cg) ↔ ∃ f, f ∈ fns ∧ parser.ID f = v) ∧
  (∀ a b, (a, b) ∈ graph.edges (g cg) ↔
     ∃ caller callee target,
       caller ∈ fns ∧ parser.ID caller = a ∧
       callee ∈ parser.Callees caller ∧
       target ∈ fns ∧ parser.Name target = parser.CalleeName callee ∧
       parser.ID target = b) ∧
  NoDup (graph.vertices (g cg)) ∧ NoDup (graph.edges (g cg)).
Proof. exact (BuildCallGraph_graph fns). Qed.

(** From the parsed functions to the verdict: when a function has a callee
    named after a parsed function, the two names are related at every
    depth of at least 1, whichever is given as the free and which as the
    use function. *)
Theorem direct_call_is_related fns caller callee target d :
  caller ∈ fns → callee ∈ parser.Callees caller →
  target ∈ fns → parser.Name target = parser.CalleeName callee →
  1 ≤ d →
  IsValid <$> AnalyzeReachability (BuildCallGraph fns)
                (parser.Name caller) (parser.Name target) d = Some true ∧
  IsValid <$> AnalyzeReachability (BuildCallGraph fns)
                (parser.Name target) (parser.Name caller) d = Some true.
Proof.
  intros Hc Hce Ht Hn Hd.
  assert (∀ a b, is_Some (pairResult (newAnalyzer (BuildCallGraph fns) a b d)
                            (parser.ID caller) (parser.ID target))) as Hfwd.
  { intros a b. apply pairResult_is_Some.
    destruct (decide (parser.ID caller = parser.ID target)) as [|Hne];
      [by left|right; left].
    apply findPaths_nonempty. exists [parser.ID caller; parser.ID target].
    split; [|simpl; unfold len; simpl; lia]. simpl.
    apply ShortestPath_edge; [apply BuildCallGraph_wf| |done].
    apply (BuildCallGraph_graph fns). by exists caller, callee, target. }
  assert (∀ f, f ∈ fns →
               parser.ID f ∈ lookupIDs (BuildCallGraph fns) (parser.Name f))
    as Hids.
  { intros f Hf. rewrite lookupIDs_BuildCallGraph.
    apply list_elem_of_fmap. exists f. split; [done|].
    by apply list_elem_of_filter. }
  split; rewrite IsValid_AnalyzeReachability; f_equal;
    apply bool_decide_eq_true, firstRelationship_is_Some.
  - exists (parser.ID caller), (parser.ID target). auto.
  - exists (parser.ID target), (parser.ID caller).
    split; [auto|]. split; [auto|].
    apply pairResult_is_Some.
    destruct (Hfwd (parser.Name target) (parser.Name caller)) as [x Hx].
    assert (is_Some (pairResult
                       (newAnalyzer (BuildCallGraph fns) (parser.Name target)
                                    (parser.Name caller) d)
                       (parser.ID caller) (parser.ID target))) as H
      by (by rewrite Hx).
    apply pairResult_is_Some in H as [->|[H|H]]; auto.
Qed.

(** ** The chains of a result *)

Lemma deduplicateLoop_snoc seen paths path :
  deduplicateLoop seen (paths ++ [path])
  = deduplicateLoop seen paths ++
    (if decide (strings_Join path "->" ∈ seen ∨
                strings_Join path "->" ∈ (λ p, strings_Join p "->") <$> paths)
     then [] else [path]).
Proof.
  revert seen. induction paths as [|p paths IH]; intros seen; simpl.
  - destruct (decide (strings_Join path "->" ∈ seen)) as [Hin|Hin].
    + rewrite decide_True; [done|by left].
    + rewrite decide_False; [done|]. by intros [?|?%elem_of_nil].
  - destruct (decide (strings_Join p "->" ∈ seen)) as [Hin|Hin].
    + rewrite IH. f_equal. apply decide_ext. rewrite elem_of_cons.
      split; [intros [?|?]; auto|]. intros [?|[E|?]]; auto.
      left. by rewrite E.
    + rewrite IH. simpl. f_equal. f_equal. apply decide_ext.
      rewrite elem_of_union, elem_of_singleton, elem_of_cons.
      split; [intros [[?|?]|?]; auto|]. intros [?|[?|?]]; auto.
Qed.

Lemma deduplicateLoop_spec seen paths :
  deduplicateLoop seen paths `sublist_of` paths ∧
  NoDup ((λ p, strings_Join p "->") <$> deduplicateLoop seen paths) ∧
  (∀ p, p ∈ deduplicateLoop seen paths → strings_Join p "->" ∉ seen) ∧
  (∀ p, p ∈ paths →
        strings_Join p "->" ∈ seen ∨
        strings_Join p "->" ∈
          (λ p, strings_Join p "->") <$> deduplicateLoop seen paths).
Proof.
  revert seen. induction paths as [|path paths IH]; intros seen; simpl.
  - split; [constructor|]. split; [constructor|].
    split; by intros p ?%elem_of_nil.
  - case_decide as Hin.
    + destruct (IH seen) as (Hsub & Hnd & Hout & Hcov).
      split; [by apply sublist_cons|]. split; [done|]. split; [done|].
      intros p [->|Hp]%elem_of_cons; [by left|by apply Hcov].
    + destruct (IH ({[strings_Join path "->"]} ∪ seen))
        as (Hsub & Hnd & Hout & Hcov).
      split; [by apply sublist_skip|]. split; [|split].
      * simpl. apply NoDup_cons. split; [|done].
        intros (p & Hk & Hp)%list_elem_of_fmap. apply (Hout p Hp).
        apply elem_of_union. left. by apply elem_of_singleton.
      * intros p [->|Hp]%elem_of_cons; [done|].
        intros Hs. apply (Hout p Hp). apply elem_of_union. by right.
      * intros p [->|Hp]%elem_of_cons; [right; simpl; by left|].
        destruct (Hcov p Hp) as [[Hk|?]%elem_of_union|?]; [|by left|].
        -- right. simpl. apply elem_of_cons. left.
           by apply elem_of_singleton in Hk.
        -- right. simpl. apply elem_of_cons. by right.
Qed.

Lemma deduplicateLoop_NoDup seen paths :
  NoDup ((λ p, strings_Join p "->") <$> paths) →
  (∀ p, p ∈ paths → strings_Join p "->" ∉ seen) →
  deduplicateLoop seen paths = paths.
Proof.
  revert seen. induction paths as [|path paths IH]; intros seen Hnd Hs;
    simpl; [done|].
  simpl in Hnd. apply NoDup_cons in Hnd as [Hn Hnd].
  rewrite decide_False by (apply Hs; by left). f_equal.
  apply IH; [done|]. intros p Hp [Hk|Hk]%elem_of_union.
  - apply elem_of_singleton in Hk. apply Hn.
    apply list_elem_of_fmap. by exists p.
  - apply (Hs p); [by right|done].
Qed.

(** [deduplicatePaths] keeps, in their order, the first chain of every
    text [a->b->...]: the result has no two chains with the same text,
    every chain of the input has its text in the result, an input without
    repeated texts is returned as it is, and deduplicating twice changes
    nothing. *)
Theorem deduplicatePaths_keeps_first_of_each paths path :
  let key := λ p, strings_Join p "->" in
  deduplicatePaths paths `sublist_of` paths ∧
  NoDup (key <$> deduplicatePaths paths) ∧
  (∀ p, p ∈ paths → key p ∈ key <$> deduplicatePaths paths) ∧
  deduplicatePaths (paths ++ [path])
  = deduplicatePaths paths ++
    (if decide (key path ∈ key <$> paths) then [] else [path]) ∧
  (NoDup (key <$> paths) → deduplicatePaths paths = paths) ∧
  deduplicatePaths (deduplicatePaths paths) = deduplicatePaths paths.
Proof.
  cbv zeta. unfold deduplicatePaths.
  destruct (deduplicateLoop_spec ∅ paths) as (Hsub & Hnd & _ & Hcov).
  split; [done|]. split; [done|]. split; [|split; [|split]].
  - intros p Hp. by destruct (Hcov p Hp) as [?%elem_of_empty|?].
  - rewrite deduplicateLoop_snoc. f_equal. apply decide_ext.
    split; [by intros [?%elem_of_empty|?]|by right].
  - intros H. apply deduplicateLoop_NoDup; [done|].
    by intros p _ ?%elem_of_empty.
  - apply deduplicateLoop_NoDup; [done|]. by intros p _ ?%elem_of_empty.
Qed.

Lemma addPathsLoop_take all paths :
  addPathsLoop all paths = all ++ take (Z.to_nat (10 - len all)) paths.
Proof.
  revert all. induction paths as [|path paths IH]; intros all; simpl.
  - by rewrite take_nil, app_nil_r.
  - destruct (10 <=? len all) eqn:E.
    + apply Z.leb_le in E. replace (Z.to_nat (10 - len all)) with 0%nat by lia.
      by rewrite app_nil_r.
    + apply Z.leb_gt in E. rewrite IH.
      replace (Z.to_nat (10 - len all))
        with (S (Z.to_nat (10 - len (all ++ [path]))))
        by (unfold len in *; rewrite length_app; simpl; lia).
      simpl. by rewrite <-app_assoc.
Qed.

(** [addPaths] appends the new paths up to the limit of 10 paths in all:
    as many of them, from the front, as keep the total at 10 or below, and
    none when 10 or more are stored already.  It changes nothing else. *)
Theorem addPaths_stops_at_ten ra paths :
  allPaths (addPaths ra paths)
  = allPaths ra ++ take (Z.to_nat (10 - len (allPaths ra))) paths ∧
  len (allPaths (addPaths ra paths))
  = Z.max (len (allPaths ra)) (Z.min 10 (len (allPaths ra) + len paths)) ∧
  foundRelationship (addPaths ra paths) = foundRelationship ra ∧
  relationshipType (addPaths ra paths) = relationshipType ra ∧
  commonCallers (addPaths ra paths) = commonCallers ra.
Proof.
  simpl. rewrite addPathsLoop_take. split; [done|]. split; [|done].
  unfold len. rewrite length_app, length_take. lia.
Qed.

Lemma depthRange_fold rest a b mn mx :
  fold_left depthRange rest (a, b) = (mn, mx) →
  mn ≤ a ∧ b ≤ mx ∧
  (∀ p, p ∈ rest → mn ≤ len p - 1 ≤ mx) ∧
  (mn = a ∨ ∃ p, p ∈ rest ∧ mn = len p - 1) ∧
  (mx = b ∨ ∃ p, p ∈ rest ∧ mx = len p - 1).
Proof.
  revert a b. induction rest as [|path rest IH]; intros a b; simpl.
  - intros [= <- <-]. split; [lia|]. split; [lia|].
    split; [by intros p ?%elem_of_nil|]. split; by left.
  - unfold depthRange at 2. simpl. intros H.
    destruct (IH _ _ H) as (Hmn & Hmx & Hall & Hmin & Hmax). clear IH H.
    destruct (len path - 1 <? a) eqn:E1;
      [apply Z.ltb_lt in E1 | apply Z.ltb_ge in E1];
      (destruct (len path - 1 >? b) eqn:E2; rewrite Z.gtb_ltb in E2;
       [apply Z.ltb_lt in E2 | apply Z.ltb_ge in E2]).
    all: split; [lia|]; split; [lia|]; split;
      [intros p [->|Hp]%elem_of_cons; [lia|by apply Hall]|].
    all: split.
    all: try (destruct Hmin as [->|(p & Hp & ->)];
              [first [by left | right; exists path; split; [by left|done]]
              |right; exists p; split; [by right|done]]).
    all: try (destruct Hmax as [->|(p & Hp & ->)];
              [first [by left | right; exists path; split; [by left|done]]
              |right; exists p; split; [by right|done]]).
Qed.

Lemma sumDepths_None first lastFunc1 max rest :
  sumDepths first lastFunc1 max rest = None ↔ [] ∈ rest.
Proof.
  revert max. induction rest as [|path rest IH]; intros max; simpl.
  - split; [done|]. by intros ?%elem_of_nil.
  - destruct (last path) as [l|] eqn:El; simpl.
    + rewrite IH, elem_of_cons. split; [by right|].
      intros [<-|?]; [done|done].
    + apply last_None in El as ->. split; [by left|done].
Qed.

Lemma sumDepths_value first lastFunc1 max rest max' :
  sumDepths first lastFunc1 max rest = Some max' →
  max' = max ∨
  ∃ path, path ∈ rest ∧ last path ≠ Some lastFunc1 ∧
          max' = (len first - 1) + (len path - 1).
Proof.
  revert max. induction rest as [|path rest IH]; intros max; simpl.
  - intros [= <-]. by left.
  - destruct (last path) as [l|] eqn:El; simpl; [|done].
    intros H. destruct (IH _ H) as [->|(p & Hp & ? & ?)].
    + case_decide as Hl; [|by left].
      destruct (_ >? max) eqn:E; [|by left].
      right. exists path. split; [by left|]. split; [|done].
      rewrite El. by intros [= ->].
    + right. exists p. split; [by right|done].
Qed.

Lemma calculatePathDepths_None paths :
  calculatePathDepths paths = None ↔ (2 ≤ length paths)%nat ∧ [] ∈ paths.
Proof.
  destruct paths as [|first rest]; simpl.
  - split; [done|]. intros [? _]. lia.
  - destruct (fold_left depthRange rest _) as [mn mx].
    destruct rest as [|second rest].
    + simpl. split; [done|]. simpl. intros [? _]. lia.
    + replace (2 <=? len (first :: second :: rest)) with true
        by (symmetry; apply Z.leb_le; unfold len; simpl; lia).
      destruct (last first) as [l|] eqn:El.
      * cbn [mbind option_bind].
        destruct (sumDepths first l mx (second :: rest)) as [m|] eqn:Es.
        -- simpl. split; [done|]. intros [_ [<-|Hin]%elem_of_cons]; [done|].
           apply (sumDepths_None first l mx) in Hin. congruence.
        -- simpl. split; [|done]. intros _. split; [simpl; lia|].
           right. by apply (sumDepths_None first l mx).
      * apply last_None in El as ->. cbn [mbind option_bind].
        split; [|done]. intros _. split; [simpl; lia|by left].
Qed.

Lemma calculatePathDepths_Some paths mn mx :
  paths ≠ [] → calculatePathDepths paths = Some (mn, mx) →
  (∀ p, p ∈ paths → mn ≤ len p - 1 ≤ mx) ∧
  (∃ p, p ∈ paths ∧ mn = len p - 1) ∧
  ((∃ p, p ∈ paths ∧ mx = len p - 1) ∨
   (∃ first rest p, paths = first :: rest ∧ p ∈ rest ∧ last p ≠ last first ∧
                    mx = (len first - 1) + (len p - 1))).
Proof.
  destruct paths as [|first rest]; [done|]. intros _. simpl.
  destruct (fold_left depthRange rest _) as [mn0 mx0] eqn:Ef.
  destruct (depthRange_fold _ _ _ _ _ Ef) as (Hmn & Hmx & Hall & Hmin & Hmax).
  assert (∃ p, p ∈ first :: rest ∧ mn0 = len p - 1) as Hmin'.
  { destruct Hmin as [->|(p & ? & ?)]; [exists first; split; [by left|done]|].
    exists p. split; [by right|done]. }
  assert (∃ p, p ∈ first :: rest ∧ mx0 = len p - 1) as Hmax'.
  { destruct Hmax as [->|(p & ? & ?)]; [exists first; split; [by left|done]|].
    exists p. split; [by right|done]. }
  destruct (2 <=? len (first :: rest)).
  - destruct (last first) as [l|] eqn:El; [|done]. cbn [mbind option_bind].
    destruct (sumDepths first l mx0 rest) as [m|] eqn:Es; [|done]. simpl.
    intros [= <- <-].
    destruct (sumDepths_bounds _ _ _ _ _ Es) as [Hle _].
    split; [|split; [done|]].
    + intros p [->|Hp]%elem_of_cons; [lia|]. specialize (Hall p Hp). lia.
    + destruct (sumDepths_value _ _ _ _ _ Es) as [->|(p & Hp & Hl & ->)];
        [by left|].
      right. exists first, rest, p. by rewrite El.
  - intros [= <- <-]. split; [|split; [done|by left]].
    intros p [->|Hp]%elem_of_cons; [lia|by apply Hall].
Qed.

(** ** Names and IDs *)

(** The intermediate functions of a finding are the names that occur on
    one of its chains and are neither the free nor the use function, each
    listed once. *)
Theorem intermediate_functions_lie_on_a_chain callChains freeFunc useFunc :
  NoDup (extractIntermediateFunctions callChains freeFunc useFunc) ∧
  ∀ funcName,
    funcName ∈ extractIntermediateFunctions callChains freeFunc useFunc ↔
    (∃ chain, chain ∈ callChains ∧ funcName ∈ chain) ∧
    funcName ≠ freeFunc ∧ funcName ≠ useFunc.
Proof.
  unfold extractIntermediateFunctions. cbv zeta.
  split; [apply NoDup_rangeKeys|]. intros x.
  rewrite elem_of_rangeKeys, elem_of_list_to_set, list_elem_of_filter.
  rewrite list_elem_of_In, in_concat.
  setoid_rewrite <-list_elem_of_In.
  split.
  - intros [[? ?] (chain & ? & ?)]. split; [by exists chain|done].
  - intros [(chain & ? & ?) [? ?]]. split; [done|by exists chain].
Qed.

(** ** The enrichment pipeline, finding by finding *)

Lemma FindFunctionByID_Ok directory functionID f :
  FindFunctionByID directory functionID = Ok f →
  ∃ fns, GetCachedAnalysisResult directory = Ok fns ∧ f ∈ fns ∧
         parser.ID f = functionID.
Proof.
  unfold FindFunctionByID. destruct (GetCachedAnalysisResult directory) as [fns|];
    [|done].
  destruct (find _ fns) as [f'|] eqn:E; [|done]. intros [= <-].
  apply find_some in E as [Hin Hid]. exists fns.
  split; [done|]. split; [by apply list_elem_of_In|].
  by apply bool_decide_eq_true in Hid.
Qed.

Lemma FindFunctionByID_is_Ok directory functionID :
  (∃ f, FindFunctionByID directory functionID = Ok f) ↔
  ∃ fns, GetCachedAnalysisResult directory = Ok fns ∧
         functionID ∈ parser.ID <$> fns.
Proof.
  split.
  - intros [f (fns & ? & ? & <-)%FindFunctionByID_Ok]. exists fns.
    split; [done|]. apply list_elem_of_fmap. by exists f.
  - intros (fns & Hfns & (f & -> & Hf)%list_elem_of_fmap).
    unfold FindFunctionByID. rewrite Hfns.
    destruct (find _ fns) as [f'|] eqn:E; [by exists f'|].
    apply list_elem_of_In in Hf.
    pose proof (find_none _ _ E f Hf) as Hn. simpl in Hn.
    by apply bool_decide_eq_false in Hn.
Qed.

(** Enrichment succeeds exactly when the parsed source tree holds a
    function with the ID of the free function and one with the ID of the
    use function; a source line that cannot be read never makes it fail
    (its snippet becomes a comment saying so).  The finding it returns
    holds the result unchanged, the definitions of two such functions, no
    intermediate functions and no validation. *)
Theorem enrichment_needs_both_functions r :
  let freeID := parser.functionID (filepath_Join sourceDir (FreeFunctionFile r))
                                  (FreeFunctionDefLine r) (FreeFunctionName r) in
  let useID := parser.functionID (filepath_Join sourceDir (UseFunctionFile r))
                                 (UseFunctionDefLine r) (UseFunctionName r) in
  ((∃ finding, enrichWithSourceCode r = Ok finding) ↔
   ∃ fns, GetCachedAnalysisResult sourceDir = Ok fns ∧
          freeID ∈ parser.ID <$> fns ∧ useID ∈ parser.ID <$> fns) ∧
  (∀ finding, enrichWithSourceCode r = Ok finding →
     FindingCodeQLResult finding = r ∧
     FindingCallValidation finding = None ∧
     IntermediateFunctions (FindingSourceCode finding) = [] ∧
     ∃ fns freeFunc useFunc,
       GetCachedAnalysisResult sourceDir = Ok fns ∧
       freeFunc ∈ fns ∧ parser.ID freeFunc = freeID ∧
       useFunc ∈ fns ∧ parser.ID useFunc = useID ∧
       FunctionCodeDef (FreeFunction (FindingSourceCode finding))
       = parser.DefinitionWithLineNumbers freeFunc ∧
       FunctionCodeDef (UseFunction (FindingSourceCode finding))
       = parser.DefinitionWithLineNumbers useFunc).
Proof.
  cbv zeta. unfold enrichWithSourceCode, parser.functionID. cbv zeta.
  split.
  - split.
    + intros [finding H].
      destruct (FindFunctionByID sourceDir _) as [ff|] eqn:Ef in H; [|done].
      destruct (FindFunctionByID sourceDir _) as [uf|] eqn:Eu in H; [|done].
      destruct (FindFunctionByID_Ok _ _ _ Ef) as (fns & Hfns & Hf & Hfid).
      destruct (FindFunctionByID_Ok _ _ _ Eu) as (fns' & Hfns' & Hu & Huid).
      rewrite Hfns in Hfns'. injection Hfns' as <-.
      exists fns. split; [done|].
      split; apply list_elem_of_fmap; [by exists ff|by exists uf].
    + intros (fns & Hfns & Hf & Hu).
      destruct (proj2 (FindFunctionByID_is_Ok sourceDir _)
                  (ex_intro _ fns (conj Hfns Hf))) as [ff ->].
      destruct (proj2 (FindFunctionByID_is_Ok sourceDir _)
                  (ex_intro _ fns (conj Hfns Hu))) as [uf ->].
      by eexists.
  - intros finding H.
    destruct (FindFunctionByID sourceDir _) as [ff|] eqn:Ef in H; [|done].
    destruct (FindFunctionByID sourceDir _) as [uf|] eqn:Eu in H; [|done].
    injection H as <-. simpl.
    destruct (FindFunctionByID_Ok _ _ _ Ef) as (fns & Hfns & Hf & Hfid).
    destruct (FindFunctionByID_Ok _ _ _ Eu) as (fns' & Hfns' & Hu & Huid).
    rewrite Hfns in Hfns'. injection Hfns' as <-.
    repeat split; try done. by exists fns, ff, uf.
Qed.

(** [findFunctionByName] fails exactly when the source tree cannot be
    analysed or holds no function of that name; otherwise it returns,
    without a snippet, the definition of a parsed function that has the ID
    of the first function of that name. *)
Theorem function_code_by_name funcName :
  ((∃ code, findFunctionByName funcName = Ok code) ↔
   ∃ fns, GetCachedAnalysisResult sourceDir = Ok fns ∧
          funcName ∈ parser.Name <$> fns) ∧
  (∀ code, findFunctionByName funcName = Ok code →
     Snippet code = "" ∧
     ∃ fns function fullFunc,
       GetCachedAnalysisResult sourceDir = Ok fns ∧
       head (filter (λ f, parser.Name f = funcName) fns) = Some function ∧
       fullFunc ∈ fns ∧ parser.ID fullFunc = parser.ID function ∧
       FunctionCodeDef code = parser.DefinitionWithLineNumbers fullFunc).
Proof.
  unfold findFunctionByName.
  destruct (GetCachedAnalysisResult sourceDir) as [fns|err] eqn:Hfns.
  2: { split; [|done]. split; [by intros [? ?]|]. by intros (? & ? & _). }
  assert (find (λ f, bool_decide (parser.Name f = funcName)) fns
          = head (filter (λ f, parser.Name f = funcName) fns)) as Hfind.
  { clear Hfns. induction fns as [|f fns IH]; [done|]. simpl.
    rewrite filter_cons. case_bool_decide.
    - by rewrite decide_True.
    - by rewrite decide_False. }
  rewrite Hfind.
  destruct (head (filter _ fns)) as [function|] eqn:Eh.
  - assert (function ∈ fns ∧ parser.Name function = funcName) as [Hin Hname].
    { apply head_Some_elem_of, list_elem_of_filter in Eh. by destruct Eh. }
    destruct (proj2 (FindFunctionByID_is_Ok sourceDir (parser.ID function)))
      as [fullFunc Hfull].
    { exists fns. split; [done|]. apply list_elem_of_fmap. by exists function. }
    rewrite Hfull.
    destruct (FindFunctionByID_Ok _ _ _ Hfull) as (fns' & Hfns' & Hf & Hid).
    rewrite Hfns in Hfns'. injection Hfns' as <-.
    split.
    + split; [|by eexists]. intros _. exists fns. split; [done|].
      apply list_elem_of_fmap. by exists function.
    + intros code [= <-]. split; [done|]. by exists fns, function, fullFunc.
  - split; [|done]. split; [by intros [? ?]|].
    intros (fns' & [= <-] & (f & Hn & Hf)%list_elem_of_fmap).
    assert (f ∈ filter (λ f, parser.Name f = funcName) fns) as Hin
      by (by apply list_elem_of_filter).
    destruct (filter _ fns); [by apply elem_of_nil in Hin|done].
Qed.

Lemma addIntermediate_fold names finding :
  fold_left addIntermediate names finding
  = mkFinding (FindingCodeQLResult finding)
      (mkSourceCode
         (FreeFunction (FindingSourceCode finding))
         (UseFunction (FindingSourceCode finding))
         (IntermediateFunctions (FindingSourceCode finding) ++
          ((λ funcName,
              match findFunctionByName funcName with
              | Err _ => mkFunctionCode ("// Function " +:+ funcName +:+ " not found") ""
              | Ok funcCode => funcCode
              end) <$> names)))
      (FindingCallValidation finding).
Proof.
  revert finding. induction names as [|name names IH]; intros finding.
  - destruct finding as [r [ff uf ifs] v]. simpl. by rewrite app_nil_r.
  - simpl fold_left. rewrite IH. unfold addIntermediate at 1 2 3 4 5. simpl.
    by rewrite <-app_assoc.
Qed.

Lemma enrichWithSourceCode_base r :
  let base := match enrichWithSourceCode r with
              | Ok finding => finding
              | Err _ => mkFinding r emptySourceCode None
              end in
  FindingCodeQLResult base = r ∧
  IntermediateFunctions (FindingSourceCode base) = [] ∧
  FindingCallValidation base = None.
Proof.
  cbv zeta. unfold enrichWithSourceCode. cbv zeta.
  destruct (FindFunctionByID sourceDir _); [|done].
  by destruct (FindFunctionByID sourceDir _).
Qed.

(** The depth of a valid validation is within the depth budget. *)
Lemma valid_within_budget cg a b callDepth validation :
  ValidateCallRelationship cg a b (if callDepth <? 0 then 10 else callDepth)
  = Some validation →
  IsValid validation = true →
  (0 <=? callDepth) && (MaxDepth validation >? callDepth) = false.
Proof.
  unfold ValidateCallRelationship. intros Hv Hvalid.
  destruct (AnalyzeReachability_valid _ _ _ _ _ Hv Hvalid)
    as (s & t & kind & chain & _ & _ & Hp & ->). simpl.
  apply pairResult_depth in Hp. simpl in Hp.
  destruct (0 <=? callDepth) eqn:E0; [|done]. apply Z.leb_le in E0. simpl.
  rewrite Z.gtb_ltb. apply Z.ltb_ge.
  replace (callDepth <? 0) with false in Hp by (symmetry; apply Z.ltb_ge; lia).
  lia.
Qed.

Lemma processItem_valid cg callDepth item validation :
  ValidateCallRelationship cg (FreeFunctionName (item_result item))
    (UseFunctionName (item_result item))
    (if callDepth <? 0 then 10 else callDepth) = Some validation →
  IsValid validation = true →
  processItem (Some cg) true callDepth item
  = Some ([AddTotal; AddValid],
          mkWorkResult (index item)
            (Some (mkFinding (item_result item)
                     (mkSourceCode
                        (FreeFunction (FindingSourceCode
                           match enrichWithSourceCode (item_result item) with
                           | Ok finding => finding
                           | Err _ => mkFinding (item_result item) emptySourceCode None
                           end))
                        (UseFunction (FindingSourceCode
                           match enrichWithSourceCode (item_result item) with
                           | Ok finding => finding
                           | Err _ => mkFinding (item_result item) emptySourceCode None
                           end))
                        ((λ funcName,
                            match findFunctionByName funcName with
                            | Err _ => mkFunctionCode
                                         ("// Function " +:+ funcName +:+ " not found") ""
                            | Ok funcCode => funcCode
                            end) <$>
                         extractIntermediateFunctions (CallChains validation)
                           (FreeFunctionName (item_result item))
                           (UseFunctionName (item_result item))))
                     (Some validation)))
            None).
Proof.
  intros Hv Hvalid. unfold processItem. cbv zeta.
  rewrite Hv. cbn [mbind option_bind]. rewrite Hvalid.
  rewrite (valid_within_budget _ _ _ _ _ Hv Hvalid).
  rewrite addIntermediate_fold.
  destruct (enrichWithSourceCode_base (item_result item)) as (Hr & Hi & _).
  cbv zeta in Hr, Hi. cbn [FindingCodeQLResult FindingSourceCode
    FindingCallValidation FreeFunction UseFunction IntermediateFunctions].
  by rewrite Hr, Hi.
Qed.

Lemma processItem_invalid cg callDepth item validation :
  ValidateCallRelationship cg (FreeFunctionName (item_result item))
    (UseFunctionName (item_result item))
    (if callDepth <? 0 then 10 else callDepth) = Some validation →
  IsValid validation = false →
  processItem (Some cg) true callDepth item
  = Some ([AddTotal; AddInvalid], mkWorkResult (index item) None None).
Proof.
  intros Hv Hvalid. unfold processItem. cbv zeta.
  rewrite Hv. cbn [mbind option_bind]. by rewrite Hvalid.
Qed.

(** What a worker sends for a result under validation.  If the two
    functions are related it sends the finding, carrying the validation
    and one entry per intermediate function: the code found for its name,
    or a comment saying that the function was not found.  The depth test
    never rejects such a finding.  If they are not related it sends no
    finding. *)
Theorem worker_sends_related_findings cg callDepth item validation :
  let r := item_result item in
  ValidateCallRelationship cg (FreeFunctionName r) (UseFunctionName r)
    (if callDepth <? 0 then 10 else callDepth) = Some validation →
  (IsValid validation = true →
   ∃ finding,
     processItem (Some cg) true callDepth item
     = Some ([AddTotal; AddValid], mkWorkResult (index item) (Some finding) None) ∧
     FindingCodeQLResult finding = r ∧
     FindingCallValidation finding = Some validation ∧
     IntermediateFunctions (FindingSourceCode finding)
     = (λ funcName,
          match findFunctionByName funcName with
          | Err _ => mkFunctionCode ("// Function " +:+ funcName +:+ " not found") ""
          | Ok funcCode => funcCode
          end) <$>
       extractIntermediateFunctions (CallChains validation)
         (FreeFunctionName r) (UseFunctionName r)) ∧
  (IsValid validation = false →
   processItem (Some cg) true callDepth item
   = Some ([AddTotal; AddInvalid], mkWorkResult (index item) None None)).
Proof.
  cbv zeta. intros Hv. split; intros Hvalid.
  - eexists. split; [by apply processItem_valid|]. done.
  - by apply (processItem_invalid _ _ _ validation).
Qed.

Lemma accepted_iff_valid cg callDepth r :
  accepted (Some cg) true callDepth r = true ↔
  IsValid <$> ValidateCallRelationship cg (FreeFunctionName r) (UseFunctionName r)
                (if callDepth <? 0 then 10 else callDepth) = Some true.
Proof.
  unfold accepted.
  destruct (ValidateCallRelationship _ _ _ _) as [validation|] eqn:Hv; [|done].
  simpl. destruct (IsValid validation) eqn:Hvalid.
  - by rewrite (valid_within_budget _ _ _ _ _ Hv Hvalid).
  - done.
Qed.

(** The findings of a run, whatever the schedule of its workers. *)
Lemma EnrichResults_findings results callGraph validateCalls callDepth
    concurrency sched :
  completion sched ≡ₚ seq 0 (length results) →
  EnrichResults results callGraph validateCalls callDepth concurrency sched
  = Some (omap (findingOf callGraph validateCalls callDepth) (workItems results),
          None,
          if validateCalls
          then Some (fold_left applyOp (atomics sched) (mkStats 0 0 0))
          else None).
Proof.
  intros Hperm. unfold EnrichResults.
  destruct (workers_outcomes callGraph validateCalls callDepth results)
    as (outcomes & -> & Hlen & Hidx & Hfind & _).
  simpl. do 3 f_equal.
  rewrite <-Hfind, <-Hlen, <-(length_fmap snd outcomes).
  rewrite <-buildOrdered_collect with (completion := completion sched).
  - do 2 f_equal. apply list_omap_ext, Forall2_same_length_lookup_2; [done|].
    intros j a b Ha Hb. rewrite Ha in Hb. injection Hb as <-.
    by rewrite list_lookup_fmap.
  - intros j r Hj. by apply Hidx.
  - by rewrite length_fmap, Hlen.
Qed.

(** What the workers send under validation, over all results. *)
Lemma validated_findings cg callDepth results :
  FindingCodeQLResult <$>
    omap (findingOf (Some cg) true callDepth) (workItems results)
  = filter (λ r, IsValid <$> ValidateCallRelationship cg
                   (FreeFunctionName r) (UseFunctionName r)
                   (if callDepth <? 0 then 10 else callDepth) = Some true)
           results ∧
  Forall (λ finding,
            ∃ validation,
              FindingCallValidation finding = Some validation ∧
              IsValid validation = true ∧
              ValidateCallRelationship cg
                (FreeFunctionName (FindingCodeQLResult finding))
                (UseFunctionName (FindingCodeQLResult finding))
                (if callDepth <? 0 then 10 else callDepth) = Some validation)
         (omap (findingOf (Some cg) true callDepth) (workItems results)).
Proof.
  split.
  - rewrite accepted_findings. apply list_filter_iff.
    intros r. apply accepted_iff_valid.
  - apply Forall_forall. intros finding Hin.
    apply list_elem_of_omap in Hin as (item & _ & Hf).
    unfold findingOf in Hf.
    destruct (ValidateCallRelationship cg (FreeFunctionName (item_result item))
                (UseFunctionName (item_result item))
                (if callDepth <? 0 then 10 else callDepth))
      as [validation|] eqn:Hv.
    2: { unfold ValidateCallRelationship in Hv.
         destruct (AnalyzeReachability_total cg (FreeFunctionName (item_result item))
                     (UseFunctionName (item_result item))
                     (if callDepth <? 0 then 10 else callDepth)) as [? E].
         by rewrite E in Hv. }
    destruct (IsValid validation) eqn:Hvalid.
    + rewrite (processItem_valid _ _ _ _ Hv Hvalid) in Hf. simpl in Hf.
      injection Hf as <-. simpl. by exists validation.
    + by rewrite (processItem_invalid _ _ _ _ Hv Hvalid) in Hf.
Qed.

(** Under validation, the results [EnrichResults] keeps are exactly those
    whose free and use functions the analyzer finds related, in their
    input order, whatever the depth budget [callDepth]: the budget bounds
    the search, and filters nothing afterwards.  Every finding returned
    carries its validation, which is valid. *)
Theorem validation_keeps_the_related_results results cg callDepth concurrency
    sched :
  completion sched ≡ₚ seq 0 (length results) →
  ∃ enrichedResults stats,
    EnrichResults results (Some cg) true callDepth concurrency sched
    = Some (enrichedResults, None, Some stats) ∧
    FindingCodeQLResult <$> enrichedResults
    = filter (λ r, IsValid <$> ValidateCallRelationship cg
                     (FreeFunctionName r) (UseFunctionName r)
                     (if callDepth <? 0 then 10 else callDepth) = Some true)
             results ∧
    Forall (λ finding,
              ∃ validation,
                FindingCallValidation finding = Some validation ∧
                IsValid validation = true ∧
                ValidateCallRelationship cg
                  (FreeFunctionName (FindingCodeQLResult finding))
                  (UseFunctionName (FindingCodeQLResult finding))
                  (if callDepth <? 0 then 10 else callDepth) = Some validation)
           enrichedResults.
Proof.
  intros Hperm. rewrite EnrichResults_findings by done.
  eexists _, _. split; [done|]. apply validated_findings.
Qed.

Lemma omap_workItems {B} (h : CodeQLResult → B) results :
  omap (λ item, Some (h (item_result item))) (workItems results) = h <$> results.
Proof.
  unfold workItems.
  assert (∀ (mk : nat → CodeQLResult → workItem),
            (∀ i r, item_result (mk i r) = r) →
            omap (λ item, Some (h (item_result item))) (imap mk results)
            = h <$> results) as H.
  { induction results as [|r results IH]; intros mk Hmk; [done|].
    rewrite imap_cons. simpl. rewrite Hmk. f_equal. apply IH.
    intros i r'. apply Hmk. }
  by apply H.
Qed.

(** Raising [maxDepth] never loses a relationship, and beyond the cap of
    5 it changes nothing: between two depths of 5 or more only the depth
    quoted in the details of a negative result differs. *)
Theorem larger_depth_finds_no_less cg sourceFuncName targetFuncName d d' :
  d ≤ d' →
  (IsValid <$> AnalyzeReachability cg sourceFuncName targetFuncName d = Some true →
   IsValid <$> AnalyzeReachability cg sourceFuncName targetFuncName d' = Some true) ∧
  (5 ≤ d →
   ∃ r r',
     AnalyzeReachability cg sourceFuncName targetFuncName d = Some r ∧
     AnalyzeReachability cg sourceFuncName targetFuncName d' = Some r' ∧
     IsValid r = IsValid r' ∧ Reason r = Reason r' ∧
     CallChains r = CallChains r' ∧ CommonCallers r = CommonCallers r' ∧
     MinDepth r = MinDepth r' ∧ MaxDepth r = MaxDepth r' ∧
     (IsValid r = true → r = r')).
Proof.
  intros Hle. split; [by apply IsValid_monotone|].
  intros H5. apply AnalyzeReachability_beyond_cap; lia.
Qed.

(** [calculatePathDepths] fails (it indexes [path[len(path)-1]]) exactly
    when it is given two or more chains and one of them is empty; a single
    empty chain is given the depth -1.  For one or more chains, the minimum
    it reports is the depth of a shortest chain; the maximum is at least
    the depth of every chain, and it is the depth of a longest chain or the
    sum of the depths of the first chain and of a chain that ends in
    another function. *)
Theorem calculatePathDepths_fails_or_bounds paths :
  (calculatePathDepths paths = None ↔ (2 ≤ length paths)%nat ∧ [] ∈ paths) ∧
  calculatePathDepths [[]] = Some (-1, -1) ∧
  (∀ mn mx,
     paths ≠ [] → calculatePathDepths paths = Some (mn, mx) →
     (∀ p, p ∈ paths → mn ≤ len p - 1 ≤ mx) ∧
     (∃ p, p ∈ paths ∧ mn = len p - 1) ∧
     ((∃ p, p ∈ paths ∧ mx = len p - 1) ∨
      (∃ first rest p, paths = first :: rest ∧ p ∈ rest ∧ last p ≠ last first ∧
                       mx = (len first - 1) + (len p - 1)))).
Proof.
  split; [apply calculatePathDepths_None|]. split; [done|].
  intros mn mx. apply calculatePathDepths_Some.
Qed.

Lemma unvalidated_findings callGraph validateCalls callDepth results :
  validateCalls = false ∨ callGraph = None →
  omap (findingOf callGraph validateCalls callDepth) (workItems results)
  = (λ r, match enrichWithSourceCode r with
          | Ok finding => finding
          | Err _ => mkFinding r emptySourceCode None
          end) <$> results.
Proof.
  intros Hoff.
  assert (∀ item, findingOf callGraph validateCalls callDepth item
                  = Some (match enrichWithSourceCode (item_result item) with
                          | Ok finding => finding
                          | Err _ => mkFinding (item_result item) emptySourceCode None
                          end)) as Hf.
  { intros item. unfold findingOf, processItem.
    by destruct Hoff as [-> | ->]; [|destruct validateCalls]. }
  rewrite <-omap_workItems. apply list_omap_ext, Forall2_same_length_lookup_2;
    [done|]. intros j a b Ha Hb. rewrite Ha in Hb. injection Hb as <-.
  apply Hf.
Qed.

(** Without validation (switched off, or no call graph given) nothing is
    filtered: [EnrichResults] returns one finding per result, in the input
    order, with the source code enrichment found for it or, when
    enrichment failed, with empty source code; no finding carries a
    validation, and the statistics count nothing. *)
Theorem without_validation_every_result_is_kept results callGraph validateCalls
    callDepth concurrency sched :
  validateCalls = false ∨ callGraph = None →
  completion sched ≡ₚ seq 0 (length results) →
  ∃ enrichedResults stats,
    EnrichResults results callGraph validateCalls callDepth concurrency sched
    = Some (enrichedResults, None, stats) ∧
    enrichedResults
    = (λ r, match enrichWithSourceCode r with
            | Ok finding => finding
            | Err _ => mkFinding r emptySourceCode None
            end) <$> results ∧
    FindingCodeQLResult <$> enrichedResults = results ∧
    Forall (λ finding, FindingCallValidation finding = None) enrichedResults ∧
    (atomics sched
       ≡ₚ concat (opsOf callGraph validateCalls callDepth <$> results) →
     stats = if validateCalls then Some (mkStats 0 0 0) else None).
Proof.
  intros Hoff Hperm. rewrite EnrichResults_findings by done.
  eexists _, _. split; [done|].
  rewrite unvalidated_findings by done.
  split; [done|]. split; [|split].
  - rewrite <-list_fmap_compose. rewrite <-(list_fmap_id results) at 2.
    apply list_fmap_ext. intros i r _.
    by destruct (enrichWithSourceCode_base r) as (Hr & _).
  - apply Forall_fmap, Forall_forall. intros r _.
    by destruct (enrichWithSourceCode_base r) as (_ & _ & Hv).
  - intros Hat. destruct validateCalls; [|done]. f_equal.
    assert (concat (opsOf callGraph true callDepth <$> results) = []) as E.
    { destruct Hoff as [?| ->]; [done|]. clear.
      induction results as [|r results IH]; [done|].
      change (concat (opsOf None true callDepth <$> r :: results))
        with (opsOf None true callDepth r ++
              concat (opsOf None true callDepth <$> results)).
      by rewrite IH. }
    rewrite E in Hat. by apply Permutation_nil_r in Hat as ->.
Qed.

(** ** The analysis pipeline on the worker pool *)

Lemma firstError_None {TIn TOut} (processor : TIn → TOut * option error)
    (items : list TIn) (completion : list nat) :
  completion ≡ₚ seq 0 (length items) →
  firstError processor items completion = None ↔
  ∀ item, item ∈ items → (processor item).2 = None.
Proof.
  intros Hperm. unfold firstError. split.
  - intros H item (i & Hi)%list_elem_of_lookup.
    assert (i ∈ completion) as Hin.
    { rewrite Hperm. apply elem_of_seq. apply lookup_lt_Some in Hi. lia. }
    pose proof (firstSome_None _ _ H i Hin) as Hn. simpl in Hn.
    by rewrite Hi in Hn.
  - intros H. apply firstSome_all_None. intros i _.
    destruct (items !! i) as [item|] eqn:Hi; [|done]. simpl.
    apply H. by eapply list_elem_of_lookup_2.
Qed.

(** The pool never has fewer than one worker. *)
Lemma NewWorkerPool_positive concurrency : 1 ≤ NewWorkerPool concurrency.
Proof.
  unfold NewWorkerPool. destruct (concurrency <=? 0) eqn:E; [lia|].
  apply Z.leb_gt in E. lia.
Qed.

(** On top of the pool, which hands back every item's result together
    with the first error, [processWithWorkerPool] is all or nothing: when
    no item fails it returns the input's header fields with every item's
    result at the item's position; when an item fails it returns no output
    at all, only the first error to arrive, under the operation's name. *)
Theorem pipeline_is_all_or_nothing {R} (zero : R) concurrency
    (input : UnifiedOutput R) operationName
    (processor : R → R * option error) completion :
  completion ≡ₚ seq 0 (length (Results input)) →
  processWithWorkerPool zero concurrency input operationName processor completion
  = match firstError processor (Results input) completion with
    | Some err => Err (operationName +:+ " processing failed: " +:+ err)
    | None => Ok (mkUnifiedOutput (QueryFile input) (Database input) (SrcDir input)
                    ((λ item, (processor item).1) <$> Results input))
    end ∧
  (firstError processor (Results input) completion = None ↔
   ∀ item, item ∈ Results input → (processor item).2 = None) ∧
  1 ≤ NewWorkerPool concurrency.
Proof.
  intros Hperm. split; [|split].
  - unfold processWithWorkerPool. by rewrite ProcessItems_complete.
  - by apply firstError_None.
  - apply NewWorkerPool_positive.
Qed.

(** ** Decoding the query output *)

Lemma headerMap_snoc header col :
  headerMap (header ++ [col]) = <[col := length header]> (headerMap header).
Proof.
  unfold headerMap. rewrite imap_app, fold_left_app. simpl.
  by rewrite Nat.add_0_r.
Qed.

(** A column name is looked up at its last position in the header. *)
Lemma headerMap_lookup header name i :
  headerMap header !! name = Some i ↔
  header !! i = Some name ∧ ∀ j, (i < j)%nat → header !! j ≠ Some name.
Proof.
  revert i. induction header as [|col header IH] using rev_ind; intros i.
  - unfold headerMap. simpl. rewrite lookup_empty. split; [done|]. by intros [? _].
  - rewrite headerMap_snoc. destruct (decide (col = name)) as [->|Hne].
    + rewrite lookup_insert_eq. split.
      * intros [= <-]. split; [by rewrite list_lookup_middle|].
        intros j Hj. rewrite lookup_ge_None_2; [done|].
        rewrite length_app. simpl. lia.
      * intros [Hi Hlast]. f_equal.
        pose proof (lookup_lt_Some _ _ _ Hi) as Hlt.
        rewrite length_app in Hlt. simpl in Hlt.
        destruct (decide (i = length header)) as [|Hn]; [done|]. exfalso.
        apply (Hlast (length header)); [lia|]. by rewrite list_lookup_middle.
    + rewrite lookup_insert_ne by done. rewrite IH. split.
      * intros [Hi Hlast]. split; [by apply lookup_app_l_Some|].
        intros j Hj Hc.
        apply lookup_app_Some in Hc as [Hc|[Hge Hc]]; [by apply (Hlast j)|].
        by apply list_lookup_singleton_Some in Hc as [_ ?].
      * intros [Hi Hlast]. apply lookup_app_Some in Hi as [Hi|[Hge Hi]].
        -- split; [done|]. intros j Hj Hc. apply (Hlast j Hj).
           by apply lookup_app_l_Some.
        -- by apply list_lookup_singleton_Some in Hi as [_ ?].
Qed.

Lemma headerMap_is_Some header name :
  is_Some (headerMap header !! name) ↔ name ∈ header.
Proof.
  induction header as [|col header IH] using rev_ind.
  - unfold headerMap. simpl. rewrite lookup_empty. split; [by intros [? ?]|].
    by intros ?%elem_of_nil.
  - rewrite headerMap_snoc, lookup_insert_is_Some', IH, elem_of_app,
      list_elem_of_singleton.
    split; (intros [?|?]; [by right|by left]).
Qed.

(** In a record as wide as the header, every column named in the header
    has a cell. *)
Lemma field_Some header row name :
  name ∈ header → length row = length header →
  ∃ i cell, header !! i = Some name ∧
            (∀ j, (i < j)%nat → header !! j ≠ Some name) ∧
            row !! i = Some cell ∧
            field (headerMap header) row name = Some cell.
Proof.
  intros Hin Hlen. apply headerMap_is_Some in Hin as [i Hi].
  pose proof Hi as [Hh Hlast]%headerMap_lookup.
  destruct (lookup_lt_is_Some_2 row i) as [cell Hcell].
  { rewrite Hlen. by eapply lookup_lt_Some. }
  exists i, cell. repeat split; try done.
  unfold field. by rewrite Hi.
Qed.

(** Decoding one record.  When the header names the nine required columns
    and the record is as wide as the header, decoding does not go out of
    range; each field is read from the last column of its name; the record
    is decoded when its four line-number cells are integers, and otherwise
    the error names the first cell that is not. *)
Theorem csv_record_fields header row :
  Forall (λ name, name ∈ header) requiredFields →
  length row = length header →
  ∃ cell : string → string,
    (∀ name, name ∈ requiredFields →
       ∃ i, header !! i = Some name ∧
            (∀ j, (i < j)%nat → header !! j ≠ Some name) ∧
            row !! i = Some (cell name)) ∧
    parseRecord (headerMap header) row
    = Some
        match strconv_Atoi (cell "free_func_def_ln") with
        | Err _ => Err ("invalid ffDefLine value: " +:+ cell "free_func_def_ln")
        | Ok ffDefLine =>
        match strconv_Atoi (cell "free_ln") with
        | Err _ => Err ("invalid freeLine value: " +:+ cell "free_ln")
        | Ok freeLine =>
        match strconv_Atoi (cell "use_func_def_ln") with
        | Err _ => Err ("invalid fuDefLine value: " +:+ cell "use_func_def_ln")
        | Ok fuDefLine =>
        match strconv_Atoi (cell "use_ln") with
        | Err _ => Err ("invalid use_ln value: " +:+ cell "use_ln")
        | Ok useLine =>
            Ok (mkCodeQLResult (cell "object") (cell "free_func") (cell "free_file")
                               ffDefLine freeLine
                               (cell "use_func") (cell "use_file")
                               fuDefLine useLine)
        end end end end.
Proof.
  intros Hreq Hlen.
  exists (λ name, default "" (field (headerMap header) row name)).
  rewrite Forall_forall in Hreq.
  assert (∀ name, name ∈ requiredFields →
            field (headerMap header) row name
            = Some (default "" (field (headerMap header) row name))) as Hfield.
  { intros name Hname.
    destruct (field_Some header row name (Hreq name Hname) Hlen)
      as (i & cell & _ & _ & _ & ->). done. }
  split.
  - intros name Hname.
    destruct (field_Some header row name (Hreq name Hname) Hlen)
      as (i & cell & Hh & Hlast & Hcell & ->). by exists i.
  - unfold parseRecord.
    rewrite (Hfield "free_func_def_ln") by (unfold requiredFields; repeat constructor).
    cbn [mbind option_bind]. destruct (strconv_Atoi _); [|done].
    rewrite (Hfield "free_ln") by (unfold requiredFields; repeat constructor).
    cbn [mbind option_bind]. destruct (strconv_Atoi _); [|done].
    rewrite (Hfield "use_func_def_ln") by (unfold requiredFields; repeat constructor).
    cbn [mbind option_bind]. destruct (strconv_Atoi _); [|done].
    rewrite (Hfield "use_ln") by (unfold requiredFields; repeat constructor).
    cbn [mbind option_bind]. destruct (strconv_Atoi _); [|done].
    rewrite (Hfield "object") by (unfold requiredFields; repeat constructor).
    rewrite (Hfield "free_func") by (unfold requiredFields; repeat constructor).
    rewrite (Hfield "free_file") by (unfold requiredFields; repeat constructor).
    rewrite (Hfield "use_func") by (unfold requiredFields; repeat constructor).
    rewrite (Hfield "use_file") by (unfold requiredFields; repeat constructor).
    done.
Qed.

Lemma parseRecord_total header row :
  Forall (λ name, name ∈ header) requiredFields →
  length row = length header →
  is_Some (parseRecord (headerMap header) row).
Proof.
  intros Hreq Hlen. rewrite Forall_forall in Hreq.
  assert (∀ name, name ∈ requiredFields →
            is_Some (field (headerMap header) row name)) as Hfield.
  { intros name Hname.
    destruct (field_Some header row name (Hreq name Hname) Hlen)
      as (i & cell & _ & _ & _ & ->). done. }
  unfold parseRecord.
  destruct (Hfield "free_func_def_ln") as [? ->];
    [unfold requiredFields; repeat constructor|].
  cbn [mbind option_bind]. destruct (strconv_Atoi _); [|done].
  destruct (Hfield "free_ln") as [? ->]; [unfold requiredFields; repeat constructor|].
  cbn [mbind option_bind]. destruct (strconv_Atoi _); [|done].
  destruct (Hfield "use_func_def_ln") as [? ->];
    [unfold requiredFields; repeat constructor|].
  cbn [mbind option_bind]. destruct (strconv_Atoi _); [|done].
  destruct (Hfield "use_ln") as [? ->]; [unfold requiredFields; repeat constructor|].
  cbn [mbind option_bind]. destruct (strconv_Atoi _); [|done].
  destruct (Hfield "object") as [? ->]; [unfold requiredFields; repeat constructor|].
  destruct (Hfield "free_func") as [? ->]; [unfold requiredFields; repeat constructor|].
  destruct (Hfield "free_file") as [? ->]; [unfold requiredFields; repeat constructor|].
  destruct (Hfield "use_func") as [? ->]; [unfold requiredFields; repeat constructor|].
  destruct (Hfield "use_file") as [? ->]; [unfold requiredFields; repeat constructor|].
  done.
Qed.

(** The loop over the records stops at the first record that does not
    decode. *)
Lemma parseRecords_spec hm rows acc :
  Forall (λ row, is_Some (parseRecord hm row)) rows →
  (∃ results,
     parseRecords hm rows acc = Some (Ok (acc ++ results)) ∧
     Forall2 (λ row result, parseRecord hm row = Some (Ok result)) rows results) ∨
  (∃ before row after err,
     rows = before ++ row :: after ∧
     Forall (λ row, ∃ result, parseRecord hm row = Some (Ok result)) before ∧
     parseRecord hm row = Some (Err err) ∧
     parseRecords hm rows acc = Some (Err err)).
Proof.
  intros Hall. revert acc. induction Hall as [|row rows [r Hr] _ IH]; intros acc.
  - left. exists []. simpl. by rewrite app_nil_r.
  - simpl. rewrite Hr. cbn [mbind option_bind]. destruct r as [result|err].
    + destruct (IH (acc ++ [result]))
        as [(results & -> & HF)|(before & bad & after & err & -> & Hb & Hbad & ->)].
      * left. exists (result :: results). rewrite <-app_assoc.
        split; [done|]. by constructor.
      * right. exists (row :: before), bad, after, err.
        repeat split; try done. constructor; [by exists result|done].
    + right. by exists [], row, rows, err.
Qed.

(** Decoding the query output is all or nothing.  A reader error and a
    header that lacks a required column (the first missing one is named,
    even when there is no record to decode) are errors; no records at all
    is the empty list.  Otherwise, with records as wide as the header
    (which the CSV reader ensures), either every record decodes, and there
    is one result per record in their order, or the result is the error of
    the first record that does not decode, and nothing else. *)
Theorem csv_decoding_is_all_or_nothing csvData :
  match csv_ReadAll csvData with
  | Err err => parseCSVOutput csvData = Some (Err ("failed to parse CSV: " +:+ err))
  | Ok [] => parseCSVOutput csvData = Some (Ok [])
  | Ok (header :: rows) =>
      match find (λ name, bool_decide (name ∉ header)) requiredFields with
      | Some name =>
          parseCSVOutput csvData
          = Some (Err ("required field '" +:+ name +:+ "' not found in CSV header"))
      | None =>
          Forall (λ row, length row = length header) rows →
          (∃ results,
             parseCSVOutput csvData = Some (Ok results) ∧
             Forall2 (λ row result,
                        parseRecord (headerMap header) row = Some (Ok result))
                     rows results) ∨
          (∃ before row after err,
             rows = before ++ row :: after ∧
             Forall (λ row, ∃ result,
                       parseRecord (headerMap header) row = Some (Ok result))
                    before ∧
             parseRecord (headerMap header) row = Some (Err err) ∧
             parseCSVOutput csvData = Some (Err err))
      end
  end.
Proof.
  unfold parseCSVOutput.
  destruct (csv_ReadAll csvData) as [[|header rows]|err]; [done| |done].
  cbv zeta.
  assert (∀ l, find (λ name, bool_decide (headerMap header !! name = None)) l
               = find (λ name, bool_decide (name ∉ header)) l) as Hfind.
  { induction l as [|name l IH]; [done|]. simpl. rewrite IH.
    erewrite bool_decide_ext; [done|].
    rewrite <-headerMap_is_Some, eq_None_not_Some. done. }
  rewrite Hfind.
  destruct (find _ requiredFields) as [name|] eqn:E; [done|].
  intros Hrect.
  assert (Forall (λ name, name ∈ header) requiredFields) as Hreq.
  { apply Forall_forall. intros name Hname%list_elem_of_In.
    pose proof (find_none _ _ E name Hname) as Hn. simpl in Hn.
    apply bool_decide_eq_false in Hn.
    by destruct (decide (name ∈ header)). }
  destruct (parseRecords_spec (headerMap header) rows [])
    as [(results & Hp & HF)|(before & row & after & err & Hrows & Hb & Hbad & Hp)].
  - eapply Forall_impl; [exact Hrect|]. intros row Hlen.
    by apply parseRecord_total.
  - left. by exists results.
  - right. by exists before, row, after, err.
Qed.

(** ** The query command *)

Lemma queryCmd_RunE_unfold database queryFile codeqlBin executor codeqlResults
    noValidate callDepth queryConcurrency sched :
  database ≠ "" → queryFile ≠ "" → sourceDir ≠ "" →
  NewExecutor codeqlBin = Ok executor →
  CheckCodeQLAvailable executor = None →
  RunQuery executor database queryFile = Ok codeqlResults →
  completion sched ≡ₚ seq 0 (length codeqlResults) →
  queryCmd_RunE database queryFile codeqlBin noValidate callDepth
                queryConcurrency sched
  = match (if negb noValidate then
             match GetCachedAnalysisResult sourceDir with
             | Err err => Err ("failed to parse source code for call graph: " +:+ err)
             | Ok fns => Ok (Some (BuildCallGraph fns))
             end
           else Ok None) with
    | Err err => Some (Err err)
    | Ok callGraph =>
        Some (Ok (mkUnifiedOutput queryFile database sourceDir
                    ((λ finding, mkUnifiedResult (FindingCodeQLResult finding)
                                                 (FindingSourceCode finding)
                                                 (FindingCallValidation finding))
                     <$> omap (findingOf callGraph (negb noValidate) callDepth)
                              (workItems codeqlResults))))
    end.
Proof.
  intros Hd Hq Hs Hex Hav Hrun Hperm. unfold queryCmd_RunE.
  rewrite !decide_False by done. rewrite Hex, Hav, Hrun. cbv zeta.
  destruct (if negb noValidate then _ else _) as [callGraph|err]; [|done].
  by rewrite EnrichResults_findings.
Qed.

(** The query command needs the parsed source tree only to validate.  When
    the tree cannot be parsed, the command fails if validation is on (the
    default); with [--no-validate] it prints every result of the query, in
    order, with empty source code and no validation, and each yields a
    request whose single chain is the pair of its two functions. *)
Theorem query_needs_sources_only_to_validate database queryFile codeqlBin
    executor codeqlResults err noValidate callDepth queryConcurrency sched :
  database ≠ "" → queryFile ≠ "" → sourceDir ≠ "" →
  NewExecutor codeqlBin = Ok executor →
  CheckCodeQLAvailable executor = None →
  RunQuery executor database queryFile = Ok codeqlResults →
  GetCachedAnalysisResult sourceDir = Err err →
  completion sched ≡ₚ seq 0 (length codeqlResults) →
  queryCmd_RunE database queryFile codeqlBin noValidate callDepth
                queryConcurrency sched
  = (if noValidate then
       Some (Ok (mkUnifiedOutput queryFile database sourceDir
                   ((λ r, mkUnifiedResult r emptySourceCode None) <$> codeqlResults)))
     else Some (Err ("failed to parse source code for call graph: " +:+ err))) ∧
  Forall (λ r, RequestCallChains
                 (createCodeQLRequest (mkUnifiedResult r emptySourceCode None))
               = [[FreeFunctionName r; UseFunctionName r]])
         codeqlResults.
Proof.
  intros Hd Hq Hs Hex Hav Hrun Hparse Hperm. split; [|by apply Forall_forall].
  rewrite (queryCmd_RunE_unfold _ _ _ executor codeqlResults) by done.
  rewrite Hparse. destruct noValidate; simpl; [|done].
  rewrite unvalidated_findings by (by left).
  do 3 f_equal. rewrite <-list_fmap_compose. apply list_fmap_ext.
  intros i r _. simpl. unfold enrichWithSourceCode, FindFunctionByID.
  by rewrite Hparse.
Qed.

(** With validation on and the source tree parsed, the query command
    prints exactly the results of the query whose free and use functions
    are related in the call graph of the parsed functions, in the order of
    the query; each carries its validation, and yields a request with the
    one chain found. *)
Theorem query_prints_the_related_results database queryFile codeqlBin executor
    codeqlResults fns callDepth queryConcurrency sched :
  database ≠ "" → queryFile ≠ "" → sourceDir ≠ "" →
  NewExecutor codeqlBin = Ok executor →
  CheckCodeQLAvailable executor = None →
  RunQuery executor database queryFile = Ok codeqlResults →
  GetCachedAnalysisResult sourceDir = Ok fns →
  completion sched ≡ₚ seq 0 (length codeqlResults) →
  ∃ output,
    queryCmd_RunE database queryFile codeqlBin false callDepth
                  queryConcurrency sched = Some (Ok output) ∧
    QueryFile output = queryFile ∧ Database output = database ∧
    SrcDir output = sourceDir ∧
    UnifiedCodeQLResult <$> Results output
    = filter (λ r, IsValid <$> AnalyzeReachability (BuildCallGraph fns)
                     (FreeFunctionName r) (UseFunctionName r)
                     (if callDepth <? 0 then 10 else callDepth) = Some true)
             codeqlResults ∧
    Forall (λ result,
              ∃ validation chain,
                UnifiedCallValidation result = Some validation ∧
                IsValid validation = true ∧
                CallChains validation = [chain] ∧
                RequestCallChains (createCodeQLRequest result) = [chain])
           (Results output).
Proof.
  intros Hd Hq Hs Hex Hav Hrun Hparse Hperm.
  rewrite (queryCmd_RunE_unfold _ _ _ executor codeqlResults) by done.
  rewrite Hparse. simpl. eexists. split; [done|]. simpl.
  split; [done|]. split; [done|]. split; [done|].
  destruct (validated_findings (BuildCallGraph fns) callDepth codeqlResults)
    as [Hkept Hall].
  split.
  - rewrite <-list_fmap_compose. exact Hkept.
  - apply Forall_fmap. eapply Forall_impl; [exact Hall|].
    intros finding (validation & Hv & Hvalid & Hrel). simpl.
    unfold ValidateCallRelationship in Hrel.
    destruct (AnalyzeReachability_valid _ _ _ _ _ Hrel Hvalid)
      as (s & t & kind & chain & _ & _ & _ & Hr).
    exists validation, chain. split; [done|]. split; [done|].
    assert (CallChains validation = [chain]) as Hc by (by rewrite Hr).
    split; [done|].
    unfold createCodeQLRequest. simpl. by rewrite Hv, Hc.
Qed.

End Engine.

(** * The properties on the example programs *)

Lemma chain_shortest_path :
  graph.ShortestPath (g chainGraph) "src/chain.c:1:f0" "src/chain.c:8:f7"
  = Some ["src/chain.c:1:f0"; "src/chain.c:2:f1"; "src/chain.c:3:f2";
          "src/chain.c:4:f3"; "src/chain.c:5:f4"; "src/chain.c:6:f5";
          "src/chain.c:7:f6"; "src/chain.c:8:f7"].
Proof. vm_compute. reflexivity. Qed.

(** C1 on the chain: the shortest path from [f0] to [f7] has 7 edges, the
    caller asks for [maxDepth = 10], and no path is reported: the result
    is the negative one. *)
Lemma search_cap_truncates_chain :
  (findPaths (newAnalyzer chainGraph "f0" "f7" 10)
             "src/chain.c:1:f0" "src/chain.c:8:f7" = [] ∧
   relationshipType
     (analyzePair (newAnalyzer chainGraph "f0" "f7" 10)
                  "src/chain.c:1:f0" "src/chain.c:8:f7")
   ≠ ForwardReachable) ∧
  AnalyzeReachability elements chainGraph "f0" "f7" 10
  = Some (mkReachabilityAnalysis false
            "No reachability relationship found between functions" [] []
            "No direct calls, reverse calls, or common callers found between f0 and f7 within depth 10"
            0 0).
Proof.
  split.
  - apply search_cap_truncates. intros p Hp.
    pose proof (ShortestPath_minimal (g chainGraph) _ _ _ p chain_shortest_path Hp)
      as Hlen.
    cbn [length] in Hlen. unfold len. lia.
  - vm_compute. reflexivity.
Defined.

(** C5 on the chain: [dealloc] is not a function of it. *)
Lemma missing_name_on_chain :
  lookupIDs chainGraph "dealloc" = [] ∧
  ∃ r, AnalyzeReachability elements chainGraph "dealloc" "f3" 10 = Some r ∧
       IsValid r = false ∧ CallChains r = [] ∧
       ((lookupIDs chainGraph "dealloc" = [] ∧
         Reason r = "Free function not found in call graph") ∨
        (lookupIDs chainGraph "dealloc" ≠ [] ∧ lookupIDs chainGraph "f3" = [] ∧
         Reason r = "Use function not found in call graph")).
Proof.
  split; [vm_compute; reflexivity|].
  apply (missing_name_gives_negative_result elements chainGraph "dealloc" "f3" 10).
  left. vm_compute. reflexivity.
Defined.

(** C6 on two branches below a common caller [main]: depths 2 and 1. *)
Lemma common_ancestor_depth_example :
  calculatePathDepths [["main"; "cleanup"; "release"]; ["main"; "touch"]]
  = Some (1, 3).
Proof.
  apply (common_ancestor_depth_is_sum ["main"; "cleanup"; "release"]
                                      ["main"; "touch"]); done.
Defined.

(** C2 on the chain, with a depth budget of 2 and the third item
    completing first: the first and third findings are returned, in that
    order. *)
Lemma enriched_results_on_chain :
  completion lateFirst ≡ₚ seq 0 (length chainResults) ∧
  ∃ enrichedResults stats,
    EnrichResults elements chainTree oneLine joinPath "src" chainResults
                  (Some chainGraph) true 2 4 lateFirst
    = Some (enrichedResults, None, stats) ∧
    enrichedResults
    = omap (findingOf elements chainTree oneLine joinPath "src"
                      (Some chainGraph) true 2)
           (workItems chainResults) ∧
    FindingCodeQLResult <$> enrichedResults
    = filter (λ r, accepted elements (Some chainGraph) true 2 r = true)
             chainResults.
Proof.
  assert (completion lateFirst ≡ₚ seq 0 (length chainResults)) as Hperm
    by (apply (bool_decide_unpack _); vm_compute; reflexivity).
  split; [exact Hperm|].
  exact (enriched_results_keep_input_order elements chainTree oneLine joinPath
           "src" chainResults (Some chainGraph) true 2 4 lateFirst Hperm).
Defined.

Lemma accepted_on_chain :
  filter (λ r, accepted elements (Some chainGraph) true 2 r = true) chainResults
  = [finding01; finding33].
Proof. vm_compute. reflexivity. Qed.

(** C9 on the same run: three findings validated, two valid, one not. *)
Lemma statistics_on_chain :
  complete_run elements (Some chainGraph) true 2 chainResults lateFirst ∧
  ∃ enrichedResults stats,
    EnrichResults elements chainTree oneLine joinPath "src" chainResults
                  (Some chainGraph) true 2 4 lateFirst
    = Some (enrichedResults, None, Some stats) ∧
    total stats = wrap32 (valid stats + invalid stats) ∧
    (len chainResults < 2^31 →
     total stats = valid stats + invalid stats ∧
     total stats = (if validating (Some chainGraph) true then len chainResults else 0) ∧
     valid stats = (if validating (Some chainGraph) true
                    then len (filter (λ r, accepted elements (Some chainGraph) true 2 r = true)
                                     chainResults)
                    else 0)).
Proof.
  assert (complete_run elements (Some chainGraph) true 2 chainResults lateFirst)
    as Hrun.
  { split; apply (bool_decide_unpack _); vm_compute; reflexivity. }
  split; [exact Hrun|].
  exact (statistics_add_up elements chainTree oneLine joinPath "src" chainResults
           (Some chainGraph) 2 4 lateFirst Hrun).
Defined.

Lemma statistics_values_on_chain :
  EnrichResults elements chainTree oneLine joinPath "src" chainResults
                (Some chainGraph) true 2 4 lateFirst
  ≫= (λ out, out.2)
  = Some (mkStats 3 2 1).
Proof. vm_compute. reflexivity. Qed.

(** C4 as stated, on the enrichment pipeline: the worker's lookup of the
    source code fails, yet the error returned is nil and the finding is
    returned with empty source code. *)
Lemma enrichment_error_is_not_returned :
  enrichWithSourceCode noTree oneLine joinPath "src" finding01
  = Err "failed to find free function src/chain.c:1:f0: no such directory" ∧
  EnrichResults elements noTree oneLine joinPath "src" [finding01] None false
                (-1) 1 (mkSchedule [0%nat] [])
  = Some ([mkFinding finding01 emptySourceCode None], None, None).
Proof. split; vm_compute; reflexivity. Qed.

(** C4 as the code has it: the pool halves four numbers, two of them odd;
    the item at position 3 completes first, so its error is the one
    returned, and all four results are. *)
Lemma first_error_on_four_items :
  [3; 1; 0; 2]%nat ≡ₚ seq 0 (length [4; 7; 10; 5]) ∧
  ProcessItems 0 halve [4; 7; 10; 5] [3; 1; 0; 2]%nat
  = ([2; 3; 5; 2], Some "odd input 5") ∧
  (∃ enrichedResults stats,
     EnrichResults elements noTree oneLine joinPath "src" [finding01] None false
                   (-1) 1 (mkSchedule [0%nat] [])
     = Some (enrichedResults, None, stats)).
Proof.
  assert ([3; 1; 0; 2]%nat ≡ₚ seq 0 (length [4; 7; 10; 5])) as Hperm
    by (apply (bool_decide_unpack _); vm_compute; reflexivity).
  split; [exact Hperm|].
  destruct (first_error_returned_by_pool elements noTree oneLine joinPath "src"
              0 halve [4; 7; 10; 5] [3; 1; 0; 2]%nat
              [finding01] None false (-1) 1 (mkSchedule [0%nat] []) Hperm)
    as (Hpool & Henrich & _).
  split; [|exact Henrich].
  rewrite Hpool. vm_compute. reflexivity.
Defined.

(** The same-function and direct-call results on the chain, whose file
    path holds no [":"]. *)
Lemma same_function_on_chain :
  AnalyzeReachability elements chainGraph "f3" "f3" 10
  = Some (mkReachabilityAnalysis true "Functions are the same" [["f3"]] []
            "Both operations occur in the same function: f3" 0 0).
Proof.
  apply (same_function_chain elements chainGraph "f3" 10 "src/chain.c" 4 []);
    vm_compute; reflexivity.
Defined.

Lemma direct_call_on_chain :
  AnalyzeReachability elements chainGraph "f0" "f1" 1
  = Some (mkReachabilityAnalysis true "Source function can reach target function"
            [["f0"; "f1"]] [] "Direct call: f0 calls f1" 1 1).
Proof.
  apply (direct_call_chain elements chainGraph "f0" "f1" 1
           "src/chain.c" 1 "src/chain.c" 2).
  - reflexivity.
  - reflexivity.
  - reflexivity.
  - reflexivity.
  - exact (BuildCallGraph_wf chainFunctions).
  - vm_compute. reflexivity.
  - vm_compute. reflexivity.
  - discriminate.
  - vm_compute. left.
  - lia.
Defined.

Lemma chain_no_path_back :
  graph.ShortestPath (g chainGraph) "src/chain.c:8:f7" "src/chain.c:1:f0" = None.
Proof. vm_compute. reflexivity. Qed.

(** [f0] and [f7] are seven calls apart one way and unreachable the other:
    no relationship, with [maxDepth = 10]. *)
Lemma unrelated_on_chain :
  AnalyzeReachability elements chainGraph "f0" "f7" 10
  = Some (mkReachabilityAnalysis false
            "No reachability relationship found between functions" [] []
            ("No direct calls, reverse calls, or common callers found between " +:+
               "f0" +:+ " and " +:+ "f7" +:+ " within depth " +:+ itoa 10)
            0 0).
Proof.
  apply (unrelated_gives_negative_result elements chainGraph "f0" "f7" 10).
  - vm_compute. discriminate.
  - vm_compute. discriminate.
  - intros s t Hs Ht.
    assert (lookupIDs chainGraph "f0" = ["src/chain.c:1:f0"]) as E0
      by (vm_compute; reflexivity).
    assert (lookupIDs chainGraph "f7" = ["src/chain.c:8:f7"]) as E7
      by (vm_compute; reflexivity).
    rewrite E0 in Hs. rewrite E7 in Ht.
    apply list_elem_of_singleton in Hs, Ht. subst s t.
    split; [discriminate|]. split; intros p Hp.
    + pose proof (ShortestPath_minimal (g chainGraph) _ _ _ p chain_shortest_path Hp)
        as Hlen.
      cbn [length] in Hlen. unfold len. lia.
    + destruct (ShortestPath_complete (g chainGraph) _ _ p
                  (BuildCallGraph_wf chainFunctions) Hp) as [q Hq].
      rewrite chain_no_path_back in Hq. discriminate.
Defined.

(** ** The further properties on the example programs *)

Lemma chain_direct_call d :
  1 ≤ d → AnalyzeReachability elements chainGraph "f0" "f1" d = Some direct01.
Proof.
  intros Hd.
  rewrite (direct_call_result elements chainGraph "f0" "f1" d
             "src/chain.c:1:f0" "src/chain.c:2:f1"); [done| | | | | |done].
  - exact (BuildCallGraph_wf chainFunctions).
  - vm_compute. reflexivity.
  - vm_compute. reflexivity.
  - discriminate.
  - vm_compute. left.
Qed.

(** [HasPath] on the chain, from [f0] to [f7] within 7 calls. *)
Lemma HasPath_on_chain :
  HasPath chainGraph "src/chain.c:1:f0" "src/chain.c:1:f0" (- 7 - 1) = true ∧
  (HasPath chainGraph "src/chain.c:1:f0" "src/chain.c:8:f7" 7 = true ↔
   ∃ p, graph.Path (g chainGraph) "src/chain.c:1:f0" "src/chain.c:8:f7" p ∧
        len p - 1 ≤ 7).
Proof.
  apply (HasPath_iff_path_within_depth chainGraph
           "src/chain.c:1:f0" "src/chain.c:8:f7" 7).
  - exact (BuildCallGraph_wf chainFunctions).
  - lia.
Defined.

(** [FindCallChains] on the chain, from [f0] to [f7] with depth 8. *)
Lemma FindCallChains_on_chain :
  (FindCallChains chainGraph "src/chain.c:1:f0" "src/chain.c:8:f7" 8 ≠ [] ↔
   HasPath chainGraph "src/chain.c:1:f0" "src/chain.c:8:f7" (8 - 1) = true) ∧
  (∀ chain,
     chain ∈ FindCallChains chainGraph "src/chain.c:1:f0" "src/chain.c:8:f7" 8 →
     FindCallChains chainGraph "src/chain.c:1:f0" "src/chain.c:8:f7" 8 = [chain] ∧
     graph.ShortestPath (g chainGraph) "src/chain.c:1:f0" "src/chain.c:8:f7"
     = Some chain ∧
     graph.Path (g chainGraph) "src/chain.c:1:f0" "src/chain.c:8:f7" chain ∧
     len chain ≤ 8).
Proof.
  apply (FindCallChains_one_short_of_HasPath chainGraph
           "src/chain.c:1:f0" "src/chain.c:8:f7" 8).
  discriminate.
Defined.

(** [release] and [touch] are connected through their caller [main]. *)
Lemma common_caller_on_fork :
  AreConnected elements forkGraph "src/fork.c:5:release" "src/fork.c:9:touch" 3
  = true.
Proof.
  apply (AreConnected_by_common_caller elements forkGraph "src/fork.c:1:main"
           "src/fork.c:5:release" "src/fork.c:9:touch" 3).
  - exact (BuildCallGraph_wf forkFunctions).
  - lia.
  - discriminate.
  - discriminate.
  - vm_compute. left.
  - vm_compute. right. left.
Defined.

(** The direct call from [f0] to [f1] connects their IDs. *)
Lemma connected_on_chain :
  ∃ sourceID targetID,
    sourceID ∈ lookupIDs chainGraph "f0" ∧
    targetID ∈ lookupIDs chainGraph "f1" ∧
    AreConnected elements chainGraph sourceID targetID 1 = true.
Proof.
  apply (valid_result_is_connected elements chainGraph "f0" "f1" 1 direct01).
  - apply chain_direct_call. lia.
  - reflexivity.
Defined.

(** [f0] reaches [f5] in 5 calls: found with depth 5, and with depth 10. *)
Lemma larger_depth_on_chain :
  (IsValid <$> AnalyzeReachability elements chainGraph "f0" "f5" 5 = Some true →
   IsValid <$> AnalyzeReachability elements chainGraph "f0" "f5" 10 = Some true) ∧
  (5 ≤ 5 →
   ∃ r r',
     AnalyzeReachability elements chainGraph "f0" "f5" 5 = Some r ∧
     AnalyzeReachability elements chainGraph "f0" "f5" 10 = Some r' ∧
     IsValid r = IsValid r' ∧ Reason r = Reason r' ∧
     CallChains r = CallChains r' ∧ CommonCallers r = CommonCallers r' ∧
     MinDepth r = MinDepth r' ∧ MaxDepth r = MaxDepth r' ∧
     (IsValid r = true → r = r')).
Proof.
  apply (larger_depth_finds_no_less elements chainGraph "f0" "f5" 5 10). lia.
Defined.

(** The depth of the direct call from [f0] to [f1]. *)
Lemma depth_of_direct_call :
  MinDepth direct01 = MaxDepth direct01 ∧
  ((Reason direct01 = "Functions are the same" ∧ MaxDepth direct01 = 0) ∨
   (Reason direct01 ≠ "Functions are the same" ∧
    1 ≤ MaxDepth direct01 ≤ Z.min 1 5)).
Proof.
  apply (valid_result_depth elements chainGraph "f0" "f1" 1 direct01).
  - apply chain_direct_call. lia.
  - reflexivity.
Defined.

(** [f0] has the callee [f1]: the two names are related, in either
    order. *)
Lemma direct_call_related_on_chain :
  IsValid <$>
    AnalyzeReachability elements (BuildCallGraph chainFunctions)
      (parser.Name (parser.parsed "src/chain.c" 1 "f0" "void f0() { f1(); }"
                                  [parser.mkCallee "f1" 1]))
      (parser.Name (parser.parsed "src/chain.c" 2 "f1" "void f1() { f2(); }"
                                  [parser.mkCallee "f2" 2]))
      1 = Some true ∧
  IsValid <$>
    AnalyzeReachability elements (BuildCallGraph chainFunctions)
      (parser.Name (parser.parsed "src/chain.c" 2 "f1" "void f1() { f2(); }"
                                  [parser.mkCallee "f2" 2]))
      (parser.Name (parser.parsed "src/chain.c" 1 "f0" "void f0() { f1(); }"
                                  [parser.mkCallee "f1" 1]))
      1 = Some true.
Proof.
  apply (direct_call_is_related elements chainFunctions
           (parser.parsed "src/chain.c" 1 "f0" "void f0() { f1(); }"
                          [parser.mkCallee "f1" 1])
           (parser.mkCallee "f1" 1)
           (parser.parsed "src/chain.c" 2 "f1" "void f1() { f2(); }"
                          [parser.mkCallee "f2" 2])
           1).
  - left.
  - left.
  - right. left.
  - reflexivity.
  - lia.
Defined.

(** The worker on the first finding over the chain, with a depth budget
    of 2. *)
Lemma worker_on_chain :
  (IsValid direct01 = true →
   ∃ finding,
     processItem elements chainTree oneLine joinPath "src" (Some chainGraph) true 2
                 (mkWorkItem 0 finding01)
     = Some ([AddTotal; AddValid],
             mkWorkResult (index (mkWorkItem 0 finding01)) (Some finding) None) ∧
     FindingCodeQLResult finding = item_result (mkWorkItem 0 finding01) ∧
     FindingCallValidation finding = Some direct01 ∧
     IntermediateFunctions (FindingSourceCode finding)
     = (λ funcName,
          match findFunctionByName chainTree "src" funcName with
          | Err _ => mkFunctionCode ("// Function " +:+ funcName +:+ " not found") ""
          | Ok funcCode => funcCode
          end) <$>
       extractIntermediateFunctions elements (CallChains direct01)
         (FreeFunctionName (item_result (mkWorkItem 0 finding01)))
         (UseFunctionName (item_result (mkWorkItem 0 finding01)))) ∧
  (IsValid direct01 = false →
   processItem elements chainTree oneLine joinPath "src" (Some chainGraph) true 2
               (mkWorkItem 0 finding01)
   = Some ([AddTotal; AddInvalid],
           mkWorkResult (index (mkWorkItem 0 finding01)) None None)).
Proof.
  apply (worker_sends_related_findings elements chainTree oneLine joinPath "src"
           chainGraph 2 (mkWorkItem 0 finding01) direct01).
  apply (chain_direct_call 2). lia.
Defined.

(** Validation over the chain with a depth budget of 2. *)
Lemma related_results_on_chain :
  ∃ enrichedResults stats,
    EnrichResults elements chainTree oneLine joinPath "src" chainResults
                  (Some chainGraph) true 2 4 lateFirst
    = Some (enrichedResults, None, Some stats) ∧
    FindingCodeQLResult <$> enrichedResults
    = filter (λ r, IsValid <$> ValidateCallRelationship elements chainGraph
                     (FreeFunctionName r) (UseFunctionName r)
                     (if 2 <? 0 then 10 else 2) = Some true)
             chainResults ∧
    Forall (λ finding,
              ∃ validation,
                FindingCallValidation finding = Some validation ∧
                IsValid validation = true ∧
                ValidateCallRelationship elements chainGraph
                  (FreeFunctionName (FindingCodeQLResult finding))
                  (UseFunctionName (FindingCodeQLResult finding))
                  (if 2 <? 0 then 10 else 2) = Some validation)
           enrichedResults.
Proof.
  apply (validation_keeps_the_related_results elements chainTree oneLine joinPath
           "src" chainResults chainGraph 2 4 lateFirst).
  apply (bool_decide_unpack _). vm_compute. reflexivity.
Defined.

(** The same run with validation switched off. *)
Lemma unvalidated_results_on_chain :
  ∃ enrichedResults stats,
    EnrichResults elements chainTree oneLine joinPath "src" chainResults
                  (Some chainGraph) false 2 4 lateFirst
    = Some (enrichedResults, None, stats) ∧
    enrichedResults
    = (λ r, match enrichWithSourceCode chainTree oneLine joinPath "src" r with
            | Ok finding => finding
            | Err _ => mkFinding r emptySourceCode None
            end) <$> chainResults ∧
    FindingCodeQLResult <$> enrichedResults = chainResults ∧
    Forall (λ finding, FindingCallValidation finding = None) enrichedResults ∧
    (atomics lateFirst
       ≡ₚ concat (opsOf elements (Some chainGraph) false 2 <$> chainResults) →
     stats = if false then Some (mkStats 0 0 0) else None).
Proof.
  apply (without_validation_every_result_is_kept elements chainTree oneLine
           joinPath "src" chainResults (Some chainGraph) false 2 4 lateFirst).
  - left. reflexivity.
  - apply (bool_decide_unpack _). vm_compute. reflexivity.
Defined.

(** The pipeline halving four numbers, two of them odd. *)
Lemma pipeline_on_four_numbers :
  processWithWorkerPool 0 0 fourNumbers "triage" halve [3; 1; 0; 2]%nat
  = match firstError halve (Results fourNumbers) [3; 1; 0; 2]%nat with
    | Some err => Err ("triage" +:+ " processing failed: " +:+ err)
    | None => Ok (mkUnifiedOutput (QueryFile fourNumbers) (Database fourNumbers)
                    (SrcDir fourNumbers)
                    ((λ item, (halve item).1) <$> Results fourNumbers))
    end ∧
  (firstError halve (Results fourNumbers) [3; 1; 0; 2]%nat = None ↔
   ∀ item, item ∈ Results fourNumbers → (halve item).2 = None) ∧
  1 ≤ NewWorkerPool 0.
Proof.
  apply (pipeline_is_all_or_nothing 0 0 fourNumbers "triage" halve
           [3; 1; 0; 2]%nat).
  apply (bool_decide_unpack _). vm_compute. reflexivity.
Defined.

(** The pool halving four numbers when only two results arrive. *)
Lemma partial_results_on_four_numbers :
  let out := ProcessItems 0 halve [4; 7; 10; 5] [3; 1]%nat in
  length out.1 = length [4; 7; 10; 5] ∧
  out.2 = firstError halve [4; 7; 10; 5] [3; 1]%nat ∧
  (∀ j, j ∈ [3; 1]%nat →
        out.1 !! j = (λ item, (halve item).1) <$> [4; 7; 10; 5] !! j) ∧
  (∀ j, j ∉ [3; 1]%nat → (j < length [4; 7; 10; 5])%nat → out.1 !! j = Some 0).
Proof.
  apply (ProcessItems_partial 0 halve [4; 7; 10; 5] [3; 1]%nat). discriminate.
Defined.

(** Decoding the record of the first finding over the chain. *)
Lemma record_of_chain_decodes :
  ∃ cell : string → string,
    (∀ name, name ∈ requiredFields →
       ∃ i, chainHeader !! i = Some name ∧
            (∀ j, (i < j)%nat → chainHeader !! j ≠ Some name) ∧
            chainRecord !! i = Some (cell name)) ∧
    parseRecord smallAtoi (headerMap chainHeader) chainRecord
    = Some
        match smallAtoi (cell "free_func_def_ln") with
        | Err _ => Err ("invalid ffDefLine value: " +:+ cell "free_func_def_ln")
        | Ok ffDefLine =>
        match smallAtoi (cell "free_ln") with
        | Err _ => Err ("invalid freeLine value: " +:+ cell "free_ln")
        | Ok freeLine =>
        match smallAtoi (cell "use_func_def_ln") with
        | Err _ => Err ("invalid fuDefLine value: " +:+ cell "use_func_def_ln")
        | Ok fuDefLine =>
        match smallAtoi (cell "use_ln") with
        | Err _ => Err ("invalid use_ln value: " +:+ cell "use_ln")
        | Ok useLine =>
            Ok (mkCodeQLResult (cell "object") (cell "free_func") (cell "free_file")
                               ffDefLine freeLine
                               (cell "use_func") (cell "use_file")
                               fuDefLine useLine)
        end end end end.
Proof.
  apply (csv_record_fields smallAtoi chainHeader chainRecord).
  - apply (bool_decide_unpack _). vm_compute. reflexivity.
  - reflexivity.
Defined.

Lemma record_of_chain_value :
  parseRecord smallAtoi (headerMap chainHeader) chainRecord = Some (Ok finding01).
Proof. vm_compute. reflexivity. Qed.

(** The query command without validation on a source tree that cannot be
    parsed. *)
Lemma query_without_sources :
  queryCmd_RunE elements noTree oneLine joinPath "src" foundExecutor
                availableCodeQL chainQuery "db" "uaf.ql" "codeql" true (-1) 0
                lateFirst
  = (if true then
       Some (Ok (mkUnifiedOutput "uaf.ql" "db" "src"
                   ((λ r, mkUnifiedResult r emptySourceCode None) <$> chainResults)))
     else Some (Err ("failed to parse source code for call graph: " +:+
                       "no such directory"))) ∧
  Forall (λ r, RequestCallChains
                 (createCodeQLRequest (mkUnifiedResult r emptySourceCode None))
               = [[FreeFunctionName r; UseFunctionName r]])
         chainResults.
Proof.
  apply (query_needs_sources_only_to_validate elements noTree oneLine joinPath
           "src" foundExecutor availableCodeQL chainQuery "db" "uaf.ql" "codeql"
           "codeql" chainResults "no such directory" true (-1) 0 lateFirst).
  - discriminate.
  - discriminate.
  - discriminate.
  - reflexivity.
  - reflexivity.
  - reflexivity.
  - reflexivity.
  - apply (bool_decide_unpack _). vm_compute. reflexivity.
Defined.

(** The query command with validation over the chain. *)
Lemma query_on_chain :
  ∃ output,
    queryCmd_RunE elements chainTree oneLine joinPath "src" foundExecutor
                  availableCodeQL chainQuery "db" "uaf.ql" "codeql" false (-1) 0
                  lateFirst
    = Some (Ok output) ∧
    QueryFile output = "uaf.ql" ∧ Database output = "db" ∧
    SrcDir output = "src" ∧
    UnifiedCodeQLResult <$> Results output
    = filter (λ r, IsValid <$> AnalyzeReachability elements
                     (BuildCallGraph chainFunctions)
                     (FreeFunctionName r) (UseFunctionName r)
                     (if -1 <? 0 then 10 else -1) = Some true)
             chainResults ∧
    Forall (λ result,
              ∃ validation chain,
                UnifiedCallValidation result = Some validation ∧
                IsValid validation = true ∧
                CallChains validation = [chain] ∧
                RequestCallChains (createCodeQLRequest result) = [chain])
           (Results output).
Proof.
  apply (query_prints_the_related_results elements chainTree oneLine joinPath
           "src" foundExecutor availableCodeQL chainQuery "db" "uaf.ql" "codeql"
           "codeql" chainResults chainFunctions (-1) 0 lateFirst).
  - discriminate.
  - discriminate.
  - discriminate.
  - reflexivity.
  - reflexivity.
  - reflexivity.
  - reflexivity.
  - apply (bool_decide_unpack _). vm_compute. reflexivity.
Defined.
